(** * ThreadPool: a shallow embedding of threadpool.h / threadpool.cpp

    The pool is a record of the fields of [class ThreadPool]; the process
    around it (the static worker-id counter, the detached OS threads, the
    clock and the trace of observable effects) is the record [World].
    Member functions are written in a small state-and-failure monad over
    [World].  Every function is one step of the source that no other
    thread can interleave with observably: a critical section under the
    queue mutex, a call of the controlling thread, or the stretch of the
    worker loop between two critical sections.  A run of the program is
    an interleaving of these steps. *)

From Stdlib Require Import ZArith Lia List Bool.
From stdpp Require Import base option list gmap.

Local Open Scope Z_scope.

(** ** Machine integers *)

Module Int.

(** [int] and [std::atomic_int] are 32 bits wide, [size_t] 64. *)
Definition int_min : Z := - 2 ^ 31.
Definition int_max : Z := 2 ^ 31 - 1.

Definition in_range (z : Z) : Prop := int_min <= z <= int_max.

(** Two's complement wrap-around of [std::atomic_int] arithmetic. *)
Definition wrap32 (z : Z) : Z := (z + 2 ^ 31) mod 2 ^ 32 - 2 ^ 31.

(** [x++] and [x--] on a [std::atomic_int]. *)
Definition atomic_inc (x : Z) : Z := wrap32 (x + 1).
Definition atomic_dec (x : Z) : Z := wrap32 (x - 1).

(** The cast [(size_t)x] of an [int]. *)
Definition to_size_t (x : Z) : Z := x mod 2 ^ 64.

End Int.

Arguments Int.wrap32 : simpl never.
Arguments Int.atomic_inc : simpl never.
Arguments Int.atomic_dec : simpl never.
Arguments Int.to_size_t : simpl never.

(** ** Data model *)

(** [enum class PoolMode] *)
Inductive PoolMode := MODE_FIXED | MODE_CACHED.

#[global] Instance PoolMode_eq_dec : EqDecision PoolMode.
Proof. solve_decision. Defined.

(** A caller's bound callable [std::bind(func, args...)], named by a handle. *)
Definition Callable := nat.

(** What a [std::packaged_task] runs when invoked: the caller's bound
    callable, or the lambda [[]()->Rtype { return Rtype(); }] of the
    rejection path. *)
Inductive Body :=
| UserBody (c : Callable)
| DefaultBody.

(** [using Task = std::function<void()>]: the queued lambda that invokes
    the shared packaged task of callable [c]. *)
Definition Task := Callable.

(** [std::future<Rtype>]: already holding a value, or linked to the
    packaged task of a queued callable, which fulfils it when it runs. *)
Inductive Future (R : Type) :=
| Ready (v : R)
| Pending (c : Callable).
Arguments Ready {R} v.
Arguments Pending {R} c.

(** [class Thread]: [func_] is always [ThreadPool::threadFunc] bound to the
    pool, so only the id is kept. *)
Record Thread := { threadId_ : Z }.

(** [class ThreadPool], field by field. *)
Record ThreadPool := {
  threads_ : gmap Z Thread;
  initThreadSize_ : Z;
  threadSizeThreshHold_ : Z;
  curThreadSize_ : Z;
  idleThreadSize_ : Z;
  taskQue_ : list Task;
  taskSize_ : Z;
  taskQueMaxThreshHold_ : Z;
  poolMode_ : PoolMode;
  isPoolRunning_ : bool
}.

Inductive CondVar := notFull_ | notEmpty_ | exitCond_.

Inductive Msg :=
| MsgQueueFull       (* "The task queue is full and waiting for more than one second..." *)
| MsgNotCached       (* "The thread pool mode is not Cached mode." *)
| MsgCreating        (* "Creating a new thread..." *)
| MsgTryTask         (* "tid: ... trying to get a task" *)
| MsgGotTask         (* "tid: ... got a task" *)
| MsgExit.           (* "thread id: ... Exit." *)

(** Observable effects, in program order. *)
Inductive Event :=
| Cerr (m : Msg)
| Cout (m : Msg)
| NotifyAll (cv : CondVar)
| Launch (id : Z)          (* std::thread t(func_, threadId_); t.detach(); *)
| Invoke (b : Body)        (* operator() of a packaged task *)
| Enqueue (t : Task)       (* taskQue_.emplace *)
| Dequeue (t : Task).      (* taskQue_.front(); taskQue_.pop() *)

#[global] Instance Body_eq_dec : EqDecision Body.
Proof. solve_decision. Defined.
#[global] Instance CondVar_eq_dec : EqDecision CondVar.
Proof. solve_decision. Defined.
#[global] Instance Msg_eq_dec : EqDecision Msg.
Proof. solve_decision. Defined.
#[global] Instance Event_eq_dec : EqDecision Event.
Proof. solve_decision. Defined.

(** Where a detached thread running [threadFunc] stands. *)
Inductive Phase :=
| AtEntry                  (* before [lastTime] is first read *)
| AtLock                   (* about to take the mutex at the top of [while (1)] *)
| WaitingTimed             (* inside [notEmpty_.wait_for(lock, 1s)] *)
| WaitingUntimed           (* inside [notEmpty_.wait(lock)] *)
| Executing (t : Task)     (* outside the lock, holding a claimed task *)
| Terminated.              (* returned from [threadFunc] *)

Record OsThread := {
  th_id : Z;               (* the [threadid] argument *)
  th_phase : Phase;
  th_lastTime : Z          (* the local [lastTime], in clock ticks *)
}.

(** The process: the static [Thread::generateId_], the pool, the detached
    threads, [high_resolution_clock] and the trace. *)
Record World := {
  generateId_ : Z;
  pool : ThreadPool;
  os_threads : list OsThread;
  clock : Z;
  events : list Event
}.

(** ** Constants of threadpool.cpp *)

Definition TASK_MAX_THRESHHOLD : Z := 2147483647.   (* INT32_MAX *)
Definition THREAD_MAX_THRESHHOLD : Z := 1024.
Definition THREAD_MAX_IDLE_TIME : Z := 60.

(** Ticks of [high_resolution_clock] per second (the source reads the
    clock with nanosecond precision). *)
Definition ticks_per_second : Z := 1000000000.

(** ** Field updates *)

Definition with_threads (f : gmap Z Thread -> gmap Z Thread) (p : ThreadPool) : ThreadPool :=
  {| threads_ := f (threads_ p); initThreadSize_ := initThreadSize_ p;
     threadSizeThreshHold_ := threadSizeThreshHold_ p;
     curThreadSize_ := curThreadSize_ p; idleThreadSize_ := idleThreadSize_ p;
     taskQue_ := taskQue_ p; taskSize_ := taskSize_ p;
     taskQueMaxThreshHold_ := taskQueMaxThreshHold_ p;
     poolMode_ := poolMode_ p; isPoolRunning_ := isPoolRunning_ p |}.

Definition with_initThreadSize (v : Z) (p : ThreadPool) : ThreadPool :=
  {| threads_ := threads_ p; initThreadSize_ := v;
     threadSizeThreshHold_ := threadSizeThreshHold_ p;
     curThreadSize_ := curThreadSize_ p; idleThreadSize_ := idleThreadSize_ p;
     taskQue_ := taskQue_ p; taskSize_ := taskSize_ p;
     taskQueMaxThreshHold_ := taskQueMaxThreshHold_ p;
     poolMode_ := poolMode_ p; isPoolRunning_ := isPoolRunning_ p |}.

Definition with_threadSizeThreshHold (v : Z) (p : ThreadPool) : ThreadPool :=
  {| threads_ := threads_ p; initThreadSize_ := initThreadSize_ p;
     threadSizeThreshHold_ := v;
     curThreadSize_ := curThreadSize_ p; idleThreadSize_ := idleThreadSize_ p;
     taskQue_ := taskQue_ p; taskSize_ := taskSize_ p;
     taskQueMaxThreshHold_ := taskQueMaxThreshHold_ p;
     poolMode_ := poolMode_ p; isPoolRunning_ := isPoolRunning_ p |}.

Definition with_curThreadSize (f : Z -> Z) (p : ThreadPool) : ThreadPool :=
  {| threads_ := threads_ p; initThreadSize_ := initThreadSize_ p;
     threadSizeThreshHold_ := threadSizeThreshHold_ p;
     curThreadSize_ := f (curThreadSize_ p); idleThreadSize_ := idleThreadSize_ p;
     taskQue_ := taskQue_ p; taskSize_ := taskSize_ p;
     taskQueMaxThreshHold_ := taskQueMaxThreshHold_ p;
     poolMode_ := poolMode_ p; isPoolRunning_ := isPoolRunning_ p |}.

Definition with_idleThreadSize (f : Z -> Z) (p : ThreadPool) : ThreadPool :=
  {| threads_ := threads_ p; initThreadSize_ := initThreadSize_ p;
     threadSizeThreshHold_ := threadSizeThreshHold_ p;
     curThreadSize_ := curThreadSize_ p; idleThreadSize_ := f (idleThreadSize_ p);
     taskQue_ := taskQue_ p; taskSize_ := taskSize_ p;
     taskQueMaxThreshHold_ := taskQueMaxThreshHold_ p;
     poolMode_ := poolMode_ p; isPoolRunning_ := isPoolRunning_ p |}.

Definition with_taskQue (f : list Task -> list Task) (p : ThreadPool) : ThreadPool :=
  {| threads_ := threads_ p; initThreadSize_ := initThreadSize_ p;
     threadSizeThreshHold_ := threadSizeThreshHold_ p;
     curThreadSize_ := curThreadSize_ p; idleThreadSize_ := idleThreadSize_ p;
     taskQue_ := f (taskQue_ p); taskSize_ := taskSize_ p;
     taskQueMaxThreshHold_ := taskQueMaxThreshHold_ p;
     poolMode_ := poolMode_ p; isPoolRunning_ := isPoolRunning_ p |}.

Definition with_taskSize (f : Z -> Z) (p : ThreadPool) : ThreadPool :=
  {| threads_ := threads_ p; initThreadSize_ := initThreadSize_ p;
     threadSizeThreshHold_ := threadSizeThreshHold_ p;
     curThreadSize_ := curThreadSize_ p; idleThreadSize_ := idleThreadSize_ p;
     taskQue_ := taskQue_ p; taskSize_ := f (taskSize_ p);
     taskQueMaxThreshHold_ := taskQueMaxThreshHold_ p;
     poolMode_ := poolMode_ p; isPoolRunning_ := isPoolRunning_ p |}.

Definition with_taskQueMaxThreshHold (v : Z) (p : ThreadPool) : ThreadPool :=
  {| threads_ := threads_ p; initThreadSize_ := initThreadSize_ p;
     threadSizeThreshHold_ := threadSizeThreshHold_ p;
     curThreadSize_ := curThreadSize_ p; idleThreadSize_ := idleThreadSize_ p;
     taskQue_ := taskQue_ p; taskSize_ := taskSize_ p;
     taskQueMaxThreshHold_ := v;
     poolMode_ := poolMode_ p; isPoolRunning_ := isPoolRunning_ p |}.

Definition with_poolMode (v : PoolMode) (p : ThreadPool) : ThreadPool :=
  {| threads_ := threads_ p; initThreadSize_ := initThreadSize_ p;
     threadSizeThreshHold_ := threadSizeThreshHold_ p;
     curThreadSize_ := curThreadSize_ p; idleThreadSize_ := idleThreadSize_ p;
     taskQue_ := taskQue_ p; taskSize_ := taskSize_ p;
     taskQueMaxThreshHold_ := taskQueMaxThreshHold_ p;
     poolMode_ := v; isPoolRunning_ := isPoolRunning_ p |}.

Definition with_isPoolRunning (v : bool) (p : ThreadPool) : ThreadPool :=
  {| threads_ := threads_ p; initThreadSize_ := initThreadSize_ p;
     threadSizeThreshHold_ := threadSizeThreshHold_ p;
     curThreadSize_ := curThreadSize_ p; idleThreadSize_ := idleThreadSize_ p;
     taskQue_ := taskQue_ p; taskSize_ := taskSize_ p;
     taskQueMaxThreshHold_ := taskQueMaxThreshHold_ p;
     poolMode_ := poolMode_ p; isPoolRunning_ := v |}.

Definition with_pool (f : ThreadPool -> ThreadPool) (w : World) : World :=
  {| generateId_ := generateId_ w; pool := f (pool w);
     os_threads := os_threads w; clock := clock w; events := events w |}.

Definition with_generateId (f : Z -> Z) (w : World) : World :=
  {| generateId_ := f (generateId_ w); pool := pool w;
     os_threads := os_threads w; clock := clock w; events := events w |}.

Definition with_os_threads (f : list OsThread -> list OsThread) (w : World) : World :=
  {| generateId_ := generateId_ w; pool := pool w;
     os_threads := f (os_threads w); clock := clock w; events := events w |}.

Definition with_clock (f : Z -> Z) (w : World) : World :=
  {| generateId_ := generateId_ w; pool := pool w;
     os_threads := os_threads w; clock := f (clock w); events := events w |}.

Definition with_events (f : list Event -> list Event) (w : World) : World :=
  {| generateId_ := generateId_ w; pool := pool w;
     os_threads := os_threads w; clock := clock w; events := f (events w) |}.

Definition with_phase (ph : Phase) (t : OsThread) : OsThread :=
  {| th_id := th_id t; th_phase := ph; th_lastTime := th_lastTime t |}.

Definition with_lastTime (v : Z) (t : OsThread) : OsThread :=
  {| th_id := th_id t; th_phase := th_phase t; th_lastTime := v |}.

(** ** The monad of member functions

    [None] is undefined behaviour of the source (a null [unique_ptr]
    dereferenced): the run has no further states. *)

Definition M (A : Type) : Type := World -> option (A * World).

Definition ret {A} (a : A) : M A := fun w => Some (a, w).

Definition bind {A B} (m : M A) (k : A -> M B) : M B :=
  fun w => match m w with
           | Some (a, w') => k a w'
           | None => None
           end.

Definition undefined_behaviour {A} : M A := fun _ => None.

Declare Scope pool_scope.
Delimit Scope pool_scope with pool.
Notation "x <- m ;; k" := (bind m (fun x => k))
  (at level 100, m at next level, k at level 200, right associativity) : pool_scope.
Notation "m ;; k" := (bind m (fun _ => k))
  (at level 100, k at level 200, right associativity) : pool_scope.
Local Open Scope pool_scope.

Definition get_pool : M ThreadPool := fun w => Some (pool w, w).
Definition get_clock : M Z := fun w => Some (clock w, w).
Definition update_pool (f : ThreadPool -> ThreadPool) : M unit :=
  fun w => Some (tt, with_pool f w).
Definition emit (e : Event) : M unit :=
  fun w => Some (tt, with_events (fun l => l ++ [e]) w).

(** [for (int i = from; i < from + n; i++) body(i)] *)
Fixpoint for_loop (n : nat) (i : Z) (body : Z -> M unit) : M unit :=
  match n with
  | O => ret tt
  | S k => body i ;; for_loop k (i + 1) body
  end.

(** ** class Thread *)

(** [Thread::Thread]: [threadId_(generateId_++)].  The counter is a plain
    [int]; its overflow is undefined in the source and not reached here. *)
Definition Thread_ctor : M Thread :=
  fun w => Some ({| threadId_ := generateId_ w |},
                 with_generateId (fun g => g + 1) w).

(** [Thread::start]: a detached [std::thread] running [func_(threadId_)]. *)
Definition Thread_start (t : Thread) : M unit :=
  fun w => Some (tt,
    with_events (fun l => l ++ [Launch (threadId_ t)])
      (with_os_threads
         (fun l => l ++ [{| th_id := threadId_ t; th_phase := AtEntry;
                            th_lastTime := 0 |}]) w)).

(** ** class ThreadPool *)

(** [ThreadPool::ThreadPool] *)
Definition ThreadPool_ctor : ThreadPool :=
  {| threads_ := ∅;
     initThreadSize_ := 0;
     threadSizeThreshHold_ := THREAD_MAX_THRESHHOLD;
     curThreadSize_ := 0;
     idleThreadSize_ := 0;
     taskQue_ := [];
     taskSize_ := 0;
     taskQueMaxThreshHold_ := TASK_MAX_THRESHHOLD;
     poolMode_ := MODE_FIXED;
     isPoolRunning_ := false |}.

Definition checkPoolRunningState (p : ThreadPool) : bool := isPoolRunning_ p.

(** [std::unordered_map::emplace]: no effect on a key already there. *)
Definition map_emplace (id : Z) (ptr : Thread) (m : gmap Z Thread) : gmap Z Thread :=
  match m !! id with
  | Some _ => m
  | None => <[id := ptr]> m
  end.

(** [threads_.emplace(threadId, std::move(ptr))] *)
Definition threads_emplace (id : Z) (ptr : Thread) : M unit :=
  update_pool (with_threads (map_emplace id ptr)).

(** [threads_[k]->...]: [operator[]] inserts a null [unique_ptr] under a
    missing key, and dereferencing it is undefined. *)
Definition threads_deref (k : Z) : M Thread :=
  p <- get_pool ;;
  match threads_ p !! k with
  | Some t => ret t
  | None => undefined_behaviour
  end.

(** [threads_.erase(threadid)] *)
Definition threads_erase (k : Z) : M unit :=
  update_pool (with_threads (delete k)).

Definition setMode (mode : PoolMode) : M unit :=
  p <- get_pool ;;
  if checkPoolRunningState p then ret tt
  else update_pool (with_poolMode mode).

Definition setTaskQueMaxThreshHold (threshhold : Z) : M unit :=
  p <- get_pool ;;
  if checkPoolRunningState p then ret tt
  else update_pool (with_taskQueMaxThreshHold threshhold).

Definition setThreadSizeThreshHold (threshhold : Z) : M unit :=
  p <- get_pool ;;
  if checkPoolRunningState p then ret tt
  else if decide (poolMode_ p = MODE_CACHED)
       then update_pool (with_threadSizeThreshHold threshhold)
       else emit (Cerr MsgNotCached).

(** [ThreadPool::start] *)
Definition start (initThreadSize : Z) : M unit :=
  update_pool (with_isPoolRunning true) ;;
  update_pool (with_initThreadSize initThreadSize) ;;
  update_pool (with_curThreadSize (fun _ => initThreadSize)) ;;
  update_pool (with_idleThreadSize (fun _ => initThreadSize)) ;;
  p <- get_pool ;;
  for_loop (Z.to_nat (initThreadSize_ p)) 0 (fun _ =>
    ptr <- Thread_ctor ;;
    threads_emplace (threadId_ ptr) ptr) ;;
  for_loop (Z.to_nat (initThreadSize_ p)) 0 (fun i =>
    th <- threads_deref i ;;
    Thread_start th).

(** The default argument [std::thread::hardware_concurrency()], an
    [unsigned] converted to [int]. *)
Definition start_default (hardware_concurrency : Z) : M unit :=
  start (Int.wrap32 hardware_concurrency).

(** The predicate of [notFull_.wait_for]:
    [taskQue_.size() < (size_t)taskQueMaxThreshHold_]. *)
Definition notFull_pred (p : ThreadPool) : bool :=
  Z.of_nat (length (taskQue_ p)) <? Int.to_size_t (taskQueMaxThreshHold_ p).

(** The test of lines 123-125, read after the enqueue. *)
Definition should_spawn (p : ThreadPool) : bool :=
  bool_decide (poolMode_ p = MODE_CACHED)
  && (idleThreadSize_ p <? taskSize_ p)
  && (curThreadSize_ p <? threadSizeThreshHold_ p).

(** [ThreadPool::submitTask], from the point where [wait_for] returns: it
    returns the value of its predicate, [false] only after the whole
    second has passed with the predicate still false. *)
Definition submitTask {R : Type} (Rtype_ctor : R) (func : Callable) : M (Future R) :=
  p <- get_pool ;;
  if negb (notFull_pred p) then
    emit (Cerr MsgQueueFull) ;;
    emit (Invoke DefaultBody) ;;
    ret (Ready Rtype_ctor)
  else
    update_pool (with_taskQue (fun q => q ++ [func])) ;;
    emit (Enqueue func) ;;
    update_pool (with_taskSize Int.atomic_inc) ;;
    emit (NotifyAll notEmpty_) ;;
    p <- get_pool ;;
    (if should_spawn p then
       emit (Cout MsgCreating) ;;
       ptr <- Thread_ctor ;;
       threads_emplace (threadId_ ptr) ptr ;;
       th <- threads_deref (threadId_ ptr) ;;
       Thread_start th ;;
       update_pool (with_curThreadSize Int.atomic_inc) ;;
       update_pool (with_idleThreadSize Int.atomic_inc)
     else ret tt) ;;
    ret (Pending func).

(** [ThreadPool::~ThreadPool] up to its wait on [exitCond_]. *)
Definition destructor_begin : M unit :=
  update_pool (with_isPoolRunning false) ;;
  emit (NotifyAll notEmpty_).

(** The predicate of [exitCond_.wait], [threads_.size() == 0].  It is
    only the predicate: the wait tests it when it is entered and again
    each time the destructor is woken, and a wake-up takes a
    notification of [exitCond_].  The exit path of [threadFunc] sends
    one after its [erase]; the reclaim path erases without one, so the
    predicate can hold while the destructor stays blocked. *)
Definition exitCond_pred (p : ThreadPool) : bool :=
  bool_decide (size (threads_ p) = 0%nat).

(** ** ThreadPool::threadFunc *)

(** [std::cv_status] *)
Inductive cv_status := no_timeout | timeout.

Definition set_phase (i : nat) (ph : Phase) : M unit :=
  fun w => Some (tt, with_os_threads (alter (with_phase ph) i) w).

Definition set_lastTime (i : nat) (v : Z) : M unit :=
  fun w => Some (tt, with_os_threads (alter (with_lastTime v) i) w).

(** [taskQue_.front()] and [taskQue_.pop()], undefined on an empty queue. *)
Definition taskQue_front : M Task :=
  p <- get_pool ;;
  match taskQue_ p with
  | t :: _ => ret t
  | [] => undefined_behaviour
  end.

Definition taskQue_pop : M unit :=
  p <- get_pool ;;
  match taskQue_ p with
  | t :: _ => update_pool (with_taskQue (drop 1)) ;; emit (Dequeue t)
  | [] => undefined_behaviour
  end.

(** Lines 186-205: the claim, after the [while] loop has found a task. *)
Definition claim_section (i : nat) : M unit :=
  update_pool (with_idleThreadSize Int.atomic_dec) ;;
  emit (Cout MsgGotTask) ;;
  task <- taskQue_front ;;
  taskQue_pop ;;
  update_pool (with_taskSize Int.atomic_dec) ;;
  p <- get_pool ;;
  (if (0 <? length (taskQue_ p))%nat then emit (NotifyAll notEmpty_) else ret tt) ;;
  emit (NotifyAll notFull_) ;;
  set_phase i (Executing task).

(** The head of [while (taskQue_.size() == 0)] with the mutex held, up to
    the next wait, return or claim. *)
Definition loop_head (i : nat) (threadid : Z) : M unit :=
  p <- get_pool ;;
  if (length (taskQue_ p) =? 0)%nat then
    if negb (isPoolRunning_ p) then
      threads_erase threadid ;;
      emit (Cout MsgExit) ;;
      emit (NotifyAll exitCond_) ;;
      set_phase i Terminated
    else if decide (poolMode_ p = MODE_CACHED) then set_phase i WaitingTimed
    else set_phase i WaitingUntimed
  else claim_section i.

(** [duration_cast<seconds>(now - lastTime).count()]: truncation. *)
Definition idle_seconds (lastTime now : Z) : Z :=
  Z.quot (now - lastTime) ticks_per_second.

(** The test of lines 165-166. *)
Definition should_reclaim (lastTime now : Z) (p : ThreadPool) : bool :=
  (THREAD_MAX_IDLE_TIME <=? idle_seconds lastTime now)
  && (initThreadSize_ p <? curThreadSize_ p).

(** Lines 159-177: [wait_for] has returned [st] and the mutex is held again. *)
Definition after_wait_for (i : nat) (th : OsThread) (st : cv_status) : M unit :=
  match st with
  | timeout =>
      now <- get_clock ;;
      p <- get_pool ;;
      if should_reclaim (th_lastTime th) now p then
        threads_erase (th_id th) ;;
        update_pool (with_curThreadSize Int.atomic_dec) ;;
        update_pool (with_idleThreadSize Int.atomic_dec) ;;
        emit (Cout MsgExit) ;;
        set_phase i Terminated
      else loop_head i (th_id th)
  | no_timeout => loop_head i (th_id th)
  end.

(** Lines 207-216: the claimed task runs outside the lock, then the
    worker counts itself idle again. *)
Definition run_task (i : nat) (task : Task) : M unit :=
  emit (Invoke (UserBody task)) ;;
  update_pool (with_idleThreadSize Int.atomic_inc) ;;
  now <- get_clock ;;
  set_lastTime i now ;;
  set_phase i AtLock.

(** One scheduling step of the [i]-th detached thread. *)
Definition threadFunc_step (i : nat) (st : cv_status) : M unit :=
  fun w =>
    match os_threads w !! i with
    | None => None
    | Some th =>
        match th_phase th with
        | AtEntry => (now <- get_clock ;; set_lastTime i now ;; set_phase i AtLock) w
        | AtLock => (emit (Cout MsgTryTask) ;; loop_head i (th_id th)) w
        | WaitingTimed => after_wait_for i th st w
        | WaitingUntimed => loop_head i (th_id th) w
        | Executing t => run_task i t w
        | Terminated => None
        end
    end.

(** ** Runs of the process *)

Inductive Action :=
| CallSetMode (mode : PoolMode)
| CallSetTaskQueMaxThreshHold (threshhold : Z)
| CallSetThreadSizeThreshHold (threshhold : Z)
| CallStart (initThreadSize : Z)
| CallSubmitTask (func : Callable)
| CallDestructor
| ClockTick (d : N)
| WorkerStep (i : nat) (st : cv_status).

(** One atomic step.  [None]: the source's behaviour is undefined there,
    or the named thread cannot move (it does not exist or has returned). *)
Definition exec (a : Action) : M unit :=
  match a with
  | CallSetMode m => setMode m
  | CallSetTaskQueMaxThreshHold n => setTaskQueMaxThreshHold n
  | CallSetThreadSizeThreshHold n => setThreadSizeThreshHold n
  | CallStart n => start n
  | CallSubmitTask c => (_ <- submitTask tt c ;; ret tt)
  | CallDestructor => destructor_begin
  | ClockTick d => fun w => Some (tt, with_clock (fun c => c + Z.of_N d) w)
  | WorkerStep i st => threadFunc_step i st
  end.

Fixpoint run (acts : list Action) : M unit :=
  match acts with
  | [] => ret tt
  | a :: rest => exec a ;; run rest
  end.

(** A process in which no [Thread] has been constructed yet, holding a
    freshly constructed pool. *)
Definition fresh_world : World :=
  {| generateId_ := 0; pool := ThreadPool_ctor; os_threads := [];
     clock := 0; events := [] |}.

(** The world reached by a run, if any. *)
Definition after (acts : list Action) (w : World) : option World :=
  snd <$> run acts w.

(** ** main.cpp *)

(** How a callable computing on [int] ends: signed overflow is undefined
    in the source. *)
Inductive Outcome :=
| Returned (v : Z)
| SignedOverflow
| OutOfFuel.

Definition fits_int (z : Z) : bool :=
  (Int.int_min <=? z) && (z <=? Int.int_max).

(** The loop of the lambda submitted three times by [main],
    [for (int i = b; i <= e; i++) sum += i; return sum;],
    from the test [i <= e] on, unrolled at most [fuel] times. *)
Fixpoint range_sum_loop (fuel : nat) (i e sum : Z) : Outcome :=
  match fuel with
  | O => OutOfFuel
  | S k =>
      if i <=? e then
        if fits_int (sum + i) then
          if fits_int (i + 1) then range_sum_loop k (i + 1) e (sum + i)
          else SignedOverflow
        else SignedOverflow
      else Returned sum
  end.

(** [[](int b, int e)->int { int sum = 0; ...; return sum; }]: the test
    is reached once more than the body, which runs at most [e - b + 1]
    times. *)
Definition range_sum (b e : Z) : Outcome :=
  range_sum_loop (S (Z.to_nat (e - b + 1))) b e 0.

(** * Specification vocabulary *)

(** The events a call added to the trace. *)
Definition events_since (w w' : World) : list Event :=
  drop (length (events w)) (events w').

(** Every [int] field holds a value of its type. *)
Record int_fields_ok (p : ThreadPool) : Prop := {
  init_ok : Int.in_range (initThreadSize_ p);
  thresh_ok : Int.in_range (threadSizeThreshHold_ p);
  cur_ok : Int.in_range (curThreadSize_ p);
  idle_ok : Int.in_range (idleThreadSize_ p);
  size_ok : Int.in_range (taskSize_ p);
  quemax_ok : Int.in_range (taskQueMaxThreshHold_ p)
}.

(** Worker ids come from the counter: a live worker sits under its own id,
    below the next id to be handed out. *)
Definition ids_below_counter (w : World) : Prop :=
  forall k t, threads_ (pool w) !! k = Some t ->
              threadId_ t = k /\ 0 <= k < generateId_ w.

Definition launches (evs : list Event) : list Z :=
  omap (fun e => match e with Launch id => Some id | _ => None end) evs.

Definition enqueued (evs : list Event) : list Task :=
  omap (fun e => match e with Enqueue t => Some t | _ => None end) evs.

Definition dequeued (evs : list Event) : list Task :=
  omap (fun e => match e with Dequeue t => Some t | _ => None end) evs.

Definition invoked (evs : list Event) : list Body :=
  omap (fun e => match e with Invoke b => Some b | _ => None end) evs.

Definition new_thread (t : Thread) : OsThread :=
  {| th_id := threadId_ t; th_phase := AtEntry; th_lastTime := 0 |}.

(** The live map after [k] constructions starting at id [g]. *)
Fixpoint emplace_seq (k : nat) (g : Z) (m : gmap Z Thread) : gmap Z Thread :=
  match k with
  | O => m
  | S k' =>
      emplace_seq k' (g + 1) (map_emplace g {| threadId_ := g |} m)
  end.

(** The workers found under the keys [i], [i+1], ..., [i+k-1], if all are there. *)
Fixpoint deref_seq (k : nat) (i : Z) (m : gmap Z Thread) : option (list Thread) :=
  match k with
  | O => Some []
  | S k' =>
      match m !! i with
      | None => None
      | Some t => cons t <$> deref_seq k' (i + 1) m
      end
  end.

Definition construct_body : Z -> M unit :=
  fun _ => ptr <- Thread_ctor ;; threads_emplace (threadId_ ptr) ptr.

Definition launch_body : Z -> M unit :=
  fun i => th <- threads_deref i ;; Thread_start th.

Definition launched_world (ths : list Thread) (w : World) : World :=
  {| generateId_ := generateId_ w; pool := pool w;
     os_threads := os_threads w ++ map new_thread ths;
     clock := clock w;
     events := events w ++ map (fun t => Launch (threadId_ t)) ths |}.

(** The pool as [start] leaves it. *)
Definition started_pool (n : Z) (g : Z) (p : ThreadPool) : ThreadPool :=
  with_threads (emplace_seq (Z.to_nat n) g)
    (with_idleThreadSize (fun _ => n)
       (with_curThreadSize (fun _ => n)
          (with_initThreadSize n (with_isPoolRunning true p)))).

(** How often worker [id] was launched in a stretch of the trace. *)
Definition launch_count (id : Z) (evs : list Event) : nat :=
  length (filter (fun x => x = id) (launches evs)).

(** [start n] returns, and each worker it constructed (the ids from the
    counter's old value up to its new one) was launched exactly once. *)
Definition launches_each_new_worker_once (n : Z) (w : World) : Prop :=
  exists w',
    start n w = Some (tt, w')
    /\ forall id, generateId_ w <= id < generateId_ w' ->
                  launch_count id (events_since w w') = 1%nat.

(** A process in which one [Thread] was constructed before this pool. *)
Definition second_pool_world : World :=
  with_generateId (fun _ => 1) fresh_world.

Definition rejected_world (w : World) : World :=
  with_events (fun l => l ++ [Cerr MsgQueueFull; Invoke DefaultBody]) w.

Definition enqueued_world (c : Callable) (w : World) : World :=
  with_events (fun l => l ++ [Enqueue c; NotifyAll notEmpty_])
    (with_pool (fun p => with_taskSize Int.atomic_inc
                           (with_taskQue (fun q => q ++ [c]) p)) w).

(** The world after the spawn branch, [t] being what the live map holds
    under the new id once [emplace] has run. *)
Definition spawned_world (t : Thread) (w : World) : World :=
  {| generateId_ := generateId_ w + 1;
     pool := with_idleThreadSize Int.atomic_inc
               (with_curThreadSize Int.atomic_inc
                  (with_threads
                     (map_emplace (generateId_ w) {| threadId_ := generateId_ w |})
                     (pool w)));
     os_threads := os_threads w ++ [new_thread t];
     clock := clock w;
     events := events w ++ [Cout MsgCreating; Launch (threadId_ t)] |}.

Definition exited_world (i : nat) (tid : Z) (w : World) : World :=
  with_os_threads (alter (with_phase Terminated) i)
    (with_events (fun l => l ++ [Cout MsgExit; NotifyAll exitCond_])
       (with_pool (with_threads (delete tid)) w)).

Definition waiting_world (i : nat) (ph : Phase) (w : World) : World :=
  with_os_threads (alter (with_phase ph) i) w.

Definition claimed_world (i : nat) (t : Task) (q : list Task) (w : World) : World :=
  with_os_threads (alter (with_phase (Executing t)) i)
    (with_events
       (fun l => l ++ [Cout MsgGotTask; Dequeue t]
                   ++ (if (0 <? length q)%nat then [NotifyAll notEmpty_] else [])
                   ++ [NotifyAll notFull_])
       (with_pool
          (fun p => with_taskSize Int.atomic_dec
                      (with_taskQue (drop 1)
                         (with_idleThreadSize Int.atomic_dec p))) w)).

Definition reclaimed_world (i : nat) (tid : Z) (w : World) : World :=
  with_os_threads (alter (with_phase Terminated) i)
    (with_events (fun l => l ++ [Cout MsgExit])
       (with_pool
          (fun p => with_idleThreadSize Int.atomic_dec
                      (with_curThreadSize Int.atomic_dec
                         (with_threads (delete tid) p))) w)).

Definition finished_world (i : nat) (t : Task) (w : World) : World :=
  with_os_threads
    (fun l => alter (with_phase AtLock) i (alter (with_lastTime (clock w)) i l))
    (with_events (fun l => l ++ [Invoke (UserBody t)])
       (with_pool (with_idleThreadSize Int.atomic_inc) w)).

Definition entered_world (i : nat) (w : World) : World :=
  with_os_threads
    (fun l => alter (with_phase AtLock) i (alter (with_lastTime (clock w)) i l)) w.

(** What the head of the [while] loop leads to. *)
Inductive head_outcome (i : nat) (tid : Z) (w : World) : World -> Prop :=
| ho_wait ph :
    taskQue_ (pool w) = [] -> isPoolRunning_ (pool w) = true ->
    ph = WaitingTimed \/ ph = WaitingUntimed ->
    head_outcome i tid w (waiting_world i ph w)
| ho_exit :
    taskQue_ (pool w) = [] -> isPoolRunning_ (pool w) = false ->
    head_outcome i tid w (exited_world i tid w)
| ho_claim t q :
    taskQue_ (pool w) = t :: q ->
    head_outcome i tid w (claimed_world i t q w).

(** A thread that stands before the loop test. *)
Definition at_head (ph : Phase) : Prop :=
  ph = AtLock \/ ph = WaitingTimed \/ ph = WaitingUntimed.

(** The configuration calls and [start]. *)
Inductive configures (w : World) : World -> Prop :=
| cf_unchanged : configures w w
| cf_setMode m :
    isPoolRunning_ (pool w) = false ->
    configures w (with_pool (with_poolMode m) w)
| cf_setTaskQueMax n :
    isPoolRunning_ (pool w) = false ->
    configures w (with_pool (with_taskQueMaxThreshHold n) w)
| cf_setThreadMax n :
    isPoolRunning_ (pool w) = false -> poolMode_ (pool w) = MODE_CACHED ->
    configures w (with_pool (with_threadSizeThreshHold n) w)
| cf_diagnostic :
    configures w (with_events (fun l => l ++ [Cerr MsgNotCached]) w)
| cf_start n ths :
    deref_seq (Z.to_nat n) 0
      (emplace_seq (Z.to_nat n) (generateId_ w) (threads_ (pool w))) = Some ths ->
    configures w
      {| generateId_ := generateId_ w + Z.of_nat (Z.to_nat n);
         pool := started_pool n (generateId_ w) (pool w);
         os_threads := os_threads w ++ map new_thread ths;
         clock := clock w;
         events := events w ++ map (fun t => Launch (threadId_ t)) ths |}.

(** Submissions, the destructor, the clock and the workers. *)
Inductive services (w : World) : World -> Prop :=
| sv_reject :
    notFull_pred (pool w) = false ->
    services w (rejected_world w)
| sv_enqueue c :
    notFull_pred (pool w) = true ->
    should_spawn (pool (enqueued_world c w)) = false ->
    services w (enqueued_world c w)
| sv_spawn c :
    notFull_pred (pool w) = true ->
    should_spawn (pool (enqueued_world c w)) = true ->
    services w
      (spawned_world
         (default {| threadId_ := generateId_ w |}
            (threads_ (pool w) !! generateId_ w))
         (enqueued_world c w))
| sv_destructor :
    services w
      (with_events (fun l => l ++ [NotifyAll notEmpty_])
         (with_pool (with_isPoolRunning false) w))
| sv_tick d :
    services w (with_clock (fun c => c + Z.of_N d) w)
| sv_entry i th :
    os_threads w !! i = Some th -> th_phase th = AtEntry ->
    services w (entered_world i w)
| sv_finish i th t :
    os_threads w !! i = Some th -> th_phase th = Executing t ->
    services w (finished_world i t w)
| sv_head i th w1 w' :
    os_threads w !! i = Some th -> at_head (th_phase th) ->
    w1 = w \/ w1 = with_events (fun l => l ++ [Cout MsgTryTask]) w ->
    head_outcome i (th_id th) w1 w' ->
    services w w'
| sv_reclaim i th :
    os_threads w !! i = Some th -> th_phase th = WaitingTimed ->
    should_reclaim (th_lastTime th) (clock w) (pool w) = true ->
    services w (reclaimed_world i (th_id th) w).

(** The actions a client and the workers take once the pool is started. *)
Definition service_action (a : Action) : bool :=
  match a with
  | CallSubmitTask _ | CallDestructor | ClockTick _ | WorkerStep _ _ => true
  | _ => false
  end.

(** What one step adds to the trace, and how the queue moves with it. *)
Record step_trace (w w' : World) (evs : list Event) : Prop := {
  st_events : events w' = events w ++ evs;
  st_queue : dequeued evs ++ taskQue_ (pool w') = taskQue_ (pool w) ++ enqueued evs
}.

Definition all_terminated (w : World) : Prop :=
  Forall (fun th => th_phase th = Terminated) (os_threads w).

(** The worker has been idle for at least [THREAD_MAX_IDLE_TIME] whole
    seconds and the pool is above its initial size. *)
Definition reclaim_due (lastTime now : Z) (p : ThreadPool) : Prop :=
  THREAD_MAX_IDLE_TIME * ticks_per_second <= now - lastTime
  /\ initThreadSize_ p < curThreadSize_ p.

(** The wording "idle strictly longer than the idle-timeout". *)
Definition reclaim_due_strict (lastTime now : Z) (p : ThreadPool) : Prop :=
  THREAD_MAX_IDLE_TIME * ticks_per_second < now - lastTime
  /\ initThreadSize_ p < curThreadSize_ p.

(** The invariants of the pool record, as the specification lists them. *)
Record pool_invariants (p : ThreadPool) : Prop := {
  inv_idle_nonneg : 0 <= idleThreadSize_ p;
  inv_idle_le_cur : idleThreadSize_ p <= curThreadSize_ p;
  inv_cur_le_max :
    poolMode_ p = MODE_CACHED -> curThreadSize_ p <= threadSizeThreshHold_ p;
  inv_queue_bound : taskSize_ p <= taskQueMaxThreshHold_ p;
  inv_task_counter : taskSize_ p = Z.of_nat (length (taskQue_ p))
}.

Definition is_executing (ph : Phase) : bool :=
  match ph with Executing _ => true | _ => false end.

Definition is_alive (ph : Phase) : bool :=
  match ph with Terminated => false | _ => true end.

(** How many threads are in a phase satisfying [f]. *)
Fixpoint count_phase (f : Phase -> bool) (l : list OsThread) : nat :=
  match l with
  | [] => 0
  | th :: rest => (if f (th_phase th) then 1 else 0) + count_phase f rest
  end.

(** A pool that has been configured but not started, in a process that
    has built no [Thread] yet. *)
Inductive configured : World -> Prop :=
| configured_fresh : configured fresh_world
| configured_setMode w m w' :
    configured w -> setMode m w = Some (tt, w') -> configured w'
| configured_setTaskQueMaxThreshHold w n w' :
    configured w -> 0 <= n <= Int.int_max ->
    setTaskQueMaxThreshHold n w = Some (tt, w') -> configured w'
| configured_setThreadSizeThreshHold w n w' :
    configured w -> 0 <= n <= Int.int_max ->
    setThreadSizeThreshHold n w = Some (tt, w') -> configured w'.

Definition is_setter (a : Action) : bool :=
  match a with
  | CallSetMode _ | CallSetTaskQueMaxThreshHold _
  | CallSetThreadSizeThreshHold _ => true
  | _ => false
  end.

(** The worlds of a well-behaved client: non-negative limits set on the
    fresh pool, then at most one call of [start], made before anything
    else, with an initial size that is non-negative and, in cached mode,
    within the thread limit.  Submissions, the destructor, the clock and
    the workers interleave freely; further setter calls are made only
    while the pool is running. *)
Inductive reachable : World -> Prop :=
| reachable_configured w :
    configured w -> reachable w
| reachable_start w n w' :
    configured w ->
    0 <= n <= Int.int_max ->
    (poolMode_ (pool w) = MODE_CACHED -> n <= threadSizeThreshHold_ (pool w)) ->
    start n w = Some (tt, w') ->
    reachable w'
| reachable_service w a w' :
    reachable w -> service_action a = true ->
    exec a w = Some (tt, w') ->
    reachable w'
| reachable_setter w a w' :
    reachable w -> isPoolRunning_ (pool w) = true -> is_setter a = true ->
    exec a w = Some (tt, w') ->
    reachable w'.

(** The invariant carried through a run: the specification's, tied to the
    phases of the worker threads. *)
Record serving_inv (w : World) : Prop := {
  si_task_counter : taskSize_ (pool w) = Z.of_nat (length (taskQue_ (pool w)));
  si_quemax : 0 <= taskQueMaxThreshHold_ (pool w) <= Int.int_max;
  si_queue_bound :
    Z.of_nat (length (taskQue_ (pool w))) <= taskQueMaxThreshHold_ (pool w);
  si_executing :
    Z.of_nat (count_phase is_executing (os_threads w))
    = curThreadSize_ (pool w) - idleThreadSize_ (pool w);
  si_alive :
    Z.of_nat (count_phase is_alive (os_threads w)) <= curThreadSize_ (pool w);
  si_thresh : threadSizeThreshHold_ (pool w) <= Int.int_max;
  si_cur_max : curThreadSize_ (pool w) <= Int.int_max;
  si_cached :
    poolMode_ (pool w) = MODE_CACHED ->
    curThreadSize_ (pool w) <= threadSizeThreshHold_ (pool w)
}.

Definition indicator (b : bool) : Z := if b then 1 else 0.

(** What a configured pool looks like. *)
Record configured_shape (w : World) : Prop := {
  cs_counter : generateId_ w = 0;
  cs_threads : threads_ (pool w) = ∅;
  cs_os : os_threads w = [];
  cs_cur : curThreadSize_ (pool w) = 0;
  cs_idle : idleThreadSize_ (pool w) = 0;
  cs_queue : taskQue_ (pool w) = [];
  cs_size : taskSize_ (pool w) = 0;
  cs_running : isPoolRunning_ (pool w) = false;
  cs_quemax : 0 <= taskQueMaxThreshHold_ (pool w) <= Int.int_max;
  cs_thresh : 0 <= threadSizeThreshHold_ (pool w) <= Int.int_max
}.

(** No queued task and no executing thread holds callable [c]. *)
Definition not_held (c : Callable) (w : World) : Prop :=
  (c ∉ taskQue_ (pool w))
  /\ Forall (fun th => th_phase th <> Executing c) (os_threads w).

(** The [int] arguments of a call are values of that type. *)
Definition action_args_ok (a : Action) : Prop :=
  match a with
  | CallSetTaskQueMaxThreshHold n | CallSetThreadSizeThreshHold n
  | CallStart n => Int.in_range n
  | _ => True
  end.

(** ** Example worlds *)

(** The world a run from [fresh_world] ends in. *)
Definition world_after (acts : list Action) : World :=
  default fresh_world (after acts fresh_world).

(** A fixed pool of two workers, just started. *)
Definition started_world : World :=
  world_after [CallStart 2].

(** A one-slot queue holding a task no worker has claimed yet. *)
Definition full_queue_world : World :=
  world_after [CallSetTaskQueMaxThreshHold 1; CallStart 1; CallSubmitTask 1%nat].

(** The destructor has cleared the running flag while a task is queued
    and the only worker is about to take the lock. *)
Definition shutting_down_world : World :=
  world_after [CallStart 1; CallSubmitTask 7%nat; CallDestructor;
               WorkerStep 0 no_timeout].

(** A fixed pool whose only worker stands at the loop head with two
    tasks queued. *)
Definition two_queued_world : World :=
  world_after [CallStart 1; CallSubmitTask 1%nat; CallSubmitTask 2%nat;
               WorkerStep 0 no_timeout].

(** A cached pool of one worker with one task queued. *)
Definition cached_busy_world : World :=
  world_after [CallSetMode MODE_CACHED; CallStart 1; CallSubmitTask 1%nat].

(** The run that grows a cached pool from one worker to two and lets both
    finish their task and wait; the second worker's wait then times out
    once a second, 59 times, and one more second passes. *)
Definition grow_then_idle : list Action :=
  [CallSetMode MODE_CACHED; CallStart 1;
   CallSubmitTask 1%nat; CallSubmitTask 2%nat;
   WorkerStep 0 no_timeout; WorkerStep 1 no_timeout;
   WorkerStep 0 no_timeout; WorkerStep 1 no_timeout;
   WorkerStep 0 no_timeout; WorkerStep 1 no_timeout;
   WorkerStep 0 no_timeout; WorkerStep 1 no_timeout]
  ++ concat (replicate 59 [ClockTick 1000000000; WorkerStep 1 timeout])
  ++ [ClockTick 1000000000].

Definition idle_sixty_world : World := world_after grow_then_idle.

(** A fixed pool of two workers, one of them running a claimed task. *)
Definition serving_world : World :=
  world_after [CallStart 2; CallSubmitTask 1%nat;
               WorkerStep 0 no_timeout; WorkerStep 0 no_timeout].

(** The run of main.cpp under one schedule: three workers, five
    submissions, then the destructor. *)
Definition main_run : list Action :=
  [CallStart 3;
   CallSubmitTask 1%nat; CallSubmitTask 2%nat; CallSubmitTask 3%nat;
   CallSubmitTask 4%nat; CallSubmitTask 5%nat;
   WorkerStep 0 no_timeout; WorkerStep 1 no_timeout; WorkerStep 2 no_timeout;
   WorkerStep 0 no_timeout; WorkerStep 1 no_timeout; WorkerStep 2 no_timeout;
   WorkerStep 2 no_timeout; WorkerStep 2 no_timeout;
   WorkerStep 1 no_timeout; WorkerStep 1 no_timeout;
   WorkerStep 0 no_timeout; WorkerStep 2 no_timeout; WorkerStep 1 no_timeout;
   CallDestructor;
   WorkerStep 0 no_timeout; WorkerStep 1 no_timeout; WorkerStep 2 no_timeout].

(** ** Vocabulary of the further properties *)

(** The task a thread holds, if it is executing one. *)
Definition task_of (th : OsThread) : list Task :=
  match th_phase th with
  | Executing t => [t]
  | _ => []
  end.

(** The tasks held by executing threads. *)
Definition executing_tasks (l : list OsThread) : list Task :=
  omap (fun th => match th_phase th with
                  | Executing t => Some t
                  | _ => None
                  end) l.

(** The callers' callables invoked in a stretch of the trace. *)
Definition user_invoked (evs : list Event) : list Callable :=
  omap (fun e => match e with
                 | Invoke (UserBody c) => Some c
                 | _ => None
                 end) evs.

(** No thread is inside the timed wait of the cached branch. *)
Definition no_timed_wait (w : World) : Prop :=
  Forall (fun th => th_phase th <> WaitingTimed) (os_threads w).

(** Every worker in the live map has a thread that has not returned. *)
Definition live_covered (w : World) : Prop :=
  forall k t, threads_ (pool w) !! k = Some t ->
    exists i th, os_threads w !! i = Some th
                 /\ th_id th = k /\ is_alive (th_phase th) = true.

(** Steps a thread still has to take at most before it can return, not
    counting the tasks it will claim. *)
Definition phase_weight (ph : Phase) : nat :=
  match ph with
  | AtEntry => 2
  | AtLock => 1
  | WaitingTimed => 1
  | WaitingUntimed => 1
  | Executing _ => 2
  | Terminated => 0
  end.

Fixpoint threads_weight (l : list OsThread) : nat :=
  match l with
  | [] => 0
  | th :: rest => phase_weight (th_phase th) + threads_weight rest
  end.

(** A bound on the worker steps left once the running flag is cleared. *)
Definition shutdown_measure (w : World) : nat :=
  3 * length (taskQue_ (pool w)) + threads_weight (os_threads w).

Definition is_worker_step (a : Action) : bool :=
  match a with WorkerStep _ _ => true | _ => false end.

Definition is_destructor (a : Action) : bool :=
  match a with CallDestructor => true | _ => false end.

Definition is_start (a : Action) : bool :=
  match a with CallStart _ => true | _ => false end.

(** One worker started and shut down again: its id 0 has left the live
    map. *)
Definition drained_world : World :=
  world_after [CallStart 1; CallDestructor;
               WorkerStep 0 no_timeout; WorkerStep 0 no_timeout].

(** What a step of a running fixed pool leaves as it was. *)
Record fixed_step (w w' : World) : Prop := {
  fs_threads : threads_ (pool w') = threads_ (pool w);
  fs_cur : curThreadSize_ (pool w') = curThreadSize_ (pool w);
  fs_mode : poolMode_ (pool w') = MODE_FIXED;
  fs_no_timed : no_timed_wait w';
  fs_events : exists evs, events w' = events w ++ evs /\ launches evs = []
}.

(** A cached pool that grew to two workers and has reclaimed one. *)
Definition reclaimed_once_world : World :=
  world_after (grow_then_idle ++ [WorkerStep 1 timeout]).

(** What one step does to the tasks in flight: those invoked during it,
    followed by those still held by executing threads, are those held
    before followed by those dequeued during it. *)
Record step_tasks (w w' : World) (evs : list Event) : Prop := {
  stk_events : events w' = events w ++ evs;
  stk_tasks :
    user_invoked evs ++ executing_tasks (os_threads w')
    ≡ₚ executing_tasks (os_threads w) ++ dequeued evs
}.

(** What one step of a submission, the destructor, the clock or a worker
    launches: at most one thread, for the next id, and only together
    with an enqueue. *)
Record step_growth (w w' : World) (evs : list Event) : Prop := {
  sg_events : events w' = events w ++ evs;
  sg_counter : generateId_ w <= generateId_ w';
  sg_launches :
    launches evs = seqZ (generateId_ w) (generateId_ w' - generateId_ w);
  sg_bound : (length (launches evs) <= length (enqueued evs))%nat
}.

(** A pool whose queue limit was set to -1 before it was started. *)
Definition unlimited_world : World :=
  world_after [CallSetTaskQueMaxThreshHold (-1); CallStart 1;
               CallSubmitTask 1%nat; CallSubmitTask 2%nat].

(** The workers the pool counts on: every live-map entry sits under its
    own id below a non-negative counter, and belongs to a thread that has
    not returned. *)
Record workers_tracked (w : World) : Prop := {
  wt_counter : 0 <= generateId_ w;
  wt_ids : ids_below_counter w;
  wt_covered : live_covered w
}.

(** What a worker step does once the running flag is cleared. *)
Record shutdown_step (w w' : World) (evs : list Event) : Prop := {
  sd_events : events w' = events w ++ evs;
  sd_running : isPoolRunning_ (pool w') = false;
  sd_measure : (shutdown_measure w' < shutdown_measure w)%nat;
  sd_queue : (length (taskQue_ (pool w')) <= length (taskQue_ (pool w)))%nat;
  sd_tasks :
    user_invoked evs ++ executing_tasks (os_threads w') ++ taskQue_ (pool w')
    ≡ₚ executing_tasks (os_threads w) ++ taskQue_ (pool w)
}.

(** The threads of the process in the order of their launch carry the ids
    0, 1, 2, ... up to the counter, and each one that has not returned
    is in the live map. *)
Record workers_indexed (w : World) : Prop := {
  wi_index : map th_id (os_threads w) = seqZ 0 (generateId_ w);
  wi_alive :
    forall i th, os_threads w !! i = Some th ->
                 is_alive (th_phase th) = true ->
                 is_Some (threads_ (pool w) !! th_id th)
}.

(** The sum of the integers from [b] to [k]. *)
Definition range_total (b k : Z) : Z := (b + k) * (k - b + 1) / 2.

(** * Proof tactics *)

Ltac mstep :=
  unfold threads_erase, threads_emplace, threads_deref,
         Thread_ctor, Thread_start, set_phase, set_lastTime;
  unfold bind, ret, get_pool, get_clock, update_pool, emit,
         undefined_behaviour;
  simpl.

(** Reduce field reads of updated records, innermost update first, and
    nothing else. *)
Ltac fields :=
  cbv beta iota delta
      [with_threads with_initThreadSize with_threadSizeThreshHold
       with_curThreadSize with_idleThreadSize with_taskQue with_taskSize
       with_taskQueMaxThreshHold with_poolMode with_isPoolRunning
       with_pool with_generateId with_os_threads with_clock with_events
       with_phase with_lastTime
       generateId_ pool os_threads clock events
       threads_ initThreadSize_ threadSizeThreshHold_ curThreadSize_
       idleThreadSize_ taskQue_ taskSize_ taskQueMaxThreshHold_ poolMode_
       isPoolRunning_ th_id th_phase th_lastTime].

(** Two worlds built from the same one by field updates are equal. *)
Ltac world_eq w :=
  destruct w as [? [] ? ? ?]; fields; rewrite <- ?app_assoc; reflexivity.

(** * Supporting lemmas *)

(** ** Machine arithmetic *)

Module IntFacts.
Import Int.

Lemma wrap32_in_range z : in_range z -> wrap32 z = z.
Proof.
  unfold in_range, int_min, int_max, wrap32. intros H.
  rewrite Z.mod_small; lia.
Qed.

Lemma wrap32_range z : in_range (wrap32 z).
Proof.
  unfold in_range, int_min, int_max, wrap32.
  pose proof (Z.mod_pos_bound (z + 2 ^ 31) (2 ^ 32)). lia.
Qed.

Lemma atomic_inc_succ x : int_min <= x < int_max -> atomic_inc x = x + 1.
Proof.
  unfold atomic_inc, int_min, int_max. intros H.
  apply wrap32_in_range. unfold in_range, int_min, int_max. lia.
Qed.

Lemma atomic_dec_pred x : int_min < x <= int_max -> atomic_dec x = x - 1.
Proof.
  unfold atomic_dec, int_min, int_max. intros H.
  apply wrap32_in_range. unfold in_range, int_min, int_max. lia.
Qed.

Lemma atomic_inc_range x : in_range (atomic_inc x).
Proof. apply wrap32_range. Qed.

Lemma atomic_dec_range x : in_range (atomic_dec x).
Proof. apply wrap32_range. Qed.

Lemma to_size_t_nonneg x : 0 <= x <= int_max -> to_size_t x = x.
Proof.
  unfold to_size_t, int_max. intros H. apply Z.mod_small. lia.
Qed.

End IntFacts.

Create HintDb int_range.
#[global] Hint Resolve IntFacts.wrap32_range IntFacts.atomic_inc_range
  IntFacts.atomic_dec_range : int_range.

(** ** The trace and the claim section *)

Lemma events_since_app (w w' : World) (evs : list Event) :
  events w' = events w ++ evs -> events_since w w' = evs.
Proof.
  intros H. unfold events_since. rewrite H. apply drop_app_length.
Qed.

(** The claim, as a function of the state it starts from. *)
Lemma claim_section_eq (i : nat) (w : World) (t : Task) (q : list Task) :
  taskQue_ (pool w) = t :: q ->
  claim_section i w =
    Some (tt,
      with_os_threads (alter (with_phase (Executing t)) i)
        (with_events
           (fun l => l ++ [Cout MsgGotTask; Dequeue t]
                       ++ (if (0 <? length q)%nat then [NotifyAll notEmpty_] else [])
                       ++ [NotifyAll notFull_])
           (with_pool
              (fun p => with_taskSize Int.atomic_dec
                          (with_taskQue (drop 1)
                             (with_idleThreadSize Int.atomic_dec p))) w))).
Proof.
  intros Hq. destruct w as [g p os c ev]. destruct p. simpl in Hq. subst.
  unfold claim_section, taskQue_front, taskQue_pop. mstep.
  unfold with_os_threads, with_events, with_pool. simpl.
  rewrite drop_0.
  destruct (0 <? length q)%nat; simpl;
    repeat rewrite <- app_assoc; reflexivity.
Qed.

Lemma loop_head_nonempty (i : nat) (tid : Z) (w : World) (t : Task) (q : list Task) :
  taskQue_ (pool w) = t :: q ->
  loop_head i tid w = claim_section i w.
Proof.
  intros Hq. unfold loop_head. mstep. rewrite Hq. reflexivity.
Qed.

(** ** The loops of start *)

Lemma construct_loop_eq (k : nat) (i : Z) (w : World) :
  for_loop k i construct_body w =
    Some (tt, {| generateId_ := generateId_ w + Z.of_nat k;
                 pool := with_threads (emplace_seq k (generateId_ w)) (pool w);
                 os_threads := os_threads w; clock := clock w;
                 events := events w |}).
Proof.
  revert i w. induction k as [|k IH]; intros i w.
  - simpl. unfold ret. destruct w as [g p os c ev]. destruct p. simpl.
    rewrite Z.add_0_r. reflexivity.
  - cbn [for_loop]. unfold bind at 1. unfold construct_body at 1. mstep.
    rewrite IH. simpl. do 2 f_equal.
    destruct w as [g p os c ev]. destruct p. simpl.
    f_equal. lia.
Qed.

Lemma launch_loop_eq (k : nat) (i : Z) (w : World) :
  for_loop k i launch_body w =
    match deref_seq k i (threads_ (pool w)) with
    | Some ths => Some (tt, launched_world ths w)
    | None => None
    end.
Proof.
  revert i w. induction k as [|k IH]; intros i w.
  - simpl. unfold ret, launched_world. simpl.
    rewrite !app_nil_r. destruct w; reflexivity.
  - cbn [for_loop deref_seq]. unfold bind at 1. unfold launch_body at 1. mstep.
    destruct (threads_ (pool w) !! i) as [t|] eqn:Hi; [|reflexivity].
    rewrite IH. simpl.
    destruct (deref_seq k (i + 1) (threads_ (pool w))) as [ths|]; [|reflexivity].
    simpl. unfold launched_world. simpl.
    rewrite <- !app_assoc. reflexivity.
Qed.

Lemma start_eq (n : Z) (w : World) :
  start n w =
    match deref_seq (Z.to_nat n) 0
            (emplace_seq (Z.to_nat n) (generateId_ w) (threads_ (pool w))) with
    | Some ths =>
        Some (tt, {| generateId_ := generateId_ w + Z.of_nat (Z.to_nat n);
                     pool := started_pool n (generateId_ w) (pool w);
                     os_threads := os_threads w ++ map new_thread ths;
                     clock := clock w;
                     events := events w ++ map (fun t => Launch (threadId_ t)) ths |})
    | None => None
    end.
Proof.
  unfold start.
  change (fun _ : Z => ptr <- Thread_ctor ;; threads_emplace (threadId_ ptr) ptr)
    with construct_body.
  change (fun i : Z => th <- threads_deref i ;; Thread_start th)
    with launch_body.
  unfold bind, update_pool, get_pool. simpl.
  rewrite construct_loop_eq. simpl. rewrite launch_loop_eq. simpl.
  reflexivity.
Qed.

Lemma lookup_emplace_seq (k : nat) (g : Z) (m : gmap Z Thread) (j : Z) :
  emplace_seq k g m !! j =
    match m !! j with
    | Some t => Some t
    | None => if decide (g <= j < g + Z.of_nat k)
              then Some {| threadId_ := j |} else None
    end.
Proof.
  revert g m. induction k as [|k IH]; intros g m.
  - simpl. destruct (m !! j); [reflexivity|].
    destruct (decide _) as [H|H]; [lia|reflexivity].
  - cbn [emplace_seq]. rewrite IH. unfold map_emplace.
    destruct (m !! g) as [t|] eqn:Hg.
    + destruct (m !! j) as [t'|] eqn:Hj; [reflexivity|].
      assert (j <> g) by congruence.
      repeat destruct (decide _); try reflexivity; lia.
    + destruct (decide (g = j)) as [->|Hne].
      * rewrite lookup_insert_eq, Hg.
        destruct (decide _) as [H|H]; [reflexivity|lia].
      * rewrite lookup_insert_ne by exact Hne.
        destruct (m !! j); [reflexivity|].
        repeat destruct (decide _); try reflexivity; lia.
Qed.

Lemma deref_seq_total (k : nat) (i : Z) (m : gmap Z Thread) :
  (forall j, i <= j < i + Z.of_nat k -> is_Some (m !! j)) ->
  is_Some (deref_seq k i m).
Proof.
  revert i. induction k as [|k IH]; intros i Hall.
  - simpl. eauto.
  - cbn [deref_seq]. destruct (Hall i) as [t Ht]; [lia|]. rewrite Ht.
    destruct (IH (i + 1)) as [ths Hths].
    + intros j Hj. apply Hall. lia.
    + rewrite Hths. simpl. eauto.
Qed.

Lemma deref_seq_length (k : nat) (i : Z) (m : gmap Z Thread) (ths : list Thread) :
  deref_seq k i m = Some ths -> length ths = k.
Proof.
  revert i ths. induction k as [|k IH]; intros i ths H.
  - simpl in H. by inversion H.
  - cbn [deref_seq] in H. destruct (m !! i); [|discriminate].
    destruct (deref_seq k (i + 1) m) as [ths'|] eqn:E; [|discriminate].
    simpl in H. inversion H; subst. simpl. f_equal. eapply IH, E.
Qed.

Lemma deref_seq_ids (k : nat) (i : Z) (m : gmap Z Thread) (ths : list Thread) :
  (forall j t, m !! j = Some t -> threadId_ t = j) ->
  deref_seq k i m = Some ths ->
  map threadId_ ths = seqZ i (Z.of_nat k).
Proof.
  intros Hkey. revert i ths. induction k as [|k IH]; intros i ths H.
  - simpl in H. by inversion H.
  - cbn [deref_seq] in H. destruct (m !! i) as [t|] eqn:Hi; [|discriminate].
    destruct (deref_seq k (i + 1) m) as [ths'|] eqn:E; [|discriminate].
    simpl in H. inversion H; subst. simpl.
    rewrite seqZ_cons by lia. f_equal.
    + eapply Hkey, Hi.
    + rewrite (IH _ _ E). f_equal; lia.
Qed.

Lemma deref_seq_missing (k : nat) (i j : Z) (m : gmap Z Thread) :
  i <= j < i + Z.of_nat k -> m !! j = None -> deref_seq k i m = None.
Proof.
  revert i. induction k as [|k IH]; intros i Hj Hnone; [lia|].
  cbn [deref_seq]. destruct (decide (i = j)) as [->|Hne].
  - by rewrite Hnone.
  - destruct (m !! i); [|reflexivity].
    rewrite IH; [reflexivity| lia | exact Hnone].
Qed.

Lemma launches_map_Launch (ths : list Thread) :
  launches (map (fun t => Launch (threadId_ t)) ths) = map threadId_ ths.
Proof.
  unfold launches. induction ths as [|t ths IH]; simpl; [reflexivity|].
  f_equal. exact IH.
Qed.

Lemma count_absent (id : Z) (l : list Z) :
  id ∉ l -> length (filter (fun x => x = id) l) = 0%nat.
Proof.
  induction l as [|x l IH]; intros Hnot; [reflexivity|].
  rewrite filter_cons. destruct (decide (x = id)) as [->|Hne].
  - exfalso. apply Hnot. left.
  - apply IH. intros Hin. apply Hnot. by right.
Qed.

Lemma count_NoDup (id : Z) (l : list Z) :
  NoDup l -> id ∈ l -> length (filter (fun x => x = id) l) = 1%nat.
Proof.
  induction 1 as [|x l Hx Hnd IH]; intros Hin.
  - by apply elem_of_nil in Hin.
  - rewrite filter_cons. destruct (decide (x = id)) as [->|Hne].
    + simpl. f_equal. by apply count_absent.
    + apply IH. apply elem_of_cons in Hin as [->|Hin]; [congruence|exact Hin].
Qed.

(** The live map keeps every worker under its own id through [start]'s
    first loop. *)
Lemma emplace_seq_keys (k : nat) (g : Z) (m : gmap Z Thread) :
  (forall j t, m !! j = Some t -> threadId_ t = j) ->
  forall j t, emplace_seq k g m !! j = Some t -> threadId_ t = j.
Proof.
  intros Hkey j t. rewrite lookup_emplace_seq.
  destruct (m !! j) as [t'|] eqn:Hj.
  - intros [= <-]. eapply Hkey, Hj.
  - destruct (decide _); [|discriminate]. by intros [= <-].
Qed.

(** What [start] launches, whenever it returns. *)
Lemma start_returns (n : Z) (w w' : World) :
  ids_below_counter w ->
  start n w = Some (tt, w') ->
  generateId_ w' = generateId_ w + Z.of_nat (Z.to_nat n)
  /\ pool w' = started_pool n (generateId_ w) (pool w)
  /\ launches (events_since w w') = seqZ 0 (Z.of_nat (Z.to_nat n))
  /\ map th_id (drop (length (os_threads w)) (os_threads w'))
     = seqZ 0 (Z.of_nat (Z.to_nat n)).
Proof.
  intros Hwf. rewrite start_eq.
  destruct (deref_seq _ _ _) as [ths|] eqn:E; [|discriminate].
  intros [= <-]. simpl.
  assert (Hids : map threadId_ ths = seqZ 0 (Z.of_nat (Z.to_nat n))).
  { eapply deref_seq_ids; [|exact E].
    apply emplace_seq_keys. intros j t Hj. by apply Hwf in Hj as [? _]. }
  repeat split.
  - unfold events_since. simpl. rewrite drop_app_length.
    rewrite launches_map_Launch. exact Hids.
  - rewrite drop_app_length. rewrite map_map. simpl. exact Hids.
Qed.

(** On a process that has never built a [Thread], [start] returns. *)
Lemma start_fresh_ids (n : Z) (w : World) :
  generateId_ w = 0 -> ids_below_counter w ->
  exists w', start n w = Some (tt, w').
Proof.
  intros Hg Hwf. rewrite start_eq.
  destruct (deref_seq_total (Z.to_nat n) 0
              (emplace_seq (Z.to_nat n) (generateId_ w) (threads_ (pool w))))
    as [ths Hths].
  - intros j Hj. rewrite lookup_emplace_seq.
    destruct (threads_ (pool w) !! j); [eauto|].
    rewrite Hg. destruct (decide _) as [_|H]; [eauto|lia].
  - rewrite Hths. eauto.
Qed.

(** With the counter past 0, the newest worker is never launched. *)
Lemma start_skips_newest (n : Z) (w w' : World) :
  1 <= n -> 0 < generateId_ w -> ids_below_counter w ->
  start n w = Some (tt, w') ->
  generateId_ w <= generateId_ w' - 1 < generateId_ w'
  /\ launch_count (generateId_ w' - 1) (events_since w w') = 0%nat.
Proof.
  intros Hn Hg Hwf Hs.
  destruct (start_returns n w w' Hwf Hs) as (Hg' & _ & Hl & _).
  rewrite Hg'. split; [lia|].
  unfold launch_count. rewrite Hl. apply count_absent.
  rewrite elem_of_seqZ. lia.
Qed.

Lemma fresh_world_ids : ids_below_counter fresh_world.
Proof. intros k t H. simpl in H. by rewrite lookup_empty in H. Qed.

(** ** Each critical section as a function of the state it starts from *)

Lemma map_emplace_lookup (g : Z) (x : Thread) (m : gmap Z Thread) :
  map_emplace g x m !! g = Some (default x (m !! g)).
Proof.
  unfold map_emplace. destruct (m !! g) as [t|] eqn:Hg; simpl.
  - exact Hg.
  - apply lookup_insert_eq.
Qed.

Lemma submitTask_eq {R : Type} (Rtype_ctor : R) (c : Callable) (w : World) :
  submitTask Rtype_ctor c w =
    if notFull_pred (pool w) then
      if should_spawn (pool (enqueued_world c w)) then
        Some (Pending c,
              spawned_world
                (default {| threadId_ := generateId_ w |}
                   (threads_ (pool w) !! generateId_ w))
                (enqueued_world c w))
      else Some (Pending c, enqueued_world c w)
    else Some (Ready Rtype_ctor, rejected_world w).
Proof.
  unfold submitTask. unfold bind at 1. unfold get_pool at 1.
  destruct (notFull_pred (pool w)); simpl.
  - mstep.
    destruct (should_spawn _); simpl.
    + rewrite map_emplace_lookup. simpl.
      unfold spawned_world, enqueued_world. world_eq w.
    + unfold enqueued_world. world_eq w.
  - mstep. unfold rejected_world. world_eq w.
Qed.

Lemma loop_head_eq (i : nat) (tid : Z) (w : World) :
  loop_head i tid w =
    match taskQue_ (pool w) with
    | [] =>
        if isPoolRunning_ (pool w) then
          Some (tt, waiting_world i
                      (if decide (poolMode_ (pool w) = MODE_CACHED)
                       then WaitingTimed else WaitingUntimed) w)
        else Some (tt, exited_world i tid w)
    | t :: q => Some (tt, claimed_world i t q w)
    end.
Proof.
  destruct (taskQue_ (pool w)) as [|t q] eqn:Hq.
  - unfold loop_head. mstep. rewrite Hq. simpl.
    destruct (isPoolRunning_ (pool w)); simpl.
    + destruct (decide _); reflexivity.
    + unfold exited_world.
      destruct w as [g p os ck ev]; simpl.
      unfold with_os_threads, with_events. simpl.
      rewrite <- app_assoc. reflexivity.
  - rewrite (loop_head_nonempty i tid w t q Hq).
    apply claim_section_eq, Hq.
Qed.

Lemma after_wait_for_eq (i : nat) (th : OsThread) (st : cv_status) (w : World) :
  after_wait_for i th st w =
    match st with
    | timeout =>
        if should_reclaim (th_lastTime th) (clock w) (pool w)
        then Some (tt, reclaimed_world i (th_id th) w)
        else loop_head i (th_id th) w
    | no_timeout => loop_head i (th_id th) w
    end.
Proof.
  destruct st; [reflexivity|].
  unfold after_wait_for. mstep.
  destruct (should_reclaim _ _ _); [|reflexivity].
  destruct w as [g p os ck ev]; destruct p; reflexivity.
Qed.

Lemma run_task_eq (i : nat) (t : Task) (w : World) :
  run_task i t w = Some (tt, finished_world i t w).
Proof.
  unfold run_task. mstep.
  destruct w as [g p os ck ev]; destruct p; reflexivity.
Qed.

Lemma threadFunc_step_eq (i : nat) (st : cv_status) (w : World) :
  threadFunc_step i st w =
    match os_threads w !! i with
    | None => None
    | Some th =>
        match th_phase th with
        | AtEntry => Some (tt, entered_world i w)
        | AtLock =>
            loop_head i (th_id th)
              (with_events (fun l => l ++ [Cout MsgTryTask]) w)
        | WaitingTimed => after_wait_for i th st w
        | WaitingUntimed => loop_head i (th_id th) w
        | Executing t => Some (tt, finished_world i t w)
        | Terminated => None
        end
    end.
Proof.
  unfold threadFunc_step.
  destruct (os_threads w !! i) as [th|]; [|reflexivity].
  destruct (th_phase th); try reflexivity.
Qed.

(** ** The step relations cover every step *)

Lemma loop_head_outcome (i : nat) (tid : Z) (w w' : World) :
  loop_head i tid w = Some (tt, w') -> head_outcome i tid w w'.
Proof.
  rewrite loop_head_eq.
  destruct (taskQue_ (pool w)) as [|t q] eqn:Hq.
  - destruct (isPoolRunning_ (pool w)) eqn:Hr; intros [= <-].
    + apply ho_wait; try assumption. destruct (decide _); auto.
    + by apply ho_exit.
  - intros [= <-]. by apply ho_claim.
Qed.

Lemma exec_configures (a : Action) (w w' : World) :
  service_action a = false ->
  exec a w = Some (tt, w') -> configures w w'.
Proof.
  destruct a; try discriminate; intros _; simpl.
  - unfold setMode, checkPoolRunningState. mstep.
    destruct (isPoolRunning_ (pool w)) eqn:Hr; intros [= <-].
    + apply cf_unchanged.
    + by apply cf_setMode.
  - unfold setTaskQueMaxThreshHold, checkPoolRunningState. mstep.
    destruct (isPoolRunning_ (pool w)) eqn:Hr; intros [= <-].
    + apply cf_unchanged.
    + by apply cf_setTaskQueMax.
  - unfold setThreadSizeThreshHold, checkPoolRunningState. mstep.
    destruct (isPoolRunning_ (pool w)) eqn:Hr; [intros [= <-]; apply cf_unchanged|].
    destruct (decide _) as [Hc|Hc]; intros [= <-].
    + by apply cf_setThreadMax.
    + apply cf_diagnostic.
  - rewrite start_eq.
    destruct (deref_seq _ _ _) as [ths|] eqn:E; [|discriminate].
    intros [= <-]. by apply cf_start.
Qed.

Lemma exec_services (a : Action) (w w' : World) :
  service_action a = true ->
  exec a w = Some (tt, w') -> services w w'.
Proof.
  destruct a; try discriminate; intros _; simpl.
  - unfold bind. rewrite (submitTask_eq tt).
    destruct (notFull_pred (pool w)) eqn:Hnf.
    + destruct (should_spawn _) eqn:Hsp; intros [= <-].
      * by apply sv_spawn.
      * by apply sv_enqueue.
    + intros [= <-]. by apply sv_reject.
  - unfold destructor_begin. mstep. intros [= <-].
    replace (with_events _ (with_pool _ w))
      with (with_events (fun l => l ++ [NotifyAll notEmpty_])
              (with_pool (with_isPoolRunning false) w))
      by reflexivity.
    apply sv_destructor.
  - intros [= <-]. apply sv_tick.
  - rewrite threadFunc_step_eq.
    destruct (os_threads w !! i) as [th|] eqn:Hi; [|discriminate].
    destruct (th_phase th) eqn:Hph; try discriminate.
    + intros [= <-]. eapply sv_entry; eassumption.
    + intros H. apply loop_head_outcome in H.
      eapply sv_head; [exact Hi| | right; reflexivity | exact H].
      rewrite Hph. left; reflexivity.
    + rewrite after_wait_for_eq. destruct st.
      * intros H. apply loop_head_outcome in H.
        eapply sv_head; [exact Hi| | left; reflexivity | exact H].
        rewrite Hph. right; left; reflexivity.
      * destruct (should_reclaim _ _ _) eqn:Hrc.
        -- intros [= <-]. eapply sv_reclaim; eassumption.
        -- intros H. apply loop_head_outcome in H.
           eapply sv_head; [exact Hi| | left; reflexivity | exact H].
           rewrite Hph. right; left; reflexivity.
    + intros H. apply loop_head_outcome in H.
      eapply sv_head; [exact Hi| | left; reflexivity | exact H].
      rewrite Hph. right; right; reflexivity.
    + intros [= <-]. eapply sv_finish; eassumption.
Qed.

(** ** Traces of runs *)

Lemma after_nil (w : World) : after [] w = Some w.
Proof. reflexivity. Qed.

Lemma after_cons (a : Action) (rest : list Action) (w : World) :
  after (a :: rest) w =
    match exec a w with
    | Some (_, w1) => after rest w1
    | None => None
    end.
Proof.
  unfold after. simpl. unfold bind.
  destruct (exec a w) as [[[] w1]|]; reflexivity.
Qed.

Lemma after_cons_inv (a : Action) (rest : list Action) (w w' : World) :
  after (a :: rest) w = Some w' ->
  exists w1, exec a w = Some (tt, w1) /\ after rest w1 = Some w'.
Proof.
  rewrite after_cons.
  destruct (exec a w) as [[[] w1]|]; [|discriminate]. eauto.
Qed.

Lemma exec_step (a : Action) (w w' : World) :
  exec a w = Some (tt, w') -> configures w w' \/ services w w'.
Proof.
  intros H. destruct (service_action a) eqn:Ha.
  - right. eapply exec_services; eassumption.
  - left. eapply exec_configures; eassumption.
Qed.

Lemma enqueued_app (l1 l2 : list Event) :
  enqueued (l1 ++ l2) = enqueued l1 ++ enqueued l2.
Proof. apply omap_app. Qed.

Lemma dequeued_app (l1 l2 : list Event) :
  dequeued (l1 ++ l2) = dequeued l1 ++ dequeued l2.
Proof. apply omap_app. Qed.

Lemma launches_app (l1 l2 : list Event) :
  launches (l1 ++ l2) = launches l1 ++ launches l2.
Proof. apply omap_app. Qed.

Lemma invoked_app (l1 l2 : list Event) :
  invoked (l1 ++ l2) = invoked l1 ++ invoked l2.
Proof. apply omap_app. Qed.

Lemma queue_events_of_launches (ths : list Thread) :
  enqueued (map (fun t => Launch (threadId_ t)) ths) = []
  /\ dequeued (map (fun t => Launch (threadId_ t)) ths) = []
  /\ invoked (map (fun t => Launch (threadId_ t)) ths) = [].
Proof.
  induction ths as [|t ths IH]; simpl; [auto|exact IH].
Qed.

Lemma head_outcome_trace (i : nat) (tid : Z) (w w' : World) :
  head_outcome i tid w w' -> exists evs, step_trace w w' evs.
Proof.
  destruct 1 as [ph Hq Hr Hph | Hq Hr | t q Hq].
  - exists []. split; simpl; [by rewrite app_nil_r|by rewrite app_nil_r].
  - eexists. split; simpl; [reflexivity|]. by rewrite app_nil_r.
  - eexists. split; simpl; [reflexivity|].
    rewrite Hq. destruct (0 <? length q)%nat; simpl; by rewrite app_nil_r.
Qed.

Lemma configures_trace (w w' : World) :
  configures w w' -> exists evs, step_trace w w' evs.
Proof.
  destruct 1.
  - exists []. split; simpl; by rewrite app_nil_r.
  - exists []. split; simpl; by rewrite app_nil_r.
  - exists []. split; simpl; by rewrite app_nil_r.
  - exists []. split; simpl; by rewrite app_nil_r.
  - eexists. split; simpl; [reflexivity|]. by rewrite app_nil_r.
  - eexists. split; simpl; [reflexivity|].
    destruct (queue_events_of_launches ths) as (-> & -> & _).
    simpl. by rewrite app_nil_r.
Qed.

Lemma services_trace (w w' : World) :
  services w w' -> exists evs, step_trace w w' evs.
Proof.
  destruct 1 as [ | | | | | | | i th w1 w' Hi Hph Hw1 Hho | ].
  - eexists. split; simpl; [reflexivity|]. by rewrite app_nil_r.
  - eexists. split; simpl; reflexivity.
  - eexists. split; simpl; [rewrite <- app_assoc; reflexivity|]. reflexivity.
  - eexists. split; simpl; [reflexivity|]. by rewrite app_nil_r.
  - exists []. split; simpl; by rewrite app_nil_r.
  - exists []. split; simpl; by rewrite app_nil_r.
  - eexists. split; simpl; [reflexivity|]. by rewrite app_nil_r.
  - destruct (head_outcome_trace _ _ _ _ Hho) as [evs [He Hq]].
    destruct Hw1 as [->| ->].
    + exists evs. by split.
    + exists ([Cout MsgTryTask] ++ evs). split.
      * rewrite He. simpl. by rewrite <- app_assoc.
      * exact Hq.
  - eexists. split; simpl; [reflexivity|]. by rewrite app_nil_r.
Qed.

Lemma exec_trace (a : Action) (w w' : World) :
  exec a w = Some (tt, w') -> exists evs, step_trace w w' evs.
Proof.
  intros H. destruct (exec_step a w w' H).
  - by apply configures_trace.
  - by apply services_trace.
Qed.

(** In any run, what has been dequeued followed by what is still queued is
    what was queued at first followed by what has been enqueued. *)
Lemma run_fifo (acts : list Action) (w w' : World) :
  after acts w = Some w' -> exists evs, step_trace w w' evs.
Proof.
  revert w. induction acts as [|a rest IH]; intros w H.
  - rewrite after_nil in H. inversion H; subst.
    exists []. split; simpl; by rewrite app_nil_r.
  - apply after_cons_inv in H as (w1 & Ha & Hrest).
    destruct (exec_trace _ _ _ Ha) as [e1 [He1 Hq1]].
    destruct (IH _ Hrest) as [e2 [He2 Hq2]].
    exists (e1 ++ e2). split.
    + rewrite He2, He1. by rewrite app_assoc.
    + rewrite dequeued_app, enqueued_app.
      rewrite <- app_assoc, Hq2, !app_assoc. f_equal. exact Hq1.
Qed.

Lemma step_trace_since (w w' : World) (evs : list Event) :
  step_trace w w' evs -> events_since w w' = evs.
Proof. intros [He _]. by apply events_since_app. Qed.

(** ** Runs without live workers *)

Lemma terminated_cannot_move (w : World) (i : nat) (th : OsThread) :
  all_terminated w -> os_threads w !! i = Some th ->
  th_phase th = Terminated.
Proof.
  intros Hall Hi. unfold all_terminated in Hall.
  rewrite Forall_lookup in Hall. eapply Hall, Hi.
Qed.

(** Once every worker thread has returned, a step that launches no thread
    dequeues nothing and leaves every thread returned. *)
Lemma step_without_workers (a : Action) (w w' : World) :
  exec a w = Some (tt, w') ->
  all_terminated w ->
  launches (events_since w w') = [] ->
  all_terminated w' /\ dequeued (events_since w w') = [].
Proof.
  intros Hexec Hall.
  destruct (exec_step _ _ _ Hexec) as [Hc|Hs].
  - destruct Hc as [ | m Hr | n Hr | n Hr Hm | | n ths Hths ]; simpl.
    1-4: (intros _; split; [exact Hall|];
          unfold events_since; simpl; by rewrite drop_all).
    + intros _. split; [exact Hall|].
      unfold events_since; simpl. by rewrite drop_app_length.
    + unfold events_since; simpl. rewrite drop_app_length.
      rewrite launches_map_Launch. intros Hnil.
      destruct ths as [|t ths]; [|discriminate].
      split; [|reflexivity].
      unfold all_terminated. simpl. by rewrite app_nil_r.
  - destruct Hs as [ Hnf | c Hnf Hsp | c Hnf Hsp | | d | i th Hi Hph
                   | i th t Hi Hph | i th w1 w' Hi Hph Hw1 Hho
                   | i th Hi Hph Hrc ].
    + intros _. split; [exact Hall|].
      unfold events_since; simpl. by rewrite drop_app_length.
    + intros _. split; [exact Hall|].
      unfold events_since; simpl. by rewrite drop_app_length.
    + unfold events_since; simpl.
      rewrite <- app_assoc, drop_app_length. discriminate.
    + intros _. split; [exact Hall|].
      unfold events_since; simpl. by rewrite drop_app_length.
    + intros _. split; [exact Hall|].
      unfold events_since; simpl. by rewrite drop_all.
    + pose proof (terminated_cannot_move _ _ _ Hall Hi). congruence.
    + pose proof (terminated_cannot_move _ _ _ Hall Hi). congruence.
    + pose proof (terminated_cannot_move _ _ _ Hall Hi) as Ht.
      destruct Hph as [H|[H|H]]; congruence.
    + pose proof (terminated_cannot_move _ _ _ Hall Hi). congruence.
Qed.

Lemma events_since_trans (w w1 w' : World) (e1 e2 : list Event) :
  events w1 = events w ++ e1 -> events w' = events w1 ++ e2 ->
  events_since w w' = events_since w w1 ++ events_since w1 w'.
Proof.
  intros H1 H2.
  rewrite (events_since_app w w1 e1 H1), (events_since_app w1 w' e2 H2).
  apply events_since_app. rewrite H2, H1. by rewrite app_assoc.
Qed.

Lemma run_without_workers (acts : list Action) (w w' : World) :
  after acts w = Some w' ->
  all_terminated w ->
  launches (events_since w w') = [] ->
  dequeued (events_since w w') = [].
Proof.
  revert w. induction acts as [|a rest IH]; intros w H Hall Hno.
  - rewrite after_nil in H. inversion H; subst.
    unfold events_since. by rewrite drop_all.
  - apply after_cons_inv in H as (w1 & Ha & Hrest).
    destruct (exec_trace _ _ _ Ha) as [e1 [He1 _]].
    destruct (run_fifo _ _ _ Hrest) as [e2 [He2 _]].
    rewrite (events_since_trans w w1 w' e1 e2 He1 He2) in Hno |- *.
    rewrite launches_app in Hno. apply app_eq_nil in Hno as [Hno1 Hno2].
    destruct (step_without_workers _ _ _ Ha Hall Hno1) as [Hall1 Hd1].
    rewrite dequeued_app, Hd1. simpl.
    by apply IH.
Qed.

(** ** The reclamation test *)

Lemma should_reclaim_due (lastTime now : Z) (p : ThreadPool) :
  should_reclaim lastTime now p = true <-> reclaim_due lastTime now p.
Proof.
  unfold should_reclaim, reclaim_due, idle_seconds,
         THREAD_MAX_IDLE_TIME, ticks_per_second.
  rewrite andb_true_iff, Z.leb_le, Z.ltb_lt.
  set (d := now - lastTime).
  pose proof (Z.quot_rem' d 1000000000) as Hqr.
  destruct (Z_le_gt_dec 0 d) as [Hd|Hd].
  - pose proof (Z.rem_bound_pos d 1000000000 Hd ltac:(lia)). lia.
  - pose proof (Z.rem_bound_pos_neg d 1000000000 ltac:(lia) ltac:(lia)). lia.
Qed.

(** ** Counting threads by phase *)

Section Counting.

Variable f : Phase -> bool.

Lemma count_phase_app (l1 l2 : list OsThread) :
  count_phase f (l1 ++ l2) = (count_phase f l1 + count_phase f l2)%nat.
Proof.
  induction l1 as [|x l1 IH]; simpl; [reflexivity|]. rewrite IH. lia.
Qed.

Lemma count_phase_alter_nat (g : OsThread -> OsThread)
    (i : nat) (l : list OsThread) (x : OsThread) :
  l !! i = Some x ->
  (count_phase f (alter g i l) + (if f (th_phase x) then 1 else 0)
   = count_phase f l + (if f (th_phase (g x)) then 1 else 0))%nat.
Proof.
  revert i. induction l as [|y l IH]; intros i Hi; [discriminate|].
  destruct i as [|i]; simpl in *.
  - inversion Hi; subst.
    destruct (f (th_phase x)), (f (th_phase (g x))); simpl; lia.
  - specialize (IH i Hi).
    change (alter g i l) with (list_alter g i l) in IH.
    destruct (f (th_phase y)), (f (th_phase x)), (f (th_phase (g x)));
      simpl in *; lia.
Qed.

Lemma count_phase_alter (g : OsThread -> OsThread)
    (i : nat) (l : list OsThread) (x : OsThread) :
  l !! i = Some x ->
  Z.of_nat (count_phase f (alter g i l))
  = Z.of_nat (count_phase f l) - indicator (f (th_phase x))
    + indicator (f (th_phase (g x))).
Proof.
  intros Hi. pose proof (count_phase_alter_nat g i l x Hi) as H.
  unfold indicator.
  destruct (f (th_phase x)), (f (th_phase (g x))); simpl in *; lia.
Qed.

Lemma count_phase_new_threads (ths : list Thread) :
  count_phase f (map new_thread ths)
  = if f AtEntry then length ths else 0%nat.
Proof.
  induction ths as [|t ths IH]; simpl.
  - by destruct (f AtEntry).
  - rewrite IH. by destruct (f AtEntry).
Qed.

End Counting.

Lemma count_executing_le_alive (l : list OsThread) :
  (count_phase is_executing l <= count_phase is_alive l)%nat.
Proof.
  induction l as [|x l IH]; simpl; [lia|].
  destruct (th_phase x); simpl; lia.
Qed.

Lemma count_idle_slot (l : list OsThread) (i : nat) (x : OsThread) :
  l !! i = Some x ->
  is_executing (th_phase x) = false -> is_alive (th_phase x) = true ->
  (count_phase is_executing l + 1 <= count_phase is_alive l)%nat.
Proof.
  revert i. induction l as [|y l IH]; intros i Hi He Ha; [discriminate|].
  destruct i as [|i]; simpl in *.
  - inversion Hi; subst. rewrite He, Ha.
    pose proof (count_executing_le_alive l). lia.
  - specialize (IH i Hi He Ha). destruct (th_phase y); simpl; lia.
Qed.

Lemma count_executing_slot (l : list OsThread) (i : nat) (x : OsThread) :
  l !! i = Some x -> is_executing (th_phase x) = true ->
  (1 <= count_phase is_executing l)%nat.
Proof.
  revert i. induction l as [|y l IH]; intros i Hi He; [discriminate|].
  destruct i as [|i]; simpl in *.
  - inversion Hi; subst. rewrite He. lia.
  - specialize (IH i Hi He). lia.
Qed.

(** ** The serving invariant is preserved *)

Lemma serving_inv_events (f : list Event -> list Event) (w : World) :
  serving_inv w -> serving_inv (with_events f w).
Proof. intros []. by constructor. Qed.

Lemma serving_inv_clock (f : Z -> Z) (w : World) :
  serving_inv w -> serving_inv (with_clock f w).
Proof. intros []. by constructor. Qed.

Lemma serving_inv_idle_bounds (w : World) :
  serving_inv w ->
  0 <= idleThreadSize_ (pool w) <= curThreadSize_ (pool w).
Proof.
  intros [].
  pose proof (count_executing_le_alive (os_threads w)). lia.
Qed.

Lemma service_head_inv (i : nat) (th : OsThread) (w w' : World) :
  os_threads w !! i = Some th -> at_head (th_phase th) ->
  head_outcome i (th_id th) w w' ->
  serving_inv w -> serving_inv w'.
Proof.
  intros Hi Hph Hho Hinv.
  assert (Hne : is_executing (th_phase th) = false).
  { destruct Hph as [->|[->| ->]]; reflexivity. }
  assert (Hal : is_alive (th_phase th) = true).
  { destruct Hph as [->|[->| ->]]; reflexivity. }
  pose proof (count_idle_slot _ _ _ Hi Hne Hal) as Hslot.
  pose proof (serving_inv_idle_bounds _ Hinv) as Hidle.
  destruct Hinv as [Htc Hqm Hqb Hex Hav Hth Hcm Hca].
  destruct Hho as [ph Hq Hr Hw | Hq Hr | t q Hq].
  - constructor; simpl; try assumption.
    + rewrite (count_phase_alter _ _ _ _ _ Hi). simpl. rewrite Hne.
      destruct Hw as [->| ->]; simpl; lia.
    + rewrite (count_phase_alter _ _ _ _ _ Hi). simpl. rewrite Hal.
      destruct Hw as [->| ->]; simpl; lia.
  - constructor; simpl; try assumption.
    + rewrite (count_phase_alter _ _ _ _ _ Hi). simpl. rewrite Hne.
      simpl. lia.
    + rewrite (count_phase_alter _ _ _ _ _ Hi). simpl. rewrite Hal.
      simpl. lia.
  - rewrite Hq in *. simpl in Htc, Hqb.
    assert (Hdi : Int.atomic_dec (idleThreadSize_ (pool w))
                  = idleThreadSize_ (pool w) - 1).
    { apply IntFacts.atomic_dec_pred. unfold Int.int_min, Int.int_max in *. lia. }
    assert (Hdt : Int.atomic_dec (taskSize_ (pool w))
                  = taskSize_ (pool w) - 1).
    { apply IntFacts.atomic_dec_pred. unfold Int.int_min, Int.int_max in *. lia. }
    constructor; simpl; rewrite ?Hq; simpl; rewrite ?Hdi, ?Hdt; try assumption.
    + rewrite drop_0. lia.
    + rewrite drop_0. lia.
    + rewrite (count_phase_alter _ _ _ _ _ Hi). simpl. rewrite Hne.
      simpl. lia.
    + rewrite (count_phase_alter _ _ _ _ _ Hi). simpl. rewrite Hal.
      simpl. lia.
Qed.

Lemma notFull_room (w : World) :
  serving_inv w -> notFull_pred (pool w) = true ->
  Z.of_nat (length (taskQue_ (pool w))) < taskQueMaxThreshHold_ (pool w).
Proof.
  intros [] Hnf. unfold notFull_pred in Hnf. apply Z.ltb_lt in Hnf.
  rewrite IntFacts.to_size_t_nonneg in Hnf by assumption. exact Hnf.
Qed.

Lemma enqueued_world_inv (c : Callable) (w : World) :
  serving_inv w -> notFull_pred (pool w) = true ->
  serving_inv (enqueued_world c w).
Proof.
  intros Hinv Hnf. pose proof (notFull_room _ Hinv Hnf) as Hroom.
  destruct Hinv as [Htc Hqm Hqb Hex Hav Hth Hcm Hca].
  assert (Hinc : Int.atomic_inc (taskSize_ (pool w)) = taskSize_ (pool w) + 1).
  { apply IntFacts.atomic_inc_succ. unfold Int.int_min, Int.int_max in *. lia. }
  constructor; simpl; rewrite ?Hinc, ?length_app; simpl; try assumption; lia.
Qed.

Lemma services_inv (w w' : World) :
  services w w' -> serving_inv w -> serving_inv w'.
Proof.
  intros Hs Hinv.
  destruct Hs as [ Hnf | c Hnf Hsp | c Hnf Hsp | | d | i th Hi Hph
                 | i th t Hi Hph | i th w1 w' Hi Hph Hw1 Hho
                 | i th Hi Hph Hrc ].
  - by apply serving_inv_events.
  - by apply enqueued_world_inv.
  - pose proof (enqueued_world_inv c w Hinv Hnf) as Hinv1.
    pose proof (serving_inv_idle_bounds _ Hinv1) as Hidle.
    unfold should_spawn in Hsp.
    apply andb_true_iff in Hsp as [Hsp Hcur].
    apply andb_true_iff in Hsp as [Hmode Hlt].
    apply bool_decide_eq_true_1 in Hmode.
    apply Z.ltb_lt in Hcur. apply Z.ltb_lt in Hlt.
    destruct Hinv1 as [Htc Hqm Hqb Hex Hav Hth Hcm Hca].
    set (w1 := enqueued_world c w) in *.
    assert (Hic : Int.atomic_inc (curThreadSize_ (pool w1))
                  = curThreadSize_ (pool w1) + 1).
    { apply IntFacts.atomic_inc_succ. unfold Int.int_min, Int.int_max in *. lia. }
    assert (Hii : Int.atomic_inc (idleThreadSize_ (pool w1))
                  = idleThreadSize_ (pool w1) + 1).
    { apply IntFacts.atomic_inc_succ. unfold Int.int_min, Int.int_max in *. lia. }
    subst w1. simpl in *.
    constructor; simpl;
      rewrite ?Hic, ?Hii, ?count_phase_app; simpl; try assumption; try lia.
  - destruct Hinv. by constructor.
  - by apply serving_inv_clock.
  - destruct Hinv as [Htc Hqm Hqb Hex Hav Hth Hcm Hca].
    assert (Hi' : alter (with_lastTime (clock w)) i (os_threads w) !! i
                  = Some (with_lastTime (clock w) th)).
    { by rewrite list_lookup_alter_eq, Hi. }
    constructor; simpl; try assumption.
    + rewrite (count_phase_alter _ _ _ _ _ Hi'), (count_phase_alter _ _ _ _ _ Hi).
      simpl. rewrite Hph. simpl. lia.
    + rewrite (count_phase_alter _ _ _ _ _ Hi'), (count_phase_alter _ _ _ _ _ Hi).
      simpl. rewrite Hph. simpl. lia.
  - pose proof (serving_inv_idle_bounds _ Hinv) as Hidle.
    assert (He : is_executing (th_phase th) = true) by (rewrite Hph; reflexivity).
    pose proof (count_executing_slot _ _ _ Hi He) as Hpos.
    destruct Hinv as [Htc Hqm Hqb Hex Hav Hth Hcm Hca].
    assert (Hi' : alter (with_lastTime (clock w)) i (os_threads w) !! i
                  = Some (with_lastTime (clock w) th)).
    { by rewrite list_lookup_alter_eq, Hi. }
    assert (Hii : Int.atomic_inc (idleThreadSize_ (pool w))
                  = idleThreadSize_ (pool w) + 1).
    { apply IntFacts.atomic_inc_succ. unfold Int.int_min, Int.int_max in *. lia. }
    constructor; simpl; rewrite ?Hii; try assumption.
    + rewrite (count_phase_alter _ _ _ _ _ Hi'), (count_phase_alter _ _ _ _ _ Hi).
      simpl. rewrite Hph. simpl. lia.
    + rewrite (count_phase_alter _ _ _ _ _ Hi'), (count_phase_alter _ _ _ _ _ Hi).
      simpl. rewrite Hph. simpl. lia.
  - destruct Hw1 as [->| ->].
    + eapply service_head_inv; eassumption.
    + refine (service_head_inv i th _ w' _ Hph Hho _);
        [exact Hi | by apply serving_inv_events].
  - assert (Hne : is_executing (th_phase th) = false) by (rewrite Hph; reflexivity).
    assert (Hal : is_alive (th_phase th) = true) by (rewrite Hph; reflexivity).
    pose proof (count_idle_slot _ _ _ Hi Hne Hal) as Hslot.
    pose proof (serving_inv_idle_bounds _ Hinv) as Hidle.
    destruct Hinv as [Htc Hqm Hqb Hex Hav Hth Hcm Hca].
    assert (Hdi : Int.atomic_dec (idleThreadSize_ (pool w))
                  = idleThreadSize_ (pool w) - 1).
    { apply IntFacts.atomic_dec_pred. unfold Int.int_min, Int.int_max in *. lia. }
    assert (Hdc : Int.atomic_dec (curThreadSize_ (pool w))
                  = curThreadSize_ (pool w) - 1).
    { apply IntFacts.atomic_dec_pred. unfold Int.int_min, Int.int_max in *. lia. }
    constructor; simpl; rewrite ?Hdi, ?Hdc; try assumption; try lia.
    + rewrite (count_phase_alter _ _ _ _ _ Hi). simpl. rewrite Hph. simpl. lia.
    + rewrite (count_phase_alter _ _ _ _ _ Hi). simpl. rewrite Hph. simpl. lia.
    + intros Hm. specialize (Hca Hm). lia.
Qed.

Lemma configured_has_shape (w : World) : configured w -> configured_shape w.
Proof.
  induction 1 as [ | w m w' _ IH Hset | w n w' _ IH Hn Hset
                 | w n w' _ IH Hn Hset ].
  - constructor; try reflexivity; simpl;
      unfold TASK_MAX_THRESHHOLD, THREAD_MAX_THRESHHOLD, Int.int_max; lia.
  - destruct IH. unfold setMode, checkPoolRunningState in Hset.
    revert Hset. mstep. rewrite cs_running0. intros [= <-].
    by constructor.
  - destruct IH. unfold setTaskQueMaxThreshHold, checkPoolRunningState in Hset.
    revert Hset. mstep. rewrite cs_running0. intros [= <-].
    by constructor.
  - destruct IH. unfold setThreadSizeThreshHold, checkPoolRunningState in Hset.
    revert Hset. mstep. rewrite cs_running0.
    destruct (decide _); intros [= <-]; by constructor.
Qed.

Lemma configured_inv (w : World) : configured w -> serving_inv w.
Proof.
  intros Hc. destruct (configured_has_shape w Hc).
  constructor; rewrite ?cs_os0, ?cs_cur0, ?cs_idle0, ?cs_queue0, ?cs_size0;
    simpl; try lia.
Qed.

Lemma start_inv (n : Z) (w w' : World) :
  configured w ->
  0 <= n <= Int.int_max ->
  (poolMode_ (pool w) = MODE_CACHED -> n <= threadSizeThreshHold_ (pool w)) ->
  start n w = Some (tt, w') ->
  serving_inv w'.
Proof.
  intros Hc Hn Hmax. destruct (configured_has_shape w Hc).
  rewrite start_eq.
  destruct (deref_seq _ _ _) as [ths|] eqn:E; [|discriminate].
  intros [= <-]. apply deref_seq_length in E.
  constructor; simpl;
    rewrite ?cs_os0, ?cs_queue0, ?cs_size0; simpl;
    rewrite ?count_phase_new_threads; simpl;
    rewrite ?E; try lia; try assumption.
Qed.

Lemma setter_running_noop (a : Action) (w w' : World) :
  isPoolRunning_ (pool w) = true -> is_setter a = true ->
  exec a w = Some (tt, w') -> w' = w.
Proof.
  intros Hr Ha. destruct a; try discriminate; simpl;
    unfold setMode, setTaskQueMaxThreshHold, setThreadSizeThreshHold,
           checkPoolRunningState; mstep; rewrite Hr; by intros [= <-].
Qed.

Lemma reachable_inv (w : World) : reachable w -> serving_inv w.
Proof.
  induction 1 as [ w Hc | w n w' Hc Hn Hmax Hs | w a w' _ IH Ha Hexec
                 | w a w' _ IH Hr Ha Hexec ].
  - by apply configured_inv.
  - eapply start_inv; eassumption.
  - eapply services_inv; [|exact IH]. eapply exec_services; eassumption.
  - by rewrite (setter_running_noop a w w' Hr Ha Hexec).
Qed.

(** ** A callable nobody holds is not invoked *)

Lemma not_held_events (c : Callable) (f : list Event -> list Event) (w : World) :
  not_held c w -> not_held c (with_events f w).
Proof. intros H. exact H. Qed.

Lemma head_outcome_not_held (c : Callable) (i : nat) (tid : Z) (w w' : World) :
  head_outcome i tid w w' -> not_held c w ->
  not_held c w' /\ UserBody c ∉ invoked (events_since w w').
Proof.
  intros Hho [Hq Hos].
  destruct Hho as [ph Hqe Hr Hph | Hqe Hr | t q Hqe].
  - split; [split; [exact Hq|]|].
    + simpl. apply Forall_alter; [exact Hos|].
      intros x _ _. simpl. destruct Hph as [->| ->]; discriminate.
    + unfold events_since. simpl. rewrite drop_all. apply not_elem_of_nil.
  - split; [split; [exact Hq|]|].
    + simpl. apply Forall_alter; [exact Hos|]. intros x _ _. discriminate.
    + unfold events_since. simpl. rewrite drop_app_length. apply not_elem_of_nil.
  - rewrite Hqe in Hq. apply not_elem_of_cons in Hq as [Hne Hq].
    split; [split|].
    + simpl. rewrite Hqe. exact Hq.
    + simpl. apply Forall_alter; [exact Hos|]. intros x _ _. simpl. congruence.
    + unfold events_since. simpl. rewrite drop_app_length.
      destruct (0 <? length q)%nat; apply not_elem_of_nil.
Qed.

Lemma configures_not_held (c : Callable) (w w' : World) :
  configures w w' -> not_held c w ->
  not_held c w' /\ UserBody c ∉ invoked (events_since w w').
Proof.
  intros Hc [Hq Hos].
  destruct Hc as [ | m Hr | n Hr | n Hr Hm | | n ths Hths ].
  1-4: (split; [by split|];
        unfold events_since; simpl; rewrite drop_all; apply not_elem_of_nil).
  - split; [by split|].
    unfold events_since; simpl. rewrite drop_app_length. apply not_elem_of_nil.
  - split; [split; [exact Hq|]|].
    + simpl. apply Forall_app. split; [exact Hos|].
      apply Forall_forall. intros x Hx.
      apply list_elem_of_fmap in Hx as (t & -> & _). discriminate.
    + unfold events_since; simpl. rewrite drop_app_length.
      destruct (queue_events_of_launches ths) as (_ & _ & ->).
      apply not_elem_of_nil.
Qed.

Lemma services_not_held (c : Callable) (w w' : World) :
  services w w' -> not_held c w ->
  c ∉ enqueued (events_since w w') ->
  not_held c w' /\ UserBody c ∉ invoked (events_since w w').
Proof.
  intros Hs Hnh.
  destruct Hs as [ Hnf | c' Hnf Hsp | c' Hnf Hsp | | d | i th Hi Hph
                 | i th t Hi Hph | i th w1 w' Hi Hph Hw1 Hho
                 | i th Hi Hph Hrc ].
  - intros _. split; [exact Hnh|].
    unfold events_since; simpl. rewrite drop_app_length. simpl.
    intros Hin. apply list_elem_of_singleton in Hin. discriminate.
  - unfold events_since; simpl. rewrite drop_app_length. simpl.
    intros Hne. apply not_elem_of_cons in Hne as [Hne _].
    destruct Hnh as [Hq Hos]. split; [split; [|exact Hos]|apply not_elem_of_nil].
    simpl. rewrite not_elem_of_app. split; [exact Hq|].
    intros Hin. apply list_elem_of_singleton in Hin. congruence.
  - unfold events_since; simpl. rewrite <- app_assoc, drop_app_length. simpl.
    intros Hne. apply not_elem_of_cons in Hne as [Hne _].
    destruct Hnh as [Hq Hos]. split; [split|apply not_elem_of_nil].
    + simpl. rewrite not_elem_of_app. split; [exact Hq|].
      intros Hin. apply list_elem_of_singleton in Hin. congruence.
    + simpl. apply Forall_app. split; [exact Hos|].
      apply Forall_singleton. discriminate.
  - intros _. split; [exact Hnh|].
    unfold events_since; simpl. rewrite drop_app_length. apply not_elem_of_nil.
  - intros _. split; [exact Hnh|].
    unfold events_since; simpl. rewrite drop_all. apply not_elem_of_nil.
  - intros _. destruct Hnh as [Hq Hos]. split; [split; [exact Hq|]|].
    + simpl. apply Forall_alter.
      * apply Forall_alter; [exact Hos|]. intros x _ Hx. exact Hx.
      * intros x _ _. discriminate.
    + unfold events_since; simpl. rewrite drop_all. apply not_elem_of_nil.
  - intros _. destruct Hnh as [Hq Hos].
    assert (Hne : t <> c).
    { rewrite Forall_lookup in Hos. specialize (Hos _ _ Hi).
      rewrite Hph in Hos. congruence. }
    split; [split; [exact Hq|]|].
    + simpl. apply Forall_alter.
      * apply Forall_alter; [exact Hos|]. intros x _ Hx. exact Hx.
      * intros x _ _. discriminate.
    + unfold events_since; simpl. rewrite drop_app_length. simpl.
      intros Hin. apply list_elem_of_singleton in Hin. congruence.
  - intros _.
    destruct Hw1 as [->| ->].
    + eapply head_outcome_not_held; eassumption.
    + destruct (head_outcome_not_held c _ _ _ _ Hho Hnh) as [Hnh' Hinv].
      split; [exact Hnh'|].
      destruct (head_outcome_trace _ _ _ _ Hho) as [evs [He _]].
      rewrite (events_since_app _ _ evs He) in Hinv.
      rewrite (events_since_app w w' ([Cout MsgTryTask] ++ evs)).
      * exact Hinv.
      * rewrite He. simpl. by rewrite <- app_assoc.
  - intros _. destruct Hnh as [Hq Hos]. split; [split; [exact Hq|]|].
    + simpl. apply Forall_alter; [exact Hos|]. intros x _ _. discriminate.
    + unfold events_since; simpl. rewrite drop_app_length. apply not_elem_of_nil.
Qed.

Lemma run_not_held (c : Callable) (acts : list Action) (w w' : World) :
  after acts w = Some w' -> not_held c w ->
  c ∉ enqueued (events_since w w') ->
  UserBody c ∉ invoked (events_since w w').
Proof.
  revert w. induction acts as [|a rest IH]; intros w H Hnh Hne.
  - rewrite after_nil in H. inversion H; subst.
    unfold events_since. rewrite drop_all. apply not_elem_of_nil.
  - apply after_cons_inv in H as (w1 & Ha & Hrest).
    destruct (exec_trace _ _ _ Ha) as [e1 [He1 _]].
    destruct (run_fifo _ _ _ Hrest) as [e2 [He2 _]].
    rewrite (events_since_trans w w1 w' e1 e2 He1 He2) in Hne |- *.
    rewrite enqueued_app, not_elem_of_app in Hne. destruct Hne as [Hne1 Hne2].
    rewrite invoked_app, not_elem_of_app.
    assert (Hstep : not_held c w1 /\ UserBody c ∉ invoked (events_since w w1)).
    { destruct (exec_step _ _ _ Ha) as [Hc|Hs].
      - by apply configures_not_held.
      - by apply services_not_held. }
    destruct Hstep as [Hnh1 Hinv1]. split; [exact Hinv1|].
    by apply IH.
Qed.

Lemma reachable_run (acts : list Action) (w w' : World) :
  reachable w ->
  forallb service_action acts = true ->
  after acts w = Some w' ->
  reachable w'.
Proof.
  revert w. induction acts as [|a rest IH]; intros w Hr Hall Hrun.
  - rewrite after_nil in Hrun. by inversion Hrun; subst.
  - simpl in Hall. apply andb_true_iff in Hall as [Ha Hall].
    apply after_cons_inv in Hrun as (w1 & Hexec & Hrest).
    eapply IH; [|exact Hall|exact Hrest].
    eapply reachable_service; eassumption.
Qed.

(** ** Worker ids stay below the counter *)

Lemma ids_below_counter_delete (tid : Z) (w : World)
    (f : World -> World) :
  ids_below_counter w ->
  threads_ (pool (f w)) = delete tid (threads_ (pool w)) ->
  generateId_ (f w) = generateId_ w ->
  ids_below_counter (f w).
Proof.
  intros Hwf Ht Hg k t. rewrite Ht, Hg. intros Hk.
  apply lookup_delete_Some in Hk as [_ Hk]. by apply Hwf.
Qed.

Lemma head_outcome_ids (i : nat) (tid : Z) (w w' : World) :
  head_outcome i tid w w' ->
  ids_below_counter w ->
  ids_below_counter w' /\ generateId_ w' = generateId_ w.
Proof.
  intros Hho Hwf. destruct Hho as [ph Hq Hr Hph | Hq Hr | t q Hq].
  - split; [exact Hwf | reflexivity].
  - split; [|reflexivity].
    apply (ids_below_counter_delete tid w (exited_world i tid) Hwf);
      reflexivity.
  - split; [exact Hwf | reflexivity].
Qed.

Lemma configures_ids (w w' : World) :
  configures w w' ->
  0 <= generateId_ w -> ids_below_counter w ->
  0 <= generateId_ w' /\ ids_below_counter w'.
Proof.
  intros Hc Hg Hwf.
  destruct Hc as [ | m Hr | n Hr | n Hr Hm | | n ths Hths ];
    try (split; [exact Hg | exact Hwf]).
  split; [cbn [generateId_]; lia|].
  intros k t. cbn [pool generateId_]. unfold started_pool.
  cbn [with_threads threads_]. rewrite lookup_emplace_seq.
  change (threads_ (with_idleThreadSize _ _)) with (threads_ (pool w)).
  destruct (threads_ (pool w) !! k) as [t'|] eqn:Hk.
  - intros [= <-]. destruct (Hwf _ _ Hk) as [Hid Hrange]. split; [exact Hid|lia].
  - destruct (decide _) as [Hin|_]; [|discriminate].
    intros [= <-]. cbn [threadId_]. split; [reflexivity|lia].
Qed.

Lemma services_ids (w w' : World) :
  services w w' ->
  0 <= generateId_ w -> ids_below_counter w ->
  0 <= generateId_ w' /\ ids_below_counter w'.
Proof.
  intros Hs Hg Hwf.
  destruct Hs as [ Hnf | c Hnf Hsp | c Hnf Hsp | | d | i th Hi Hph
                 | i th t Hi Hph | i th w1 w' Hi Hph Hw1 Hho
                 | i th Hi Hph Hrc ];
    try (split; [exact Hg | exact Hwf]).
  - split; [cbn [generateId_ spawned_world enqueued_world with_events
                 with_pool]; lia|].
    intros k t. unfold spawned_world.
    cbn [pool generateId_ with_idleThreadSize with_curThreadSize
         with_threads threads_].
    change (threads_ (pool (enqueued_world c w))) with (threads_ (pool w)).
    change (generateId_ (enqueued_world c w)) with (generateId_ w).
    unfold map_emplace.
    destruct (threads_ (pool w) !! generateId_ w) as [t0|] eqn:Hfresh.
    + intros Hk. destruct (Hwf _ _ Hk) as [Hid Hrange]. split; [exact Hid|lia].
    + destruct (decide (generateId_ w = k)) as [<-|Hne].
      * rewrite lookup_insert_eq. intros [= <-]. split; [reflexivity|lia].
      * rewrite lookup_insert_ne by exact Hne. intros Hk.
        destruct (Hwf _ _ Hk) as [Hid Hrange]. split; [exact Hid|lia].
  - assert (Hwf1 : ids_below_counter w1 /\ generateId_ w1 = generateId_ w).
    { destruct Hw1 as [->| ->]; split; try exact Hwf; reflexivity. }
    destruct Hwf1 as [Hwf1 Hg1].
    destruct (head_outcome_ids _ _ _ _ Hho Hwf1) as [Hwf' Hg'].
    split; [lia | exact Hwf'].
  - split; [exact Hg|].
    apply (ids_below_counter_delete (th_id th) w
             (reclaimed_world i (th_id th)) Hwf); reflexivity.
Qed.

(** Every world reached from [fresh_world] keeps its live workers under
    their own ids, below a non-negative counter. *)
Lemma run_ids_below_counter (acts : list Action) (w w' : World) :
  after acts w = Some w' ->
  0 <= generateId_ w -> ids_below_counter w ->
  0 <= generateId_ w' /\ ids_below_counter w'.
Proof.
  revert w. induction acts as [|a rest IH]; intros w Hrun Hg Hwf.
  - rewrite after_nil in Hrun. inversion Hrun; subst. by split.
  - apply after_cons_inv in Hrun as (w1 & Hexec & Hrest).
    assert (H1 : 0 <= generateId_ w1 /\ ids_below_counter w1).
    { destruct (exec_step _ _ _ Hexec) as [Hc|Hs].
      - by apply (configures_ids w w1).
      - by apply (services_ids w w1). }
    destruct H1 as [Hg1 Hwf1]. by apply (IH w1).
Qed.

(** ** Integer fields stay in range *)

Lemma head_outcome_int_fields (i : nat) (tid : Z) (w w' : World) :
  head_outcome i tid w w' ->
  int_fields_ok (pool w) -> int_fields_ok (pool w').
Proof.
  intros Hho [H1 H2 H3 H4 H5 H6].
  destruct Hho as [ph Hq Hr Hph | Hq Hr | t q Hq];
    constructor; simpl; auto with int_range.
Qed.

Lemma services_int_fields (w w' : World) :
  services w w' -> int_fields_ok (pool w) -> int_fields_ok (pool w').
Proof.
  intros Hs Hok.
  destruct Hs as [ Hnf | c Hnf Hsp | c Hnf Hsp | | d | i th Hi Hph
                 | i th t Hi Hph | i th w1 w' Hi Hph Hw1 Hho
                 | i th Hi Hph Hrc ];
    try exact Hok.
  - destruct Hok as [H1 H2 H3 H4 H5 H6].
    constructor; simpl; auto with int_range.
  - destruct Hok as [H1 H2 H3 H4 H5 H6].
    constructor; simpl; auto with int_range.
  - destruct Hok as [H1 H2 H3 H4 H5 H6]. by constructor.
  - destruct Hok as [H1 H2 H3 H4 H5 H6].
    constructor; simpl; auto with int_range.
  - eapply head_outcome_int_fields; [exact Hho|].
    destruct Hw1 as [->| ->]; exact Hok.
  - destruct Hok as [H1 H2 H3 H4 H5 H6].
    constructor; simpl; auto with int_range.
Qed.

(** Every [int] field keeps a value of its type through any step whose
    [int] arguments are values of that type. *)
Lemma exec_int_fields (a : Action) (w w' : World) :
  action_args_ok a ->
  exec a w = Some (tt, w') ->
  int_fields_ok (pool w) -> int_fields_ok (pool w').
Proof.
  intros Harg Hexec Hok.
  destruct (service_action a) eqn:Ha.
  - eapply services_int_fields; [|exact Hok]. eapply exec_services; eassumption.
  - destruct a; try discriminate; simpl in Harg, Hexec.
    + revert Hexec. unfold setMode, checkPoolRunningState. mstep.
      destruct Hok. destruct (isPoolRunning_ (pool w)); intros [= <-];
        by constructor.
    + revert Hexec. unfold setTaskQueMaxThreshHold, checkPoolRunningState. mstep.
      destruct Hok. destruct (isPoolRunning_ (pool w)); intros [= <-];
        by constructor.
    + revert Hexec. unfold setThreadSizeThreshHold, checkPoolRunningState. mstep.
      destruct Hok. destruct (isPoolRunning_ (pool w));
        [|destruct (decide _)]; intros [= <-]; by constructor.
    + revert Hexec. rewrite start_eq.
      destruct (deref_seq _ _ _); [|discriminate]. intros [= <-].
      destruct Hok. by constructor.
Qed.

Lemma idle_sixty_fields_ok : int_fields_ok (pool idle_sixty_world).
Proof. constructor; vm_compute; split; discriminate. Qed.

Lemma cached_busy_fields_ok : int_fields_ok (pool cached_busy_world).
Proof. constructor; vm_compute; split; discriminate. Qed.

(** ** The example program *)

(** Under that schedule the five tasks are claimed in submission order,
    finish in another order, every worker exits after the destructor has
    begun, and the last of them notifies [exitCond_] with the predicate
    of the destructor's wait true. *)
Example main_run_outcome :
  exists w,
    after main_run fresh_world = Some w
    /\ dequeued (events w) = [1; 2; 3; 4; 5]%nat
    /\ invoked (events w)
       = [UserBody 3; UserBody 2; UserBody 1; UserBody 4; UserBody 5]%nat
    /\ map th_phase (os_threads w) = [Terminated; Terminated; Terminated]
    /\ last (events w) = Some (NotifyAll exitCond_)
    /\ exitCond_pred (pool w) = true.
Proof.
  eexists. split; [vm_compute; reflexivity|].
  repeat split; vm_compute; reflexivity.
Qed.

(** ** A worker at the loop head with a task queued *)

Lemma user_invoked_app (l1 l2 : list Event) :
  user_invoked (l1 ++ l2) = user_invoked l1 ++ user_invoked l2.
Proof. apply omap_app. Qed.

Lemma claim_step (i : nat) (th : OsThread) (w : World) (t : Task)
    (q : list Task) :
  os_threads w !! i = Some th -> at_head (th_phase th) ->
  taskQue_ (pool w) = t :: q ->
  exists w1 pre,
    threadFunc_step i no_timeout w = Some (tt, w1)
    /\ events w1 = events w ++ pre
    /\ user_invoked pre = [] /\ dequeued pre = [t]
    /\ taskQue_ (pool w1) = q
    /\ os_threads w1 = alter (with_phase (Executing t)) i (os_threads w).
Proof.
  intros Hi Hph Hq. rewrite threadFunc_step_eq, Hi.
  assert (Hu : user_invoked
                 ([Cout MsgGotTask; Dequeue t]
                  ++ (if (0 <? length q)%nat
                      then [NotifyAll notEmpty_] else [])
                  ++ [NotifyAll notFull_]) = []).
  { by destruct (0 <? length q)%nat. }
  assert (Hd : dequeued
                 ([Cout MsgGotTask; Dequeue t]
                  ++ (if (0 <? length q)%nat
                      then [NotifyAll notEmpty_] else [])
                  ++ [NotifyAll notFull_]) = [t]).
  { by destruct (0 <? length q)%nat. }
  destruct Hph as [->|[->| ->]].
  - rewrite loop_head_eq.
    change (taskQue_ (pool (with_events _ w))) with (taskQue_ (pool w)).
    rewrite Hq. eexists _, ([Cout MsgTryTask] ++ _).
    split; [reflexivity|].
    split; [cbn [claimed_world with_os_threads with_events with_pool events];
            by rewrite <- app_assoc|].
    rewrite user_invoked_app, dequeued_app, Hu, Hd.
    repeat split. simpl. by rewrite Hq.
  - rewrite (after_wait_for_eq i th no_timeout w), loop_head_eq, Hq.
    eexists _, _. split; [reflexivity|]. split; [reflexivity|].
    rewrite Hu, Hd. repeat split. simpl. by rewrite Hq.
  - rewrite loop_head_eq, Hq.
    eexists _, _. split; [reflexivity|]. split; [reflexivity|].
    rewrite Hu, Hd. repeat split. simpl. by rewrite Hq.
Qed.

Lemma head_drains (q : list Task) (i : nat) (th : OsThread) (w : World) :
  os_threads w !! i = Some th -> at_head (th_phase th) ->
  taskQue_ (pool w) = q ->
  exists w' evs,
    after (replicate (2 * length q) (WorkerStep i no_timeout)) w = Some w'
    /\ events w' = events w ++ evs
    /\ taskQue_ (pool w') = []
    /\ dequeued evs = q /\ user_invoked evs = q.
Proof.
  revert th w. induction q as [|t q IH]; intros th w Hi Hph Hq.
  - exists w, []. rewrite app_nil_r. by repeat split.
  - destruct (claim_step i th w t q Hi Hph Hq)
      as (w1 & pre & Hs1 & He1 & Hu1 & Hd1 & Hq1 & Hos1).
    assert (Hi1 : os_threads w1 !! i = Some (with_phase (Executing t) th)).
    { by rewrite Hos1, list_lookup_alter_eq, Hi. }
    assert (Hs2 : threadFunc_step i no_timeout w1
                  = Some (tt, finished_world i t w1)).
    { by rewrite threadFunc_step_eq, Hi1. }
    destruct (IH (with_phase AtLock
                    (with_lastTime (clock w1) (with_phase (Executing t) th)))
                 (finished_world i t w1))
      as (w' & evs & Hrun & He & Hq' & Hd & Hu).
    + simpl. change (list_alter ?f ?i ?l) with (alter f i l).
      by rewrite !list_lookup_alter_eq, Hi1.
    + by left.
    + exact Hq1.
    + exists w', (pre ++ [Invoke (UserBody t)] ++ evs).
      split.
      { replace (2 * length (t :: q))%nat with (S (S (2 * length q)))
          by (simpl; lia).
        cbn [replicate]. rewrite after_cons. simpl. rewrite Hs1.
        rewrite after_cons. simpl. rewrite Hs2. exact Hrun. }
      split; [rewrite He; simpl; rewrite He1; by rewrite <- !app_assoc|].
      split; [exact Hq'|].
      rewrite !dequeued_app, !user_invoked_app, Hd, Hu, Hd1, Hu1.
      by split.
Qed.

(** * Properties of the specification *)

(** ** Submission under sustained backpressure *)

(** C1.  When [wait_for] gives up with the queue still full, [submitTask]
    returns a future that already holds [Rtype()], leaves the pool (queue
    and task counter included), the threads and the id counter as they
    were, and the only packaged task it invokes is the default one.  The
    caller's callable is not run then, nor later: if nothing held it
    before the call, no run that does not enqueue it again invokes it. *)
Theorem submitTask_rejects_when_full
    {R : Type} (Rtype_ctor : R) (func : Callable) (w : World) :
  notFull_pred (pool w) = false ->
  exists w',
    submitTask Rtype_ctor func w = Some (Ready Rtype_ctor, w')
    /\ pool w' = pool w
    /\ taskQue_ (pool w') = taskQue_ (pool w)
    /\ taskSize_ (pool w') = taskSize_ (pool w)
    /\ os_threads w' = os_threads w
    /\ generateId_ w' = generateId_ w
    /\ events_since w w' = [Cerr MsgQueueFull; Invoke DefaultBody]
    /\ (Invoke (UserBody func) ∉ events_since w w')
    /\ (not_held func w ->
        forall acts w'',
          after acts w' = Some w'' ->
          func ∉ enqueued (events_since w' w'') ->
          UserBody func ∉ invoked (events_since w' w'')).
Proof.
  intros Hfull. rewrite submitTask_eq, Hfull.
  exists (rejected_world w). split; [reflexivity|].
  assert (Hev : events_since w (rejected_world w)
                = [Cerr MsgQueueFull; Invoke DefaultBody]).
  { apply events_since_app. reflexivity. }
  rewrite Hev.
  repeat (split; [reflexivity|]).
  split.
  - intros Hin.
    apply elem_of_cons in Hin as [Hin|Hin]; [discriminate|].
    apply list_elem_of_singleton in Hin. discriminate.
  - intros Hnh acts w'' Hrun Hne.
    eapply run_not_held; [exact Hrun | | exact Hne].
    exact Hnh.
Qed.

Lemma submitTask_rejects_when_full_witness :
  notFull_pred (pool full_queue_world) = false
  /\ exists w',
       submitTask 0%Z 5%nat full_queue_world = Some (Ready 0%Z, w')
       /\ taskQue_ (pool w') = [1%nat]
       /\ taskSize_ (pool w') = 1.
Proof.
  split; [vm_compute; reflexivity|].
  destruct (submitTask_rejects_when_full 0%Z 5%nat full_queue_world)
    as (w' & Hs & _ & Hq & Hn & _); [vm_compute; reflexivity|].
  exists w'. split; [exact Hs|]. split; [exact Hq | exact Hn].
Defined.

(** ** Workers after shutdown has begun *)

(** C2 as first stated fails: after the destructor has cleared the
    running flag, the worker of a one-thread pool still claims and runs
    the queued task. *)
Lemma worker_claims_after_shutdown :
  exists w w' w'',
    after [CallStart 1; CallSubmitTask 7%nat; CallDestructor;
           WorkerStep 0 no_timeout] fresh_world = Some w
    /\ isPoolRunning_ (pool w) = false
    /\ taskQue_ (pool w) = [7%nat]
    /\ threadFunc_step 0 no_timeout w = Some (tt, w')
    /\ taskQue_ (pool w') = []
    /\ th_phase <$> os_threads w' !! 0%nat = Some (Executing 7%nat)
    /\ threadFunc_step 0 no_timeout w' = Some (tt, w'')
    /\ invoked (events_since w w'') = [UserBody 7%nat].
Proof.
  eexists. eexists. eexists.
  split; [vm_compute; reflexivity|].
  split; [reflexivity|].
  split; [reflexivity|].
  split; [vm_compute; reflexivity|].
  split; [reflexivity|].
  split; [reflexivity|].
  split; [vm_compute; reflexivity|].
  vm_compute. reflexivity.
Qed.

(** C2, as amended.  With the running flag cleared, a worker at the loop
    head exits (erasing itself and notifying [exitCond_]) when it finds
    the queue empty; when it finds a task it claims it as usual.  Once
    all worker threads have returned, as long as no new thread is
    launched, nothing is dequeued and the queue only grows: a task
    enqueued from then on is never consumed. *)
Theorem shutdown_drains_queue (i : nat) (threadid : Z) (w : World) :
  isPoolRunning_ (pool w) = false ->
  (taskQue_ (pool w) = [] ->
     loop_head i threadid w = Some (tt, exited_world i threadid w)
     /\ threads_ (pool (exited_world i threadid w)) = delete threadid (threads_ (pool w))
     /\ os_threads (exited_world i threadid w)
        = alter (with_phase Terminated) i (os_threads w)
     /\ NotifyAll exitCond_ ∈ events_since w (exited_world i threadid w)
     /\ dequeued (events_since w (exited_world i threadid w)) = [])
  /\ (forall t q, taskQue_ (pool w) = t :: q ->
        exists w',
          loop_head i threadid w = Some (tt, w')
          /\ taskQue_ (pool w') = q
          /\ dequeued (events_since w w') = [t]
          /\ os_threads w' = alter (with_phase (Executing t)) i (os_threads w))
  /\ (all_terminated w ->
      forall acts w',
        after acts w = Some w' ->
        launches (events_since w w') = [] ->
        dequeued (events_since w w') = []
        /\ taskQue_ (pool w') = taskQue_ (pool w) ++ enqueued (events_since w w')).
Proof.
  intros Hrun. split; [|split].
  - intros Hq. rewrite loop_head_eq, Hq, Hrun.
    split; [reflexivity|]. split; [reflexivity|]. split; [reflexivity|].
    assert (Hev : events_since w (exited_world i threadid w)
                  = [Cout MsgExit; NotifyAll exitCond_]).
    { apply events_since_app. reflexivity. }
    rewrite Hev. split; [|reflexivity].
    apply list_elem_of_further, list_elem_of_here.
  - intros t q Hq. exists (claimed_world i t q w).
    rewrite loop_head_eq, Hq. split; [reflexivity|].
    simpl. rewrite Hq. split; [reflexivity|]. split; [|reflexivity].
    erewrite events_since_app by reflexivity.
    destruct (0 <? length q)%nat; reflexivity.
  - intros Hall acts w' Hafter Hno.
    pose proof (run_without_workers acts w w' Hafter Hall Hno) as Hd.
    split; [exact Hd|].
    destruct (run_fifo acts w w' Hafter) as [evs Hst].
    pose proof (step_trace_since _ _ _ Hst) as Hs.
    destruct Hst as [_ Hqq]. rewrite Hs in Hd. rewrite Hs.
    rewrite Hd in Hqq. exact Hqq.
Qed.

Lemma shutdown_drains_queue_witness :
  isPoolRunning_ (pool shutting_down_world) = false
  /\ exists w',
       loop_head 0 0 shutting_down_world = Some (tt, w')
       /\ taskQue_ (pool w') = []
       /\ dequeued (events_since shutting_down_world w') = [7%nat].
Proof.
  split; [vm_compute; reflexivity|].
  destruct (shutdown_drains_queue 0 0 shutting_down_world)
    as (_ & Hclaim & _); [vm_compute; reflexivity|].
  destruct (Hclaim 7%nat []) as (w' & H1 & H2 & H3 & _);
    [vm_compute; reflexivity|].
  exists w'. split; [exact H1|]. split; [exact H2 | exact H3].
Defined.

(** ** The claim step and FIFO service *)

(** C3.  A worker thread that stands at the head of its loop (it has
    taken the lock, or one of its waits has returned) with a task at the
    front of the queue claims it in its next step, unless its timed wait
    has just run out with the reclaim test true (C5):
    [idleThreadSize_] and [taskSize_] are decremented (by the atomic
    [--], which is minus one on every value but [INT_MIN]), exactly the
    front task leaves the queue and goes to this thread, [notEmpty_] is
    notified iff tasks remain, [notFull_] is notified.  Hence in every
    run the tasks dequeued so far, followed by the queue, are the
    initial queue followed by the tasks enqueued so far; and this
    worker, kept running on its own, dequeues the whole queue in queue
    order: service is FIFO. *)
Theorem worker_claim_is_fifo
    (i : nat) (th : OsThread) (st : cv_status) (w : World)
    (t : Task) (q : list Task) :
  os_threads w !! i = Some th ->
  at_head (th_phase th) ->
  (th_phase th = WaitingTimed -> st = timeout ->
   should_reclaim (th_lastTime th) (clock w) (pool w) = false) ->
  taskQue_ (pool w) = t :: q ->
  (exists w',
     threadFunc_step i st w = Some (tt, w')
     /\ idleThreadSize_ (pool w') = Int.atomic_dec (idleThreadSize_ (pool w))
     /\ (Int.int_min < idleThreadSize_ (pool w) <= Int.int_max ->
         idleThreadSize_ (pool w') = idleThreadSize_ (pool w) - 1)
     /\ taskQue_ (pool w') = q
     /\ dequeued (events_since w w') = [t]
     /\ os_threads w' = alter (with_phase (Executing t)) i (os_threads w)
     /\ taskSize_ (pool w') = Int.atomic_dec (taskSize_ (pool w))
     /\ (Int.int_min < taskSize_ (pool w) <= Int.int_max ->
         taskSize_ (pool w') = taskSize_ (pool w) - 1)
     /\ (NotifyAll notEmpty_ ∈ events_since w w' <-> q <> [])
     /\ NotifyAll notFull_ ∈ events_since w w')
  /\ (forall acts w0 w1,
        after acts w0 = Some w1 ->
        dequeued (events_since w0 w1) ++ taskQue_ (pool w1)
        = taskQue_ (pool w0) ++ enqueued (events_since w0 w1))
  /\ (exists w',
        after (replicate (2 * length (t :: q)) (WorkerStep i no_timeout)) w
        = Some w'
        /\ dequeued (events_since w w') = t :: q
        /\ taskQue_ (pool w') = []).
Proof.
  intros Hi Hph Hrc Hq.
  assert (Hstep : exists pre,
             (pre = [] \/ pre = [Cout MsgTryTask])
             /\ threadFunc_step i st w
                = Some (tt, claimed_world i t q
                              (with_events (fun l => l ++ pre) w))).
  { rewrite threadFunc_step_eq, Hi.
    destruct Hph as [Hp|[Hp|Hp]]; rewrite Hp.
    - exists [Cout MsgTryTask]. split; [by right|].
      rewrite loop_head_eq.
      change (taskQue_ (pool (with_events _ w))) with (taskQue_ (pool w)).
      by rewrite Hq.
    - exists []. split; [by left|].
      rewrite (after_wait_for_eq i th st w).
      assert (Hhead : loop_head i (th_id th) w
                      = Some (tt, claimed_world i t q
                                    (with_events (fun l => l ++ []) w))).
      { rewrite loop_head_eq, Hq. do 2 f_equal.
        destruct w as [g p os ck ev]; destruct p. unfold claimed_world.
        fields. by rewrite app_nil_r. }
      destruct st; [exact Hhead|]. by rewrite (Hrc Hp eq_refl).
    - exists []. split; [by left|].
      rewrite loop_head_eq, Hq. do 2 f_equal.
      destruct w as [g p os ck ev]; destruct p. unfold claimed_world.
      fields. by rewrite app_nil_r. }
  destruct Hstep as (pre & Hpre & Hstep).
  split; [|split].
  - eexists. split; [exact Hstep|].
    assert (Hev : events_since w
                    (claimed_world i t q (with_events (fun l => l ++ pre) w))
                  = pre ++ [Cout MsgGotTask; Dequeue t]
                      ++ (if (0 <? length q)%nat
                          then [NotifyAll notEmpty_] else [])
                      ++ [NotifyAll notFull_]).
    { apply events_since_app. simpl. by rewrite <- app_assoc. }
    rewrite Hev. simpl. rewrite Hq.
    split; [reflexivity|].
    split; [intros Hr; by apply IntFacts.atomic_dec_pred|].
    split; [reflexivity|].
    split; [destruct Hpre as [->| ->]; destruct (0 <? length q)%nat;
            reflexivity|].
    split; [reflexivity|].
    split; [reflexivity|].
    split; [intros Hr; by apply IntFacts.atomic_dec_pred|].
    split.
    + destruct q as [|t' q']; destruct Hpre as [->| ->]; simpl.
      * split; [|congruence]. intros Hin.
        repeat (apply elem_of_cons in Hin as [Hin|Hin]; [discriminate|]).
        by apply elem_of_nil in Hin.
      * split; [|congruence]. intros Hin.
        repeat (apply elem_of_cons in Hin as [Hin|Hin]; [discriminate|]).
        by apply elem_of_nil in Hin.
      * split; [discriminate|]. intros _.
        do 2 apply list_elem_of_further. apply list_elem_of_here.
      * split; [discriminate|]. intros _.
        do 3 apply list_elem_of_further. apply list_elem_of_here.
    + destruct Hpre as [->| ->]; destruct (0 <? length q)%nat; simpl;
        repeat (first [apply list_elem_of_here | apply list_elem_of_further]).
  - intros acts w0 w1 Hrun.
    destruct (run_fifo acts w0 w1 Hrun) as [evs Hst].
    rewrite (step_trace_since _ _ _ Hst). apply Hst.
  - destruct (head_drains (t :: q) i th w Hi Hph Hq)
      as (w' & evs & Hrun & He & Hq' & Hd & _).
    exists w'. split; [exact Hrun|].
    split; [by rewrite (events_since_app w w' evs He) | exact Hq'].
Qed.

Lemma worker_claim_is_fifo_witness :
  (os_threads two_queued_world !! 0%nat
   = Some {| th_id := 0; th_phase := AtLock; th_lastTime := 0 |}
   /\ at_head AtLock
   /\ taskQue_ (pool two_queued_world) = [1; 2]%nat)
  /\ exists w',
       threadFunc_step 0 no_timeout two_queued_world = Some (tt, w')
       /\ taskQue_ (pool w') = [2%nat]
       /\ dequeued (events_since two_queued_world w') = [1%nat]
       /\ th_phase <$> os_threads w' !! 0%nat = Some (Executing 1%nat)
       /\ NotifyAll notEmpty_ ∈ events_since two_queued_world w'.
Proof.
  split; [split; [vm_compute; reflexivity|]; split;
          [by left | vm_compute; reflexivity]|].
  destruct (worker_claim_is_fifo 0
              {| th_id := 0; th_phase := AtLock; th_lastTime := 0 |}
              no_timeout two_queued_world 1%nat [2%nat])
    as ((w' & H1 & _ & _ & H2 & H3 & H4 & _ & _ & H5 & _) & _).
  - vm_compute. reflexivity.
  - by left.
  - discriminate.
  - vm_compute. reflexivity.
  - exists w'. split; [exact H1|]. split; [exact H2|]. split; [exact H3|].
    split; [rewrite H4; vm_compute; reflexivity|].
    apply H5. discriminate.
Defined.

(** ** Counter invariants *)

(** C4 as first stated fails: [start] accepts an initial size above the
    cached-mode thread limit. *)
Lemma start_above_thread_limit :
  exists w,
    after [CallSetMode MODE_CACHED; CallSetThreadSizeThreshHold 2;
           CallStart 3] fresh_world = Some w
    /\ poolMode_ (pool w) = MODE_CACHED
    /\ curThreadSize_ (pool w) = 3
    /\ threadSizeThreshHold_ (pool w) = 2
    /\ ~ pool_invariants (pool w).
Proof.
  eexists. split; [vm_compute; reflexivity|].
  split; [reflexivity|]. split; [reflexivity|]. split; [reflexivity|].
  intros [_ _ Hmax _ _]. simpl in Hmax. specialize (Hmax eq_refl). lia.
Qed.

(** C4, as amended.  Take a client that sets only non-negative limits on
    the fresh pool, calls [start] at most once and before anything else,
    with an initial size that is non-negative and, in cached mode, within
    the thread limit, and calls setters afterwards only while the pool is
    running.  In every world it can reach, under any interleaving of
    submissions, claims, finished tasks, spawns, reclamations, shutdown
    exits and the destructor, [0 <= idleThreadSize_ <= curThreadSize_],
    [curThreadSize_ <= threadSizeThreshHold_] in cached mode,
    [taskSize_ <= taskQueMaxThreshHold_], and [taskSize_] is the length of
    the task queue. *)
Theorem reachable_pool_invariants (w : World) :
  reachable w -> pool_invariants (pool w).
Proof.
  intros Hr. pose proof (reachable_inv w Hr) as Hinv.
  pose proof (serving_inv_idle_bounds w Hinv) as [H0 Hle].
  destruct Hinv as [Htc Hqm Hqb Hex Hav Hth Hcm Hca].
  constructor; try assumption. lia.
Qed.

Lemma reachable_pool_invariants_witness :
  reachable serving_world /\ pool_invariants (pool serving_world).
Proof.
  assert (Hstart : reachable started_world).
  { apply (reachable_start fresh_world 2 started_world configured_fresh).
    - unfold Int.int_max. lia.
    - intros _. vm_compute. discriminate.
    - vm_compute. reflexivity. }
  assert (Hserve : reachable serving_world).
  { apply (reachable_run
             [CallSubmitTask 1%nat; WorkerStep 0 no_timeout;
              WorkerStep 0 no_timeout] started_world serving_world Hstart).
    - reflexivity.
    - vm_compute. reflexivity. }
  split; [exact Hserve|].
  exact (reachable_pool_invariants serving_world Hserve).
Defined.

(** ** Idle reclamation *)

(** C5 as first stated fails: a worker idle for exactly 60 seconds, not
    longer, is reclaimed. *)
Lemma reclaim_at_exactly_sixty_seconds :
  exists w th w',
    after grow_then_idle fresh_world = Some w
    /\ os_threads w !! 1%nat = Some th
    /\ th_phase th = WaitingTimed
    /\ clock w - th_lastTime th = 60 * ticks_per_second
    /\ ~ reclaim_due_strict (th_lastTime th) (clock w) (pool w)
    /\ initThreadSize_ (pool w) = 1 /\ curThreadSize_ (pool w) = 2
    /\ threadFunc_step 1 timeout w = Some (tt, w')
    /\ th_phase <$> os_threads w' !! 1%nat = Some Terminated
    /\ threads_ (pool w') !! 1 = None
    /\ curThreadSize_ (pool w') = 1
    /\ idleThreadSize_ (pool w') = 1.
Proof.
  eexists. eexists. eexists.
  split; [vm_compute; reflexivity|].
  split; [reflexivity|].
  split; [reflexivity|].
  split; [reflexivity|].
  split; [unfold reclaim_due_strict; simpl; unfold ticks_per_second,
          THREAD_MAX_IDLE_TIME; lia|].
  split; [reflexivity|].
  split; [reflexivity|].
  split; [vm_compute; reflexivity|].
  repeat split; vm_compute; reflexivity.
Qed.

(** C5, as amended.  A worker whose timed wait ran out is reclaimed
    exactly when it has been idle for at least 60 seconds (whole seconds,
    so 60 seconds sharp counts) and [curThreadSize_] exceeds
    [initThreadSize_].  It then erases itself from the live map and
    decrements both counters, leaving [curThreadSize_] no lower than
    [initThreadSize_].  Otherwise it goes back to the loop test, and on a
    running pool it stays alive with the counter and the live map as
    they were. *)
Theorem idle_worker_reclaim (i : nat) (th : OsThread) (w : World) :
  os_threads w !! i = Some th ->
  th_phase th = WaitingTimed ->
  int_fields_ok (pool w) ->
  (reclaim_due (th_lastTime th) (clock w) (pool w) ->
     exists w',
       threadFunc_step i timeout w = Some (tt, w')
       /\ th_phase <$> os_threads w' !! i = Some Terminated
       /\ threads_ (pool w') = delete (th_id th) (threads_ (pool w))
       /\ curThreadSize_ (pool w') = curThreadSize_ (pool w) - 1
       /\ idleThreadSize_ (pool w') = Int.atomic_dec (idleThreadSize_ (pool w))
       /\ (Int.int_min < idleThreadSize_ (pool w) ->
           idleThreadSize_ (pool w') = idleThreadSize_ (pool w) - 1)
       /\ initThreadSize_ (pool w') <= curThreadSize_ (pool w'))
  /\ (~ reclaim_due (th_lastTime th) (clock w) (pool w) ->
      threadFunc_step i timeout w = loop_head i (th_id th) w
      /\ (isPoolRunning_ (pool w) = true ->
          exists w',
            threadFunc_step i timeout w = Some (tt, w')
            /\ th_phase <$> os_threads w' !! i <> Some Terminated
            /\ curThreadSize_ (pool w') = curThreadSize_ (pool w)
            /\ threads_ (pool w') = threads_ (pool w))).
Proof.
  intros Hi Hph Hok.
  assert (Hstep : threadFunc_step i timeout w =
                  if should_reclaim (th_lastTime th) (clock w) (pool w)
                  then Some (tt, reclaimed_world i (th_id th) w)
                  else loop_head i (th_id th) w).
  { rewrite threadFunc_step_eq, Hi, Hph.
    exact (after_wait_for_eq i th timeout w). }
  split.
  - intros Hdue. pose proof Hdue as [_ Hgt].
    apply should_reclaim_due in Hdue. rewrite Hstep, Hdue.
    eexists. split; [reflexivity|]. simpl.
    destruct Hok as [Hin _ Hc Hid _ _]. unfold Int.in_range in *.
    assert (Hcur : Int.atomic_dec (curThreadSize_ (pool w))
                   = curThreadSize_ (pool w) - 1).
    { apply IntFacts.atomic_dec_pred. lia. }
    split; [by rewrite list_lookup_alter_eq, Hi|].
    split; [reflexivity|].
    split; [exact Hcur|].
    split; [reflexivity|].
    split; [intros Hmin; apply IntFacts.atomic_dec_pred; lia|].
    rewrite Hcur. lia.
  - intros Hnot.
    assert (Hf : should_reclaim (th_lastTime th) (clock w) (pool w) = false).
    { destruct (should_reclaim _ _ _) eqn:E; [|reflexivity].
      apply should_reclaim_due in E. contradiction. }
    rewrite Hstep, Hf. split; [reflexivity|].
    intros Hrun. rewrite loop_head_eq, Hrun.
    destruct (taskQue_ (pool w)) as [|t q].
    + eexists. split; [reflexivity|]. simpl.
      rewrite list_lookup_alter_eq, Hi. simpl.
      split; [destruct (decide _); discriminate|].
      split; reflexivity.
    + eexists. split; [reflexivity|]. simpl.
      rewrite list_lookup_alter_eq, Hi. simpl.
      split; [discriminate|]. split; reflexivity.
Qed.

Lemma idle_worker_reclaim_witness :
  (os_threads idle_sixty_world !! 1%nat
     = Some {| th_id := 1; th_phase := WaitingTimed; th_lastTime := 0 |}
   /\ int_fields_ok (pool idle_sixty_world)
   /\ reclaim_due 0 (clock idle_sixty_world) (pool idle_sixty_world))
  /\ exists w',
       threadFunc_step 1 timeout idle_sixty_world = Some (tt, w')
       /\ curThreadSize_ (pool w') = curThreadSize_ (pool idle_sixty_world) - 1
       /\ initThreadSize_ (pool w') <= curThreadSize_ (pool w').
Proof.
  assert (Hdue : reclaim_due 0 (clock idle_sixty_world) (pool idle_sixty_world)).
  { split; vm_compute; [discriminate | reflexivity]. }
  split.
  - split; [vm_compute; reflexivity|].
    split; [exact idle_sixty_fields_ok | exact Hdue].
  - destruct (idle_worker_reclaim 1
                {| th_id := 1; th_phase := WaitingTimed; th_lastTime := 0 |}
                idle_sixty_world)
      as (Hdo & _);
      [vm_compute; reflexivity | reflexivity | exact idle_sixty_fields_ok |].
    destruct (Hdo Hdue) as (w' & H1 & _ & _ & H2 & _ & _ & H3).
    exists w'. split; [exact H1|]. split; [exact H2 | exact H3].
Defined.

(** ** Growth on submission *)

(** C6.  A submission accepted in cached mode spawns one worker when,
    after the enqueue, [taskSize_ > idleThreadSize_] and
    [curThreadSize_ < threadSizeThreshHold_]: one new id enters the live
    map, one thread is launched for it before the call returns, and both
    counters go up by one.  Otherwise nothing is spawned.  The queue gains
    the task and the task counter its increment either way. *)
Theorem submit_spawns_at_most_one
    {R : Type} (Rtype_ctor : R) (func : Callable) (w : World) :
  notFull_pred (pool w) = true ->
  poolMode_ (pool w) = MODE_CACHED ->
  int_fields_ok (pool w) ->
  threads_ (pool w) !! generateId_ w = None ->
  exists w',
    submitTask Rtype_ctor func w = Some (Pending func, w')
    /\ taskQue_ (pool w') = taskQue_ (pool w) ++ [func]
    /\ taskSize_ (pool w') = Int.atomic_inc (taskSize_ (pool w))
    /\ if (idleThreadSize_ (pool w) <? Int.atomic_inc (taskSize_ (pool w)))
          && (curThreadSize_ (pool w) <? threadSizeThreshHold_ (pool w))
       then
         threads_ (pool w')
           = <[generateId_ w := {| threadId_ := generateId_ w |}]> (threads_ (pool w))
         /\ generateId_ w' = generateId_ w + 1
         /\ curThreadSize_ (pool w') = curThreadSize_ (pool w) + 1
         /\ idleThreadSize_ (pool w') = idleThreadSize_ (pool w) + 1
         /\ os_threads w'
            = os_threads w ++ [{| th_id := generateId_ w; th_phase := AtEntry;
                                  th_lastTime := 0 |}]
         /\ launches (events_since w w') = [generateId_ w]
       else
         threads_ (pool w') = threads_ (pool w)
         /\ generateId_ w' = generateId_ w
         /\ curThreadSize_ (pool w') = curThreadSize_ (pool w)
         /\ idleThreadSize_ (pool w') = idleThreadSize_ (pool w)
         /\ os_threads w' = os_threads w
         /\ launches (events_since w w') = [].
Proof.
  intros Hnf Hmode Hok Hfresh.
  rewrite submitTask_eq, Hnf.
  assert (Hsp : should_spawn (pool (enqueued_world func w))
                = (idleThreadSize_ (pool w) <? Int.atomic_inc (taskSize_ (pool w)))
                  && (curThreadSize_ (pool w) <? threadSizeThreshHold_ (pool w))).
  { unfold should_spawn. simpl. rewrite Hmode.
    rewrite bool_decide_eq_true_2 by reflexivity. reflexivity. }
  rewrite Hsp.
  destruct ((idleThreadSize_ (pool w) <? Int.atomic_inc (taskSize_ (pool w)))
            && (curThreadSize_ (pool w) <? threadSizeThreshHold_ (pool w)))
    eqn:Hgrow.
  - apply andb_true_iff in Hgrow as [Hidle Hcur].
    apply Z.ltb_lt in Hidle. apply Z.ltb_lt in Hcur.
    destruct Hok as [_ Hth Hc Hi _ _].
    pose proof (IntFacts.atomic_inc_range (taskSize_ (pool w))) as Hq.
    unfold Int.in_range in *.
    eexists. split; [reflexivity|]. rewrite Hfresh. simpl.
    split; [reflexivity|]. split; [reflexivity|].
    split; [unfold map_emplace; by rewrite Hfresh|].
    split; [reflexivity|].
    split; [apply IntFacts.atomic_inc_succ; lia|].
    split; [apply IntFacts.atomic_inc_succ; lia|].
    split; [reflexivity|].
    unfold events_since. simpl.
    rewrite <- app_assoc, drop_app_length. reflexivity.
  - eexists. split; [reflexivity|]. simpl.
    repeat split.
    unfold events_since. simpl. rewrite drop_app_length. reflexivity.
Qed.

Lemma submit_spawns_at_most_one_witness :
  (notFull_pred (pool cached_busy_world) = true
   /\ poolMode_ (pool cached_busy_world) = MODE_CACHED
   /\ threads_ (pool cached_busy_world) !! generateId_ cached_busy_world = None)
  /\ exists w',
       submitTask tt 2%nat cached_busy_world = Some (Pending 2%nat, w')
       /\ taskQue_ (pool w') = [1%nat; 2%nat].
Proof.
  split; [repeat split; vm_compute; reflexivity|].
  destruct (submit_spawns_at_most_one tt 2%nat cached_busy_world)
    as (w' & H1 & H2 & _);
    [vm_compute; reflexivity | vm_compute; reflexivity
     | exact cached_busy_fields_ok | vm_compute; reflexivity |].
  exists w'. split; [exact H1 | exact H2].
Defined.

(** ** start on a running pool *)




(** ** start on a pool that is not running *)

(** C8, the defect.  In a process whose id counter is already 1, [start 1]
    constructs worker 1 and then dereferences the null pointer that
    [threads_[0]] inserts: no defined outcome, worker 1 not started.  In
    a cached pool that spawned worker 0 for a submission made before
    [start], [start 1] returns after launching worker 0 a second time;
    worker 1 is in the live map and never launched. *)
Theorem start_misses_new_worker :
  start 1 second_pool_world = None
  /\ exists w0 w1,
       after [CallSetMode MODE_CACHED; CallSubmitTask 7%nat] fresh_world = Some w0
       /\ isPoolRunning_ (pool w0) = false
       /\ start 1 w0 = Some (tt, w1)
       /\ is_Some (threads_ (pool w1) !! 1)
       /\ launches (events_since w0 w1) = [0]
       /\ map th_id (os_threads w1) = [0; 0].
Proof.
  split; [vm_compute; reflexivity|].
  eexists. eexists.
  split; [vm_compute; reflexivity|].
  split; [reflexivity|].
  split; [vm_compute; reflexivity|].
  split; [|split; vm_compute; reflexivity].
  vm_compute. eauto.
Qed.

(** ** Configuration calls *)

(** C9.  On a running pool the three setters return without touching
    anything.  Outside cached mode [setThreadSizeThreshHold] leaves the
    whole pool, the ceiling included, as it was, also when the pool is not
    running, where all it does is print the diagnostic. *)
Theorem setters_guarded (w : World) (mode : PoolMode) (threshhold : Z) :
  (isPoolRunning_ (pool w) = true ->
     setMode mode w = Some (tt, w)
     /\ setTaskQueMaxThreshHold threshhold w = Some (tt, w)
     /\ setThreadSizeThreshHold threshhold w = Some (tt, w))
  /\ (poolMode_ (pool w) <> MODE_CACHED ->
      exists w',
        setThreadSizeThreshHold threshhold w = Some (tt, w')
        /\ pool w' = pool w
        /\ threadSizeThreshHold_ (pool w') = threadSizeThreshHold_ (pool w)
        /\ generateId_ w' = generateId_ w
        /\ os_threads w' = os_threads w
        /\ events_since w w' =
             if isPoolRunning_ (pool w) then [] else [Cerr MsgNotCached]).
Proof.
  split.
  - intros Hrun.
    unfold setMode, setTaskQueMaxThreshHold, setThreadSizeThreshHold,
           checkPoolRunningState.
    mstep. rewrite Hrun. auto.
  - intros Hmode.
    unfold setThreadSizeThreshHold, checkPoolRunningState. mstep.
    destruct (isPoolRunning_ (pool w)).
    + exists w. repeat split; try reflexivity.
      unfold events_since. apply drop_all.
    + destruct (decide (poolMode_ (pool w) = MODE_CACHED)) as [Hc|_];
        [contradiction|].
      eexists. split; [reflexivity|]. simpl.
      repeat split; try reflexivity.
      apply events_since_app. reflexivity.
Qed.

Lemma setters_guarded_witness :
  (isPoolRunning_ (pool started_world) = true
   /\ poolMode_ (pool started_world) <> MODE_CACHED)
  /\ setMode MODE_CACHED started_world = Some (tt, started_world)
  /\ setTaskQueMaxThreshHold 5 started_world = Some (tt, started_world)
  /\ setThreadSizeThreshHold 5 started_world = Some (tt, started_world)
  /\ exists w',
       setThreadSizeThreshHold 5 fresh_world = Some (tt, w')
       /\ threadSizeThreshHold_ (pool w') = THREAD_MAX_THRESHHOLD.
Proof.
  split; [split; [vm_compute; reflexivity | vm_compute; discriminate]|].
  destruct (setters_guarded started_world MODE_CACHED 5) as [Hrun _].
  destruct Hrun as (H1 & H2 & H3); [vm_compute; reflexivity|].
  split; [exact H1|]. split; [exact H2|]. split; [exact H3|].
  destruct (setters_guarded fresh_world MODE_CACHED 5) as [_ Hmode].
  destruct Hmode as (w' & H4 & _ & H5 & _); [vm_compute; discriminate|].
  exists w'. split; [exact H4 | exact H5].
Defined.

(** ** Launching by loop index *)

(** C10 as first stated fails for [start(0)]: nothing is constructed, so
    every new worker is launched once although the counter is not 0. *)
Lemma start_zero_with_counter_past_zero :
  ids_below_counter second_pool_world
  /\ ~ (launches_each_new_worker_once 0 second_pool_world
        <-> generateId_ second_pool_world = 0).
Proof.
  split.
  - intros k t H. simpl in H. by rewrite lookup_empty in H.
  - intros [Hto _].
    assert (H : generateId_ second_pool_world = 0); [|discriminate H].
    apply Hto. eexists. split; [vm_compute; reflexivity|].
    simpl. intros id Hid. lia.
Qed.

(** C10, as amended.  [start n] launches the workers found under the keys
    [0 .. n-1] of the live map.  For [n >= 1] that is each newly
    constructed worker, once, exactly when the process-wide id counter
    was 0 at the call. *)
Theorem start_launches_by_index (n : Z) (w : World) :
  1 <= n -> 0 <= generateId_ w -> ids_below_counter w ->
  (forall w', start n w = Some (tt, w') ->
              launches (events_since w w') = seqZ 0 n)
  /\ (launches_each_new_worker_once n w <-> generateId_ w = 0).
Proof.
  intros Hn Hg Hwf. split; [|split].
  - intros w' Hs.
    destruct (start_returns n w w' Hwf Hs) as (_ & _ & Hl & _).
    rewrite Hl. f_equal. lia.
  - intros (w' & Hs & Honce).
    destruct (decide (generateId_ w = 0)) as [|Hne]; [assumption|].
    exfalso.
    destruct (start_skips_newest n w w') as [Hin H0]; try assumption; [lia|].
    specialize (Honce _ Hin). congruence.
  - intros Hzero.
    destruct (start_fresh_ids n w Hzero Hwf) as [w' Hs].
    exists w'. split; [exact Hs|].
    destruct (start_returns n w w' Hwf Hs) as (Hg' & _ & Hl & _).
    intros id Hid. unfold launch_count. rewrite Hl.
    apply count_NoDup; [apply NoDup_seqZ|].
    rewrite elem_of_seqZ. lia.
Qed.

Lemma start_launches_by_index_witness :
  (1 <= 2 /\ 0 <= generateId_ fresh_world /\ ids_below_counter fresh_world)
  /\ launches_each_new_worker_once 2 fresh_world.
Proof.
  split; [split; [lia | split; [simpl; lia | exact fresh_world_ids]]|].
  apply (start_launches_by_index 2 fresh_world);
    [lia | simpl; lia | exact fresh_world_ids | reflexivity].
Defined.

(** * Further properties of the code *)

(** ** start in a process that has built no Thread *)

(** In a process whose id counter is 0, [start n] returns with the pool
    running, the three counters at [n], the live map holding exactly the
    ids [0 .. n-1], one thread launched for each of them in that order,
    and the queue untouched.  For [n <= 0] that is no worker at all,
    with the counters still set to [n]. *)
Theorem start_on_fresh_process (n : Z) (w : World) :
  generateId_ w = 0 ->
  ids_below_counter w ->
  exists w',
    start n w = Some (tt, w')
    /\ isPoolRunning_ (pool w') = true
    /\ initThreadSize_ (pool w') = n
    /\ curThreadSize_ (pool w') = n
    /\ idleThreadSize_ (pool w') = n
    /\ generateId_ w' = Z.max 0 n
    /\ (forall k, is_Some (threads_ (pool w') !! k) <-> 0 <= k < n)
    /\ launches (events_since w w') = seqZ 0 n
    /\ map th_id (drop (length (os_threads w)) (os_threads w')) = seqZ 0 n
    /\ taskQue_ (pool w') = taskQue_ (pool w).
Proof.
  intros Hg Hwf.
  destruct (start_fresh_ids n w Hg Hwf) as [w' Hs]. exists w'.
  split; [exact Hs|].
  destruct (start_returns n w w' Hwf Hs) as (Hg' & Hp & Hl & Hos).
  assert (Hseq : seqZ 0 (Z.of_nat (Z.to_nat n)) = seqZ 0 n).
  { unfold seqZ. by rewrite Nat2Z.id. }
  rewrite Hp, Hg', Hl, Hos, Hseq, Hg.
  repeat (split; [reflexivity|]).
  split; [lia|].
  split; [|repeat split].
  intros k. unfold started_pool. cbn [with_threads threads_].
  change (threads_ (with_idleThreadSize _ _)) with (threads_ (pool w)).
  rewrite lookup_emplace_seq.
  destruct (threads_ (pool w) !! k) as [t|] eqn:Hk.
  - apply Hwf in Hk as [_ Hk]. lia.
  - destruct (decide _) as [Hin|Hout]; split.
    + intros _. lia.
    + intros _. eauto.
    + intros [? [=]].
    + intros Hin. lia.
Qed.

Lemma start_on_fresh_process_witness :
  (generateId_ fresh_world = 0 /\ ids_below_counter fresh_world)
  /\ exists w',
       start 3 fresh_world = Some (tt, w')
       /\ curThreadSize_ (pool w') = 3
       /\ launches (events_since fresh_world w') = [0; 1; 2].
Proof.
  split; [split; [reflexivity | exact fresh_world_ids]|].
  destruct (start_on_fresh_process 3 fresh_world eq_refl fresh_world_ids)
    as (w' & H1 & _ & _ & H2 & _ & _ & _ & H3 & _).
  exists w'. split; [exact H1|]. split; [exact H2 | exact H3].
Defined.

(** ** Worker ids are never reused *)

Lemma configures_keeps_absent (w w' : World) (k : Z) :
  configures w w' ->
  k < generateId_ w -> threads_ (pool w) !! k = None ->
  generateId_ w <= generateId_ w' /\ threads_ (pool w') !! k = None.
Proof.
  intros Hc Hk Hnone.
  destruct Hc as [ | m Hr | n Hr | n Hr Hm | | n ths Hths ];
    try (split; [cbn [generateId_ with_pool with_events]; lia | exact Hnone]).
  split; [cbn [generateId_]; lia|].
  cbn [pool]. unfold started_pool. cbn [with_threads threads_].
  change (threads_ (with_idleThreadSize _ _)) with (threads_ (pool w)).
  rewrite lookup_emplace_seq, Hnone.
  destruct (decide _) as [Hin|_]; [lia|reflexivity].
Qed.

Lemma head_outcome_keeps_absent (i : nat) (tid : Z) (w w' : World) (k : Z) :
  head_outcome i tid w w' ->
  threads_ (pool w) !! k = None ->
  generateId_ w' = generateId_ w /\ threads_ (pool w') !! k = None.
Proof.
  intros Hho Hnone.
  destruct Hho as [ph Hq Hr Hph | Hq Hr | t q Hq];
    (split; [reflexivity|]); try exact Hnone.
  cbn [pool exited_world with_os_threads with_events with_pool
       with_threads threads_].
  apply lookup_delete_None. by right.
Qed.

Lemma services_keeps_absent (w w' : World) (k : Z) :
  services w w' ->
  k < generateId_ w -> threads_ (pool w) !! k = None ->
  generateId_ w <= generateId_ w' /\ threads_ (pool w') !! k = None.
Proof.
  intros Hs Hk Hnone.
  destruct Hs as [ Hnf | c Hnf Hsp | c Hnf Hsp | | d | i th Hi Hph
                 | i th t Hi Hph | i th w1 w' Hi Hph Hw1 Hho
                 | i th Hi Hph Hrc ];
    try (split; [cbn [generateId_]; reflexivity | exact Hnone]).
  - split; [cbn [generateId_ spawned_world]; 
            change (generateId_ (enqueued_world c w)) with (generateId_ w); lia|].
    unfold spawned_world.
    cbn [pool with_idleThreadSize with_curThreadSize with_threads threads_].
    change (threads_ (pool (enqueued_world c w))) with (threads_ (pool w)).
    change (generateId_ (enqueued_world c w)) with (generateId_ w).
    unfold map_emplace.
    destruct (threads_ (pool w) !! generateId_ w); [exact Hnone|].
    rewrite lookup_insert_ne by lia. exact Hnone.
  - assert (H1 : generateId_ w1 = generateId_ w
                 /\ threads_ (pool w1) !! k = None).
    { destruct Hw1 as [->| ->]; split; try reflexivity; exact Hnone. }
    destruct H1 as [Hg1 Hn1].
    destruct (head_outcome_keeps_absent _ _ _ _ k Hho Hn1) as [Hg' Hn'].
    split; [lia | exact Hn'].
  - split; [reflexivity|].
    cbn [pool reclaimed_world with_os_threads with_events with_pool
         with_idleThreadSize with_curThreadSize with_threads threads_].
    apply lookup_delete_None. by right.
Qed.

(** An id that has been handed out and is no longer in the live map never
    comes back, whatever runs next; the id counter never goes down. *)
Theorem removed_id_never_returns
    (acts : list Action) (w w' : World) (k : Z) :
  after acts w = Some w' ->
  k < generateId_ w ->
  threads_ (pool w) !! k = None ->
  generateId_ w <= generateId_ w' /\ threads_ (pool w') !! k = None.
Proof.
  revert w. induction acts as [|a rest IH]; intros w Hrun Hk Hnone.
  - rewrite after_nil in Hrun. inversion Hrun; subst. split; [lia|exact Hnone].
  - apply after_cons_inv in Hrun as (w1 & Hexec & Hrest).
    assert (H1 : generateId_ w <= generateId_ w1
                 /\ threads_ (pool w1) !! k = None).
    { destruct (exec_step _ _ _ Hexec) as [Hc|Hs].
      - by apply configures_keeps_absent.
      - by apply services_keeps_absent. }
    destruct H1 as [Hg1 Hn1].
    destruct (IH w1 Hrest ltac:(lia) Hn1) as [Hg' Hn'].
    split; [lia | exact Hn'].
Qed.

Lemma removed_id_never_returns_witness :
  (0 < generateId_ drained_world
   /\ threads_ (pool drained_world) !! 0 = None)
  /\ exists w',
       after [CallSetMode MODE_CACHED; CallSubmitTask 1%nat;
              CallSubmitTask 2%nat] drained_world = Some w'
       /\ is_Some (threads_ (pool w') !! 1)
       /\ threads_ (pool w') !! 0 = None.
Proof.
  split; [split; vm_compute; reflexivity|].
  eexists. split; [vm_compute; reflexivity|].
  split; [vm_compute; eauto|].
  apply (removed_id_never_returns
           [CallSetMode MODE_CACHED; CallSubmitTask 1%nat;
            CallSubmitTask 2%nat] drained_world _ 0);
    vm_compute; reflexivity.
Defined.

(** ** The configuration is frozen while the pool runs *)

Lemma loop_head_keeps_running (i : nat) (tid : Z) (w w' : World) :
  loop_head i tid w = Some (tt, w') ->
  isPoolRunning_ (pool w') = isPoolRunning_ (pool w).
Proof.
  rewrite loop_head_eq.
  destruct (taskQue_ (pool w)); [destruct (isPoolRunning_ (pool w)) eqn:Hr|];
    intros [= <-]; simpl; congruence.
Qed.

Lemma exec_keeps_running (a : Action) (w w' : World) :
  exec a w = Some (tt, w') ->
  is_destructor a = false ->
  isPoolRunning_ (pool w) = true ->
  isPoolRunning_ (pool w') = true.
Proof.
  intros Hexec Ha Hr.
  destruct a; try discriminate.
  - by rewrite (setter_running_noop (CallSetMode mode) w w' Hr eq_refl Hexec).
  - by rewrite (setter_running_noop (CallSetTaskQueMaxThreshHold threshhold)
                  w w' Hr eq_refl Hexec).
  - by rewrite (setter_running_noop (CallSetThreadSizeThreshHold threshhold)
                  w w' Hr eq_refl Hexec).
  - simpl in Hexec. rewrite start_eq in Hexec.
    destruct (deref_seq _ _ _); [|discriminate].
    by inversion Hexec; subst.
  - simpl in Hexec. unfold bind in Hexec.
    rewrite (submitTask_eq tt) in Hexec.
    destruct (notFull_pred (pool w));
      [destruct (should_spawn _)|]; inversion Hexec; subst; exact Hr.
  - simpl in Hexec. inversion Hexec; subst. exact Hr.
  - simpl in Hexec. rewrite threadFunc_step_eq in Hexec.
    destruct (os_threads w !! i) as [th|]; [|discriminate].
    destruct (th_phase th).
    + inversion Hexec; subst. exact Hr.
    + apply loop_head_keeps_running in Hexec. by rewrite Hexec.
    + rewrite after_wait_for_eq in Hexec. destruct st.
      * apply loop_head_keeps_running in Hexec. by rewrite Hexec.
      * destruct (should_reclaim _ _ _).
        -- inversion Hexec; subst. exact Hr.
        -- apply loop_head_keeps_running in Hexec. by rewrite Hexec.
    + apply loop_head_keeps_running in Hexec. by rewrite Hexec.
    + inversion Hexec; subst. exact Hr.
    + discriminate.
Qed.

Lemma step_keeps_config (w w' : World) :
  configures w w' \/ services w w' ->
  isPoolRunning_ (pool w) = true ->
  poolMode_ (pool w') = poolMode_ (pool w)
  /\ taskQueMaxThreshHold_ (pool w') = taskQueMaxThreshHold_ (pool w)
  /\ threadSizeThreshHold_ (pool w') = threadSizeThreshHold_ (pool w).
Proof.
  intros [Hc|Hs] Hr.
  - destruct Hc as [ | m Hr' | n Hr' | n Hr' Hm | | n ths Hths ];
      try congruence; repeat split.
  - destruct Hs as [ Hnf | c Hnf Hsp | c Hnf Hsp | | d | i th Hi Hph
                   | i th t Hi Hph | i th w1 w' Hi Hph Hw1 Hho
                   | i th Hi Hph Hrc ];
      try (repeat split; fail).
    destruct Hho as [ph Hq Hr' Hw | Hq Hr' | t q Hq];
      destruct Hw1 as [->| ->]; repeat split.
Qed.

(** Once the pool is running, no run that does not reach the destructor
    changes the mode, the queue limit or the thread limit, and the pool
    is still running at its end: setters, a second [start], submissions
    and workers all leave them alone. *)
Theorem configuration_frozen_while_running
    (acts : list Action) (w w' : World) :
  isPoolRunning_ (pool w) = true ->
  forallb (fun a => negb (is_destructor a)) acts = true ->
  after acts w = Some w' ->
  isPoolRunning_ (pool w') = true
  /\ poolMode_ (pool w') = poolMode_ (pool w)
  /\ taskQueMaxThreshHold_ (pool w') = taskQueMaxThreshHold_ (pool w)
  /\ threadSizeThreshHold_ (pool w') = threadSizeThreshHold_ (pool w).
Proof.
  revert w. induction acts as [|a rest IH]; intros w Hr Hall Hrun.
  - rewrite after_nil in Hrun. inversion Hrun; subst. by repeat split.
  - simpl in Hall. apply andb_true_iff in Hall as [Ha Hall].
    apply negb_true_iff in Ha.
    apply after_cons_inv in Hrun as (w1 & Hexec & Hrest).
    pose proof (exec_keeps_running a w w1 Hexec Ha Hr) as Hr1.
    destruct (step_keeps_config w w1 (exec_step _ _ _ Hexec) Hr)
      as (Hm & Hq & Ht).
    destruct (IH w1 Hr1 Hall Hrest) as (Hr' & Hm' & Hq' & Ht').
    repeat split; congruence.
Qed.

Lemma configuration_frozen_while_running_witness :
  isPoolRunning_ (pool started_world) = true
  /\ exists w',
       after [CallSetMode MODE_CACHED; CallSetThreadSizeThreshHold 7;
              CallSetTaskQueMaxThreshHold 1; CallSubmitTask 1%nat;
              CallStart 1] started_world = Some w'
       /\ poolMode_ (pool w') = MODE_FIXED
       /\ taskQueMaxThreshHold_ (pool w') = TASK_MAX_THRESHHOLD
       /\ threadSizeThreshHold_ (pool w') = THREAD_MAX_THRESHHOLD.
Proof.
  split; [vm_compute; reflexivity|].
  eexists. split; [vm_compute; reflexivity|].
  match goal with |- poolMode_ (pool ?x) = _ /\ _ => set (w' := x) end.
  destruct (configuration_frozen_while_running
              [CallSetMode MODE_CACHED; CallSetThreadSizeThreshHold 7;
               CallSetTaskQueMaxThreshHold 1; CallSubmitTask 1%nat;
               CallStart 1] started_world w')
    as (_ & Hm & Hq & Ht);
    [vm_compute; reflexivity | reflexivity | vm_compute; reflexivity |].
  split; [exact Hm|]. split; [exact Hq | exact Ht].
Defined.

(** ** The order of the configuration calls matters *)

(** On a pool that is not running and still in fixed mode, a thread
    limit given before [setMode(MODE_CACHED)] is dropped with the
    diagnostic, and the pool ends up cached with its old limit; given
    after, it is stored and nothing is printed. *)
Theorem thread_limit_needs_cached_mode_first (t : Z) (w : World) :
  isPoolRunning_ (pool w) = false ->
  poolMode_ (pool w) = MODE_FIXED ->
  (exists w1,
     after [CallSetThreadSizeThreshHold t; CallSetMode MODE_CACHED] w = Some w1
     /\ poolMode_ (pool w1) = MODE_CACHED
     /\ threadSizeThreshHold_ (pool w1) = threadSizeThreshHold_ (pool w)
     /\ events_since w w1 = [Cerr MsgNotCached])
  /\ (exists w2,
        after [CallSetMode MODE_CACHED; CallSetThreadSizeThreshHold t] w = Some w2
        /\ poolMode_ (pool w2) = MODE_CACHED
        /\ threadSizeThreshHold_ (pool w2) = t
        /\ events_since w w2 = []).
Proof.
  intros Hr Hm. split.
  - eexists. split.
    + rewrite after_cons. simpl.
      unfold setThreadSizeThreshHold, checkPoolRunningState. mstep.
      rewrite Hr, Hm. simpl.
      rewrite after_cons. simpl.
      unfold setMode, checkPoolRunningState. mstep.
      rewrite Hr. simpl. reflexivity.
    + simpl. repeat split.
      unfold events_since. simpl. apply drop_app_length.
  - eexists. split.
    + rewrite after_cons. simpl.
      unfold setMode, checkPoolRunningState. mstep. rewrite Hr. simpl.
      rewrite after_cons. simpl.
      unfold setThreadSizeThreshHold, checkPoolRunningState. mstep.
      rewrite Hr. simpl. reflexivity.
    + simpl. repeat split.
      unfold events_since. simpl. apply drop_all.
Qed.

Lemma thread_limit_needs_cached_mode_first_witness :
  (isPoolRunning_ (pool fresh_world) = false
   /\ poolMode_ (pool fresh_world) = MODE_FIXED)
  /\ exists w1,
       after [CallSetThreadSizeThreshHold 8; CallSetMode MODE_CACHED]
         fresh_world = Some w1
       /\ threadSizeThreshHold_ (pool w1) = THREAD_MAX_THRESHHOLD.
Proof.
  split; [split; reflexivity|].
  destruct (thread_limit_needs_cached_mode_first 8 fresh_world eq_refl eq_refl)
    as [(w1 & H1 & _ & H2 & _) _].
  exists w1. split; [exact H1 | exact H2].
Defined.

(** ** A running fixed pool keeps its workers *)

Lemma no_timed_wait_alter (ph : Phase) (i : nat) (l : list OsThread) :
  ph <> WaitingTimed ->
  Forall (fun th => th_phase th <> WaitingTimed) l ->
  Forall (fun th => th_phase th <> WaitingTimed) (alter (with_phase ph) i l).
Proof.
  intros Hph Hl. apply Forall_alter; [exact Hl|]. intros x _ _. exact Hph.
Qed.

Lemma no_timed_wait_lastTime (v : Z) (i : nat) (l : list OsThread) :
  Forall (fun th => th_phase th <> WaitingTimed) l ->
  Forall (fun th => th_phase th <> WaitingTimed) (alter (with_lastTime v) i l).
Proof.
  intros Hl. apply Forall_alter; [exact Hl|]. intros x _ Hx. exact Hx.
Qed.

Lemma loop_head_fixed (i : nat) (tid : Z) (w w' : World) :
  poolMode_ (pool w) = MODE_FIXED ->
  isPoolRunning_ (pool w) = true ->
  no_timed_wait w ->
  loop_head i tid w = Some (tt, w') ->
  fixed_step w w'.
Proof.
  intros Hm Hr Hno. rewrite loop_head_eq, Hr, Hm.
  destruct (taskQue_ (pool w)) as [|t q]; intros [= <-].
  - constructor; try reflexivity; try exact Hm.
    + apply no_timed_wait_alter; [discriminate | exact Hno].
    + exists []. split; [simpl; by rewrite app_nil_r | reflexivity].
  - constructor; try reflexivity; try exact Hm.
    + apply no_timed_wait_alter; [discriminate | exact Hno].
    + eexists. split; [reflexivity|].
      destruct (0 <? length q)%nat; reflexivity.
Qed.

Lemma fixed_step_same (w : World) :
  poolMode_ (pool w) = MODE_FIXED -> no_timed_wait w -> fixed_step w w.
Proof.
  intros Hm Hno. constructor; try reflexivity; try assumption.
  exists []. split; [by rewrite app_nil_r | reflexivity].
Qed.

Lemma exec_fixed_pool (a : Action) (w w' : World) :
  poolMode_ (pool w) = MODE_FIXED ->
  isPoolRunning_ (pool w) = true ->
  no_timed_wait w ->
  is_start a = false ->
  exec a w = Some (tt, w') ->
  fixed_step w w'.
Proof.
  intros Hm Hr Hno Ha Hexec.
  destruct a; try discriminate.
  - rewrite (setter_running_noop (CallSetMode mode) w w' Hr eq_refl Hexec).
    by apply fixed_step_same.
  - rewrite (setter_running_noop (CallSetTaskQueMaxThreshHold threshhold)
               w w' Hr eq_refl Hexec). by apply fixed_step_same.
  - rewrite (setter_running_noop (CallSetThreadSizeThreshHold threshhold)
               w w' Hr eq_refl Hexec). by apply fixed_step_same.
  - simpl in Hexec. unfold bind in Hexec.
    rewrite (submitTask_eq tt) in Hexec.
    assert (Hsp : should_spawn (pool (enqueued_world func w)) = false).
    { unfold should_spawn. simpl. rewrite Hm.
      rewrite bool_decide_eq_false_2 by discriminate. reflexivity. }
    rewrite Hsp in Hexec.
    destruct (notFull_pred (pool w)); inversion Hexec; subst;
      (constructor; try reflexivity; try assumption);
      (eexists; split; [reflexivity | reflexivity]).
  - simpl in Hexec. inversion Hexec; subst.
    constructor; try reflexivity; try assumption.
    eexists; split; [reflexivity | reflexivity].
  - simpl in Hexec. inversion Hexec; subst.
    constructor; try reflexivity; try assumption.
    exists []. split; [simpl; by rewrite app_nil_r | reflexivity].
  - simpl in Hexec. rewrite threadFunc_step_eq in Hexec.
    destruct (os_threads w !! i) as [th|] eqn:Hi; [|discriminate].
    destruct (th_phase th) eqn:Hph.
    + inversion Hexec; subst.
      constructor; try reflexivity; try assumption.
      * apply no_timed_wait_alter; [discriminate|].
        by apply no_timed_wait_lastTime.
      * exists []. split; [simpl; by rewrite app_nil_r | reflexivity].
    + apply loop_head_fixed in Hexec; try assumption.
      destruct Hexec as [H1 H2 H3 H4 (evs & He & Hl)].
      constructor; try assumption.
      exists ([Cout MsgTryTask] ++ evs). split; [|exact Hl].
      rewrite He. simpl. by rewrite <- app_assoc.
    + exfalso. unfold no_timed_wait in Hno.
      rewrite Forall_lookup in Hno. by apply (Hno _ _ Hi).
    + by apply loop_head_fixed in Hexec.
    + inversion Hexec; subst.
      constructor; try reflexivity; try assumption.
      * apply no_timed_wait_alter; [discriminate|].
        by apply no_timed_wait_lastTime.
      * eexists. split; [reflexivity | reflexivity].
    + discriminate.
Qed.

Lemma run_fixed_pool (acts : list Action) (w w' : World) :
  poolMode_ (pool w) = MODE_FIXED ->
  isPoolRunning_ (pool w) = true ->
  no_timed_wait w ->
  forallb (fun a => negb (is_destructor a) && negb (is_start a)) acts = true ->
  after acts w = Some w' ->
  isPoolRunning_ (pool w') = true /\ fixed_step w w'.
Proof.
  revert w. induction acts as [|a rest IH]; intros w Hm Hr Hno Hall Hrun.
  - rewrite after_nil in Hrun. inversion Hrun; subst.
    split; [exact Hr | by apply fixed_step_same].
  - simpl in Hall. apply andb_true_iff in Hall as [Ha Hall].
    apply andb_true_iff in Ha as [Hd Hst].
    apply negb_true_iff in Hd. apply negb_true_iff in Hst.
    apply after_cons_inv in Hrun as (w1 & Hexec & Hrest).
    pose proof (exec_keeps_running a w w1 Hexec Hd Hr) as Hr1.
    destruct (exec_fixed_pool a w w1 Hm Hr Hno Hst Hexec)
      as [Ht1 Hc1 Hm1 Hno1 (e1 & He1 & Hl1)].
    destruct (IH w1 Hm1 Hr1 Hno1 Hall Hrest)
      as (Hr' & [Ht' Hc' Hm' Hno' (e2 & He2 & Hl2)]).
    split; [exact Hr'|]. split; try congruence.
    exists (e1 ++ e2). split; [by rewrite He2, He1, app_assoc|].
    by rewrite launches_app, Hl1, Hl2.
Qed.

(** In fixed mode, as long as the pool runs and [start] is not called
    again, the live map and [curThreadSize_] stay exactly as they are
    through any run: no submission spawns a worker, no worker is
    reclaimed or exits, no thread is launched and no worker enters the
    timed wait. *)
Theorem fixed_pool_keeps_its_workers (acts : list Action) (w w' : World) :
  poolMode_ (pool w) = MODE_FIXED ->
  isPoolRunning_ (pool w) = true ->
  no_timed_wait w ->
  forallb (fun a => negb (is_destructor a) && negb (is_start a)) acts = true ->
  after acts w = Some w' ->
  threads_ (pool w') = threads_ (pool w)
  /\ curThreadSize_ (pool w') = curThreadSize_ (pool w)
  /\ launches (events_since w w') = []
  /\ no_timed_wait w'.
Proof.
  intros Hm Hr Hno Hall Hrun.
  destruct (run_fixed_pool acts w w' Hm Hr Hno Hall Hrun)
    as (_ & [Ht Hc _ Hno' (evs & He & Hl)]).
  split; [exact Ht|]. split; [exact Hc|]. split; [|exact Hno'].
  by rewrite (events_since_app _ _ _ He).
Qed.

Lemma fixed_pool_keeps_its_workers_witness :
  (poolMode_ (pool started_world) = MODE_FIXED
   /\ isPoolRunning_ (pool started_world) = true
   /\ no_timed_wait started_world)
  /\ exists w',
       after [CallSubmitTask 1%nat; WorkerStep 0 no_timeout;
              WorkerStep 0 no_timeout; WorkerStep 1 no_timeout;
              WorkerStep 1 timeout; WorkerStep 0 no_timeout]
         started_world = Some w'
       /\ threads_ (pool w') = threads_ (pool started_world)
       /\ curThreadSize_ (pool w') = 2.
Proof.
  assert (Hno : no_timed_wait started_world).
  { unfold no_timed_wait. vm_compute.
    repeat constructor; discriminate. }
  split; [split; [vm_compute; reflexivity|];
          split; [vm_compute; reflexivity | exact Hno]|].
  eexists. split; [vm_compute; reflexivity|].
  match goal with |- threads_ (pool ?x) = _ /\ _ => set (w' := x) end.
  destruct (fixed_pool_keeps_its_workers
              [CallSubmitTask 1%nat; WorkerStep 0 no_timeout;
               WorkerStep 0 no_timeout; WorkerStep 1 no_timeout;
               WorkerStep 1 timeout; WorkerStep 0 no_timeout]
              started_world w')
    as (Ht & Hc & _);
    [vm_compute; reflexivity | vm_compute; reflexivity | exact Hno
     | reflexivity | vm_compute; reflexivity |].
  split; [exact Ht | exact Hc].
Defined.

(** ** The pool never shrinks below its initial size *)

Lemma configured_init (w : World) :
  configured w -> initThreadSize_ (pool w) = 0.
Proof.
  induction 1 as [ | w m w' Hc IH Hset | w n w' Hc IH Hn Hset
                 | w n w' Hc IH Hn Hset ]; [reflexivity| | |];
    destruct (configured_has_shape w Hc) as [_ _ _ _ _ _ _ Hr _ _];
    revert Hset;
    unfold setMode, setTaskQueMaxThreshHold, setThreadSizeThreshHold,
           checkPoolRunningState; mstep; rewrite Hr;
    try destruct (decide _); intros [= <-]; exact IH.
Qed.

Lemma services_floor (w w' : World) :
  services w w' -> serving_inv w ->
  initThreadSize_ (pool w) <= curThreadSize_ (pool w) ->
  initThreadSize_ (pool w') <= curThreadSize_ (pool w').
Proof.
  intros Hs Hinv Hfl.
  pose proof (serving_inv_idle_bounds _ Hinv) as Hidle.
  destruct Hs as [ Hnf | c Hnf Hsp | c Hnf Hsp | | d | i th Hi Hph
                 | i th t Hi Hph | i th w1 w' Hi Hph Hw1 Hho
                 | i th Hi Hph Hrc ]; try exact Hfl.
  - unfold should_spawn in Hsp.
    apply andb_true_iff in Hsp as [_ Hcur]. apply Z.ltb_lt in Hcur.
    destruct Hinv as [_ _ _ _ _ Hth Hcm _].
    simpl in *.
    rewrite IntFacts.atomic_inc_succ;
      unfold Int.int_min, Int.int_max in *; lia.
  - destruct Hho as [ph Hq Hr Hw | Hq Hr | t q Hq];
      destruct Hw1 as [->| ->]; exact Hfl.
  - unfold should_reclaim in Hrc.
    apply andb_true_iff in Hrc as [_ Hgt]. apply Z.ltb_lt in Hgt.
    destruct Hinv as [_ _ _ _ _ _ Hcm _].
    simpl.
    rewrite IntFacts.atomic_dec_pred;
      unfold Int.int_min, Int.int_max in *; lia.
Qed.

(** For a well-behaved client (see [reachable]) the number of workers
    never falls below the initial size: spawning only adds, and
    reclamation stops at [initThreadSize_]. *)
Theorem pool_never_below_initial_size (w : World) :
  reachable w -> initThreadSize_ (pool w) <= curThreadSize_ (pool w).
Proof.
  induction 1 as [ w Hc | w n w' Hc Hn Hmax Hs | w a w' Hr IH Ha Hexec
                 | w a w' Hr IH Hrun Ha Hexec ].
  - rewrite (configured_init w Hc).
    destruct (configured_has_shape w Hc) as [_ _ _ Hcur _ _ _ _ _ _]. lia.
  - rewrite start_eq in Hs.
    destruct (deref_seq _ _ _); [|discriminate].
    inversion Hs; subst. simpl. lia.
  - eapply services_floor; [|exact (reachable_inv w Hr)|exact IH].
    eapply exec_services; eassumption.
  - by rewrite (setter_running_noop a w w' Hrun Ha Hexec).
Qed.

Lemma pool_never_below_initial_size_witness :
  reachable reclaimed_once_world
  /\ initThreadSize_ (pool reclaimed_once_world) = 1
  /\ curThreadSize_ (pool reclaimed_once_world) = 1
  /\ initThreadSize_ (pool reclaimed_once_world)
     <= curThreadSize_ (pool reclaimed_once_world).
Proof.
  assert (Hr : reachable reclaimed_once_world).
  { apply (reachable_run
             (drop 2 grow_then_idle ++ [WorkerStep 1 timeout])
             (world_after [CallSetMode MODE_CACHED; CallStart 1])).
    - apply (reachable_start (world_after [CallSetMode MODE_CACHED]) 1).
      + apply (configured_setMode fresh_world MODE_CACHED);
          [exact configured_fresh | vm_compute; reflexivity].
      + unfold Int.int_max. lia.
      + intros _. vm_compute. discriminate.
      + vm_compute. reflexivity.
    - vm_compute. reflexivity.
    - vm_compute. reflexivity. }
  split; [exact Hr|].
  split; [vm_compute; reflexivity|].
  split; [vm_compute; reflexivity|].
  exact (pool_never_below_initial_size reclaimed_once_world Hr).
Defined.

(** ** Every task runs at most once *)

Lemma executing_tasks_app (l1 l2 : list OsThread) :
  executing_tasks (l1 ++ l2) = executing_tasks l1 ++ executing_tasks l2.
Proof. apply omap_app. Qed.

Lemma executing_tasks_new (ths : list Thread) :
  executing_tasks (map new_thread ths) = [].
Proof. induction ths as [|t ths IH]; [reflexivity | exact IH]. Qed.

Lemma user_invoked_launches (ths : list Thread) :
  user_invoked (map (fun t => Launch (threadId_ t)) ths) = [].
Proof. induction ths as [|t ths IH]; [reflexivity | exact IH]. Qed.

Lemma executing_tasks_cons (x : OsThread) (l : list OsThread) :
  executing_tasks (x :: l) = task_of x ++ executing_tasks l.
Proof.
  unfold executing_tasks, task_of. simpl. by destruct (th_phase x).
Qed.

Lemma alter_head (f : OsThread -> OsThread) (x : OsThread) (l : list OsThread) :
  alter f 0%nat (x :: l) = f x :: l.
Proof. reflexivity. Qed.

Lemma alter_tail (f : OsThread -> OsThread) (i : nat) (x : OsThread)
    (l : list OsThread) :
  alter f (S i) (x :: l) = x :: alter f i l.
Proof. reflexivity. Qed.

Lemma executing_tasks_lastTime (v : Z) (i : nat) (l : list OsThread) :
  executing_tasks (alter (with_lastTime v) i l) = executing_tasks l.
Proof.
  revert i. induction l as [|x l IH]; intros [|i]; try reflexivity.
  rewrite alter_tail, !executing_tasks_cons, IH. reflexivity.
Qed.

Lemma executing_tasks_idle (ph : Phase) (i : nat) (l : list OsThread)
    (x : OsThread) :
  l !! i = Some x ->
  is_executing (th_phase x) = false -> is_executing ph = false ->
  executing_tasks (alter (with_phase ph) i l) = executing_tasks l.
Proof.
  revert i. induction l as [|y l IH]; intros [|i] Hi Hx Hph;
    try discriminate; simpl in Hi.
  - inversion Hi; subst. rewrite alter_head, !executing_tasks_cons.
    f_equal. unfold task_of. simpl.
    destruct (th_phase x), ph; try discriminate; reflexivity.
  - rewrite alter_tail, !executing_tasks_cons, (IH i Hi Hx Hph).
    reflexivity.
Qed.

Lemma executing_tasks_enter (t : Task) (i : nat) (l : list OsThread)
    (x : OsThread) :
  l !! i = Some x ->
  is_executing (th_phase x) = false ->
  executing_tasks (alter (with_phase (Executing t)) i l)
  ≡ₚ t :: executing_tasks l.
Proof.
  revert i. induction l as [|y l IH]; intros [|i] Hi Hx;
    try discriminate; simpl in Hi.
  - inversion Hi; subst. rewrite alter_head, !executing_tasks_cons.
    unfold task_of. simpl.
    destruct (th_phase x); try discriminate; reflexivity.
  - rewrite alter_tail, !executing_tasks_cons, (IH i Hi Hx).
    symmetry. apply Permutation_middle.
Qed.

Lemma executing_tasks_leave (t : Task) (ph : Phase) (i : nat)
    (l : list OsThread) (x : OsThread) :
  l !! i = Some x ->
  th_phase x = Executing t -> is_executing ph = false ->
  t :: executing_tasks (alter (with_phase ph) i l) ≡ₚ executing_tasks l.
Proof.
  revert i. induction l as [|y l IH]; intros [|i] Hi Hx Hph;
    try discriminate; simpl in Hi.
  - inversion Hi; subst. rewrite alter_head, !executing_tasks_cons.
    unfold task_of. simpl. rewrite Hx.
    destruct ph; try discriminate; reflexivity.
  - rewrite alter_tail, !executing_tasks_cons, <- (IH i Hi Hx Hph).
    apply Permutation_middle.
Qed.

Lemma at_head_idle (ph : Phase) : at_head ph -> is_executing ph = false.
Proof. intros [->|[->| ->]]; reflexivity. Qed.

Lemma head_outcome_tasks (i : nat) (th : OsThread) (w w' : World) :
  os_threads w !! i = Some th -> at_head (th_phase th) ->
  head_outcome i (th_id th) w w' ->
  exists evs, step_tasks w w' evs.
Proof.
  intros Hi Hph Hho. apply at_head_idle in Hph.
  destruct Hho as [ph Hq Hr Hw | Hq Hr | t q Hq].
  - exists []. split; [simpl; by rewrite app_nil_r|].
    simpl. rewrite app_nil_r.
    rewrite (executing_tasks_idle ph i _ th Hi Hph); [reflexivity|].
    destruct Hw as [->| ->]; reflexivity.
  - eexists. split; [reflexivity|].
    simpl. rewrite app_nil_r.
    by rewrite (executing_tasks_idle Terminated i _ th Hi Hph).
  - eexists. split; [reflexivity|].
    simpl. rewrite (executing_tasks_enter t i _ th Hi Hph).
    destruct (0 <? length q)%nat; simpl; apply Permutation_cons_append.
Qed.

Lemma configures_tasks (w w' : World) :
  configures w w' -> exists evs, step_tasks w w' evs.
Proof.
  destruct 1 as [ | m Hr | n Hr | n Hr Hm | | n ths Hths ].
  1-4: (exists []; split; simpl; by rewrite ?app_nil_r).
  - eexists. split; [reflexivity|]. simpl. by rewrite app_nil_r.
  - eexists. split; [reflexivity|]. simpl.
    rewrite user_invoked_launches, executing_tasks_app, executing_tasks_new.
    destruct (queue_events_of_launches ths) as (_ & -> & _). reflexivity.
Qed.

Lemma services_tasks (w w' : World) :
  services w w' -> exists evs, step_tasks w w' evs.
Proof.
  destruct 1 as [ Hnf | c Hnf Hsp | c Hnf Hsp | | d | i th Hi Hph
                | i th t Hi Hph | i th w1 w' Hi Hph Hw1 Hho
                | i th Hi Hph Hrc ].
  - eexists. split; [reflexivity|]. simpl. by rewrite app_nil_r.
  - eexists. split; [reflexivity|]. simpl. by rewrite app_nil_r.
  - eexists. split; [simpl; rewrite <- app_assoc; reflexivity|].
    simpl. rewrite executing_tasks_app. simpl. by rewrite !app_nil_r.
  - eexists. split; [reflexivity|]. simpl. by rewrite app_nil_r.
  - exists []. split; simpl; by rewrite ?app_nil_r.
  - exists []. split; [simpl; by rewrite app_nil_r|].
    simpl. rewrite app_nil_r.
    rewrite (executing_tasks_idle AtLock i _ (with_lastTime (clock w) th)).
    + by rewrite executing_tasks_lastTime.
    + by rewrite list_lookup_alter_eq, Hi.
    + simpl. by rewrite Hph.
    + reflexivity.
  - eexists. split; [reflexivity|].
    simpl. rewrite app_nil_r.
    rewrite (executing_tasks_leave t AtLock i _ (with_lastTime (clock w) th)).
    + by rewrite executing_tasks_lastTime.
    + by rewrite list_lookup_alter_eq, Hi.
    + exact Hph.
    + reflexivity.
  - destruct Hw1 as [->| ->].
    + eapply head_outcome_tasks; eassumption.
    + destruct (head_outcome_tasks i th
                  (with_events (fun l => l ++ [Cout MsgTryTask]) w) w'
                  Hi Hph Hho) as [evs [He Ht]].
      exists ([Cout MsgTryTask] ++ evs). split.
      * rewrite He. simpl. by rewrite <- app_assoc.
      * exact Ht.
  - eexists. split; [reflexivity|].
    simpl. rewrite app_nil_r.
    rewrite (executing_tasks_idle Terminated i _ th Hi); [reflexivity| |reflexivity].
    by rewrite Hph.
Qed.

Lemma run_tasks (acts : list Action) (w w' : World) :
  after acts w = Some w' -> exists evs, step_tasks w w' evs.
Proof.
  revert w. induction acts as [|a rest IH]; intros w Hrun.
  - rewrite after_nil in Hrun. inversion Hrun; subst.
    exists []. split; simpl; by rewrite ?app_nil_r.
  - apply after_cons_inv in Hrun as (w1 & Hexec & Hrest).
    assert (H1 : exists evs, step_tasks w w1 evs).
    { destruct (exec_step _ _ _ Hexec);
        [by apply configures_tasks | by apply services_tasks]. }
    destruct H1 as [e1 [He1 Ht1]].
    destruct (IH _ Hrest) as [e2 [He2 Ht2]].
    exists (e1 ++ e2). split.
    + rewrite He2, He1. by rewrite app_assoc.
    + rewrite user_invoked_app, dequeued_app.
      rewrite <- app_assoc, Ht2, !app_assoc. by rewrite Ht1.
Qed.

(** In every run, the callables invoked, together with the tasks that
    executing threads still hold, are exactly (as multisets) the tasks
    that were being executed at the start together with those dequeued
    since: no claimed task is lost and none runs twice.  Starting with
    no task in execution, what has run is therefore part of what was
    queued at the start or has been enqueued since. *)
Theorem tasks_run_at_most_once (acts : list Action) (w w' : World) :
  after acts w = Some w' ->
  (user_invoked (events_since w w') ++ executing_tasks (os_threads w')
   ≡ₚ executing_tasks (os_threads w) ++ dequeued (events_since w w'))
  /\ (executing_tasks (os_threads w) = [] ->
      user_invoked (events_since w w')
      ⊆+ taskQue_ (pool w) ++ enqueued (events_since w w')).
Proof.
  intros Hrun.
  destruct (run_tasks acts w w' Hrun) as [evs [He Ht]].
  destruct (run_fifo acts w w' Hrun) as [evs' [He' Hq]].
  rewrite (events_since_app _ _ _ He).
  assert (evs' = evs) as ->.
  { rewrite He in He'. by apply app_inv_head in He'. }
  split; [exact Ht|].
  intros Hnone. rewrite Hnone in Ht. simpl in Ht.
  rewrite <- Hq.
  apply submseteq_inserts_r.
  rewrite <- Ht. apply submseteq_inserts_r. reflexivity.
Qed.

Lemma tasks_run_at_most_once_witness :
  exists w',
    after main_run fresh_world = Some w'
    /\ user_invoked (events_since fresh_world w') ≡ₚ [1; 2; 3; 4; 5]%nat.
Proof.
  eexists. split; [vm_compute; reflexivity|].
  match goal with |- user_invoked (events_since _ ?x) ≡ₚ _ => set (w' := x) end.
  destruct (tasks_run_at_most_once main_run fresh_world w') as [Hperm _];
    [vm_compute; reflexivity|].
  assert (Hex : executing_tasks (os_threads w') = []) by (vm_compute; reflexivity).
  assert (Hdq : dequeued (events_since fresh_world w') = [1; 2; 3; 4; 5]%nat)
    by (vm_compute; reflexivity).
  rewrite Hex, Hdq, app_nil_r in Hperm. exact Hperm.
Defined.

(** ** Growth follows the submissions *)

Lemma head_outcome_growth (i : nat) (tid : Z) (w w' : World) :
  head_outcome i tid w w' -> exists evs, step_growth w w' evs.
Proof.
  destruct 1 as [ph Hq Hr Hw | Hq Hr | t q Hq].
  - exists []. split; simpl; try lia; [by rewrite app_nil_r|].
    by rewrite Z.sub_diag.
  - eexists. split; [reflexivity| simpl; lia | | simpl; lia].
    simpl. by rewrite Z.sub_diag.
  - eexists. split; [reflexivity| simpl; lia | | ].
    + simpl. rewrite Z.sub_diag. by destruct (0 <? length q)%nat.
    + destruct (0 <? length q)%nat; simpl; lia.
Qed.

Lemma services_growth (w w' : World) :
  services w w' -> ids_below_counter w ->
  exists evs, step_growth w w' evs.
Proof.
  intros Hs Hwf.
  destruct Hs as [ Hnf | c Hnf Hsp | c Hnf Hsp | | d | i th Hi Hph
                 | i th t Hi Hph | i th w1 w' Hi Hph Hw1 Hho
                 | i th Hi Hph Hrc ].
  - eexists. split; [reflexivity| simpl; lia | | simpl; lia].
    simpl. by rewrite Z.sub_diag.
  - eexists. split; [reflexivity| simpl; lia | | simpl; lia].
    simpl. by rewrite Z.sub_diag.
  - assert (Hfresh : threads_ (pool w) !! generateId_ w = None).
    { destruct (threads_ (pool w) !! generateId_ w) eqn:E; [|reflexivity].
      apply Hwf in E as [_ E]. lia. }
    rewrite Hfresh. simpl.
    eexists. split; [simpl; rewrite <- app_assoc; reflexivity| simpl; lia | | simpl; lia].
    simpl. replace (generateId_ w + 1 - generateId_ w) with 1 by lia.
    reflexivity.
  - eexists. split; [reflexivity| simpl; lia | | simpl; lia].
    simpl. by rewrite Z.sub_diag.
  - exists []. split; simpl; try lia; [by rewrite app_nil_r|].
    by rewrite Z.sub_diag.
  - exists []. split; simpl; try lia; [by rewrite app_nil_r|].
    by rewrite Z.sub_diag.
  - eexists. split; [reflexivity| simpl; lia | | simpl; lia].
    simpl. by rewrite Z.sub_diag.
  - destruct (head_outcome_growth _ _ _ _ Hho) as [evs [He Hg Hl Hb]].
    destruct Hw1 as [->| ->].
    + exists evs. by split.
    + exists ([Cout MsgTryTask] ++ evs). split.
      * rewrite He. simpl. by rewrite <- app_assoc.
      * exact Hg.
      * exact Hl.
      * exact Hb.
  - eexists. split; [reflexivity| simpl; lia | | simpl; lia].
    simpl. by rewrite Z.sub_diag.
Qed.

Lemma run_growth (acts : list Action) (w w' : World) :
  forallb service_action acts = true ->
  0 <= generateId_ w -> ids_below_counter w ->
  after acts w = Some w' ->
  exists evs, step_growth w w' evs.
Proof.
  revert w. induction acts as [|a rest IH]; intros w Hall Hg Hwf Hrun.
  - rewrite after_nil in Hrun. inversion Hrun; subst.
    exists []. split; simpl; try lia; [by rewrite app_nil_r|].
    by rewrite Z.sub_diag.
  - simpl in Hall. apply andb_true_iff in Hall as [Ha Hall].
    apply after_cons_inv in Hrun as (w1 & Hexec & Hrest).
    pose proof (exec_services a w w1 Ha Hexec) as Hs.
    destruct (services_growth w w1 Hs Hwf) as [e1 [He1 Hg1 Hl1 Hb1]].
    destruct (services_ids w w1 Hs Hg Hwf) as [Hg1' Hwf1].
    destruct (IH w1 Hall Hg1' Hwf1 Hrest) as [e2 [He2 Hg2 Hl2 Hb2]].
    exists (e1 ++ e2). split.
    + rewrite He2, He1. by rewrite app_assoc.
    + lia.
    + rewrite launches_app, Hl1, Hl2.
      replace (generateId_ w' - generateId_ w)
        with ((generateId_ w1 - generateId_ w) + (generateId_ w' - generateId_ w1))
        by lia.
      rewrite seqZ_app by lia. do 2 f_equal. lia.
    + rewrite launches_app, enqueued_app, !length_app. lia.
Qed.

(** Between calls of [start], the workers spawned by submissions get the
    consecutive ids from the counter's old value up to its new one, each
    launched exactly once and in that order, and there are never more of
    them than accepted submissions. *)
Theorem growth_follows_submissions (acts : list Action) (w w' : World) :
  forallb service_action acts = true ->
  0 <= generateId_ w -> ids_below_counter w ->
  after acts w = Some w' ->
  launches (events_since w w')
  = seqZ (generateId_ w) (generateId_ w' - generateId_ w)
  /\ NoDup (launches (events_since w w'))
  /\ (length (launches (events_since w w'))
      <= length (enqueued (events_since w w')))%nat.
Proof.
  intros Hall Hg Hwf Hrun.
  destruct (run_growth acts w w' Hall Hg Hwf Hrun) as [evs [He _ Hl Hb]].
  rewrite (events_since_app _ _ _ He), Hl.
  split; [reflexivity|]. split; [apply NoDup_seqZ|].
  rewrite <- Hl. exact Hb.
Qed.

Lemma growth_follows_submissions_witness :
  (0 <= generateId_ cached_busy_world /\ ids_below_counter cached_busy_world)
  /\ exists w',
       after [CallSubmitTask 2%nat; CallSubmitTask 3%nat; CallSubmitTask 4%nat]
         cached_busy_world = Some w'
       /\ launches (events_since cached_busy_world w') = [1; 2; 3].
Proof.
  assert (Hwf : 0 <= generateId_ cached_busy_world
                /\ ids_below_counter cached_busy_world).
  { apply (run_ids_below_counter
             [CallSetMode MODE_CACHED; CallStart 1; CallSubmitTask 1%nat]
             fresh_world cached_busy_world);
      [vm_compute; reflexivity | simpl; lia | exact fresh_world_ids]. }
  split; [exact Hwf|].
  eexists. split; [vm_compute; reflexivity|].
  match goal with |- launches (events_since _ ?x) = _ => set (w' := x) end.
  destruct (growth_follows_submissions
              [CallSubmitTask 2%nat; CallSubmitTask 3%nat; CallSubmitTask 4%nat]
              cached_busy_world w') as (Hl & _);
    [reflexivity | apply Hwf | apply Hwf | vm_compute; reflexivity |].
  rewrite Hl. vm_compute. reflexivity.
Defined.

(** ** The queue limit *)

Lemma head_outcome_queue (i : nat) (tid : Z) (w w' : World) :
  head_outcome i tid w w' ->
  taskQueMaxThreshHold_ (pool w') = taskQueMaxThreshHold_ (pool w)
  /\ (length (taskQue_ (pool w')) <= length (taskQue_ (pool w)))%nat.
Proof.
  destruct 1 as [ph Hq Hr Hw | Hq Hr | t q Hq]; simpl; try (split; [reflexivity|lia]).
  rewrite Hq. simpl. rewrite drop_0. split; [reflexivity|lia].
Qed.

Lemma services_queue (w w' : World) :
  services w w' ->
  taskQueMaxThreshHold_ (pool w') = taskQueMaxThreshHold_ (pool w)
  /\ Z.of_nat (length (taskQue_ (pool w')))
     <= Z.max (Z.of_nat (length (taskQue_ (pool w))))
              (Int.to_size_t (taskQueMaxThreshHold_ (pool w))).
Proof.
  destruct 1 as [ Hnf | c Hnf Hsp | c Hnf Hsp | | d | i th Hi Hph
                | i th t Hi Hph | i th w1 w' Hi Hph Hw1 Hho
                | i th Hi Hph Hrc ];
    try (split; [reflexivity | simpl; lia]).
  - unfold notFull_pred in Hnf. apply Z.ltb_lt in Hnf.
    split; [reflexivity|]. simpl. rewrite length_app. simpl. lia.
  - unfold notFull_pred in Hnf. apply Z.ltb_lt in Hnf.
    split; [reflexivity|]. simpl. rewrite length_app. simpl. lia.
  - destruct (head_outcome_queue _ _ _ _ Hho) as [Ht Hl].
    destruct Hw1 as [->| ->]; simpl in *; split; try exact Ht; lia.
Qed.

(** Submissions, workers, the clock and the destructor never change the
    queue limit, and never make the queue longer than the larger of its
    present length and the limit as [submitTask] reads it, [(size_t)]
    of the stored [int]. *)
Theorem queue_stays_within_limit (acts : list Action) (w w' : World) :
  forallb service_action acts = true ->
  after acts w = Some w' ->
  taskQueMaxThreshHold_ (pool w') = taskQueMaxThreshHold_ (pool w)
  /\ Z.of_nat (length (taskQue_ (pool w')))
     <= Z.max (Z.of_nat (length (taskQue_ (pool w))))
              (Int.to_size_t (taskQueMaxThreshHold_ (pool w))).
Proof.
  revert w. induction acts as [|a rest IH]; intros w Hall Hrun.
  - rewrite after_nil in Hrun. inversion Hrun; subst. split; [reflexivity|lia].
  - simpl in Hall. apply andb_true_iff in Hall as [Ha Hall].
    apply after_cons_inv in Hrun as (w1 & Hexec & Hrest).
    destruct (services_queue w w1 (exec_services a w w1 Ha Hexec)) as [Ht1 Hl1].
    destruct (IH w1 Hall Hrest) as [Ht' Hl'].
    rewrite Ht1 in Ht', Hl'. split; [exact Ht'|]. lia.
Qed.

Lemma queue_stays_within_limit_witness :
  exists w',
    after [CallSubmitTask 2%nat; CallSubmitTask 3%nat; WorkerStep 0 no_timeout]
      full_queue_world = Some w'
    /\ Z.of_nat (length (taskQue_ (pool w'))) <= 1.
Proof.
  eexists. split; [vm_compute; reflexivity|].
  match goal with |- Z.of_nat (length (taskQue_ (pool ?x))) <= _ =>
    set (w' := x) end.
  destruct (queue_stays_within_limit
              [CallSubmitTask 2%nat; CallSubmitTask 3%nat;
               WorkerStep 0 no_timeout] full_queue_world w') as [_ Hl];
    [reflexivity | vm_compute; reflexivity |].
  exact Hl.
Defined.

(** A limit of 0 rejects every submission.  A negative limit [t] is read
    as [2^64 + t]: every submission is accepted while the queue is
    shorter than that, so the queue may hold more tasks than the stored
    limit says. *)
Theorem queue_limit_zero_and_negative
    {R : Type} (Rtype_ctor : R) (func : Callable) (w : World) :
  (taskQueMaxThreshHold_ (pool w) = 0 ->
     exists w',
       submitTask Rtype_ctor func w = Some (Ready Rtype_ctor, w')
       /\ taskQue_ (pool w') = taskQue_ (pool w))
  /\ (Int.int_min <= taskQueMaxThreshHold_ (pool w) < 0 ->
      Z.of_nat (length (taskQue_ (pool w)))
        < 2 ^ 64 + taskQueMaxThreshHold_ (pool w) ->
      exists w',
        submitTask Rtype_ctor func w = Some (Pending func, w')
        /\ taskQue_ (pool w') = taskQue_ (pool w) ++ [func]
        /\ taskQueMaxThreshHold_ (pool w')
           < Z.of_nat (length (taskQue_ (pool w')))).
Proof.
  split.
  - intros H0.
    assert (Hnf : notFull_pred (pool w) = false).
    { unfold notFull_pred. rewrite H0. apply Z.ltb_ge.
      unfold Int.to_size_t. rewrite Z.mod_0_l by lia. lia. }
    rewrite submitTask_eq, Hnf. eexists. split; reflexivity.
  - intros Hneg Hlen.
    assert (Hnf : notFull_pred (pool w) = true).
    { unfold notFull_pred. apply Z.ltb_lt. unfold Int.to_size_t.
      replace (taskQueMaxThreshHold_ (pool w) mod 2 ^ 64)
        with (2 ^ 64 + taskQueMaxThreshHold_ (pool w)); [exact Hlen|].
      apply Z.mod_unique with (q := -1);
        unfold Int.int_min in Hneg; lia. }
    rewrite submitTask_eq, Hnf.
    destruct (should_spawn _); eexists; (split; [reflexivity|]); simpl;
      (split; [reflexivity|]); rewrite length_app; simpl; lia.
Qed.

Lemma queue_limit_zero_and_negative_witness :
  (Int.int_min <= taskQueMaxThreshHold_ (pool unlimited_world) < 0
   /\ Z.of_nat (length (taskQue_ (pool unlimited_world)))
      < 2 ^ 64 + taskQueMaxThreshHold_ (pool unlimited_world))
  /\ exists w',
       submitTask tt 3%nat unlimited_world = Some (Pending 3%nat, w')
       /\ taskQue_ (pool w') = [1; 2; 3]%nat.
Proof.
  assert (H1 : Int.int_min <= taskQueMaxThreshHold_ (pool unlimited_world) < 0).
  { vm_compute. split; [discriminate | reflexivity]. }
  assert (H2 : Z.of_nat (length (taskQue_ (pool unlimited_world)))
               < 2 ^ 64 + taskQueMaxThreshHold_ (pool unlimited_world)).
  { vm_compute. reflexivity. }
  split; [split; [exact H1 | exact H2]|].
  destruct (queue_limit_zero_and_negative tt 3%nat unlimited_world)
    as [_ Hneg].
  destruct (Hneg H1 H2) as (w' & Hs & Hq & _).
  exists w'. split; [exact Hs | exact Hq].
Defined.

(** ** Shutdown *)

Lemma covered_alter (f : OsThread -> OsThread) (i : nat) (l : list OsThread)
    (k : Z) :
  (forall x, th_id (f x) = th_id x) ->
  (forall x, is_alive (th_phase x) = true -> is_alive (th_phase (f x)) = true) ->
  (exists j th, l !! j = Some th /\ th_id th = k
                /\ is_alive (th_phase th) = true) ->
  exists j th, alter f i l !! j = Some th /\ th_id th = k
               /\ is_alive (th_phase th) = true.
Proof.
  intros Hid Hal (j & th & Hj & Hk & Ha).
  destruct (decide (j = i)) as [->|Hne].
  - exists i, (f th). rewrite list_lookup_alter_eq, Hj. simpl.
    split; [reflexivity|]. split; [by rewrite Hid | by apply Hal].
  - exists j, th. rewrite list_lookup_alter_ne by congruence. by split.
Qed.

Lemma covered_leave (i : nat) (x : OsThread) (l : list OsThread) (k : Z) :
  l !! i = Some x -> k <> th_id x ->
  (exists j th, l !! j = Some th /\ th_id th = k
                /\ is_alive (th_phase th) = true) ->
  exists j th, alter (with_phase Terminated) i l !! j = Some th
               /\ th_id th = k /\ is_alive (th_phase th) = true.
Proof.
  intros Hi Hk (j & th & Hj & Hid & Ha).
  exists j, th. rewrite list_lookup_alter_ne; [by split|].
  intros ->. rewrite Hi in Hj. inversion Hj; subst. by apply Hk.
Qed.

Lemma head_outcome_tracked (i : nat) (th : OsThread) (w w' : World) :
  os_threads w !! i = Some th ->
  head_outcome i (th_id th) w w' ->
  live_covered w -> live_covered w'.
Proof.
  intros Hi Hho Hcov. destruct Hho as [ph Hq Hr Hw | Hq Hr | t q Hq].
  - intros k t Hk. apply covered_alter; [reflexivity | | by eapply Hcov].
    intros x _. by destruct Hw as [->| ->].
  - intros k t Hk. simpl in Hk. apply lookup_delete_Some in Hk as [Hne Hk].
    apply (covered_leave i th); [exact Hi | congruence | by eapply Hcov].
  - intros k t' Hk. apply covered_alter; [reflexivity | reflexivity |].
    by eapply Hcov.
Qed.

Lemma services_tracked (w w' : World) :
  services w w' -> workers_tracked w -> workers_tracked w'.
Proof.
  intros Hs [Hg Hwf Hcov].
  destruct (services_ids w w' Hs Hg Hwf) as [Hg' Hwf'].
  split; [exact Hg' | exact Hwf' |].
  destruct Hs as [ Hnf | c Hnf Hsp | c Hnf Hsp | | d | i th Hi Hph
                 | i th t Hi Hph | i th w1 w' Hi Hph Hw1 Hho
                 | i th Hi Hph Hrc ]; try exact Hcov.
  - assert (Hfresh : threads_ (pool w) !! generateId_ w = None).
    { destruct (threads_ (pool w) !! generateId_ w) eqn:E; [|reflexivity].
      apply Hwf in E as [_ E]. lia. }
    intros k t. rewrite Hfresh. unfold spawned_world, map_emplace.
    cbn [pool os_threads with_idleThreadSize with_curThreadSize with_threads
         threads_ default].
    change (threads_ (pool (enqueued_world c w))) with (threads_ (pool w)).
    change (generateId_ (enqueued_world c w)) with (generateId_ w).
    change (os_threads (enqueued_world c w)) with (os_threads w).
    rewrite Hfresh.
    destruct (decide (generateId_ w = k)) as [<-|Hne].
    + intros _. exists (length (os_threads w)), (new_thread {| threadId_ := generateId_ w |}).
      rewrite lookup_app_r by lia. rewrite Nat.sub_diag. by split.
    + rewrite lookup_insert_ne by exact Hne. intros Hk.
      destruct (Hcov _ _ Hk) as (j & x & Hj & Hid & Ha).
      exists j, x. rewrite lookup_app_l by (by eapply lookup_lt_Some).
      by split.
  - intros k t Hk. simpl.
    apply covered_alter; [reflexivity | reflexivity |].
    apply covered_alter; [reflexivity | by intros x |]. by eapply Hcov.
  - intros k t' Hk. simpl.
    apply covered_alter; [reflexivity | reflexivity |].
    apply covered_alter; [reflexivity | by intros x |]. by eapply Hcov.
  - refine (head_outcome_tracked i th w1 w' _ Hho _);
      destruct Hw1 as [->| ->]; assumption.
  - intros k t Hk. simpl in Hk. apply lookup_delete_Some in Hk as [Hne Hk].
    apply (covered_leave i th); [exact Hi | congruence | by eapply Hcov].
Qed.

Lemma start_tracked (n : Z) (w w' : World) :
  configured w -> start n w = Some (tt, w') -> workers_tracked w'.
Proof.
  intros Hc Hs. destruct (configured_has_shape w Hc).
  assert (Hwf : ids_below_counter w).
  { intros k t. rewrite cs_threads0, lookup_empty. discriminate. }
  destruct (configures_ids w w') as [Hg' Hwf'];
    [ by apply (exec_configures (CallStart n)) | lia | exact Hwf |].
  split; [exact Hg' | exact Hwf' |].
  revert Hs. rewrite start_eq.
  destruct (deref_seq _ _ _) as [ths|] eqn:E; [|discriminate].
  intros [= <-]. intros k t. cbn [pool os_threads]. unfold started_pool.
  cbn [with_threads threads_]. rewrite lookup_emplace_seq.
  change (threads_ (with_idleThreadSize _ _)) with (threads_ (pool w)).
  rewrite cs_threads0, lookup_empty, cs_counter0, cs_os0.
  destruct (decide _) as [Hin|_]; [|discriminate]. intros _.
  assert (Hids : map threadId_ ths = seqZ 0 (Z.of_nat (Z.to_nat n))).
  { eapply deref_seq_ids; [|exact E].
    intros j t'. rewrite lookup_emplace_seq, cs_threads0, lookup_empty.
    destruct (decide _); [|discriminate]. by intros [= <-]. }
  assert (Hk : map threadId_ ths !! Z.to_nat k = Some k).
  { rewrite Hids. rewrite lookup_seqZ. split; lia. }
  rewrite list_lookup_fmap in Hk.
  destruct (ths !! Z.to_nat k) as [t0|] eqn:Ht0; [|discriminate].
  simpl in Hk. inversion Hk as [Hid].
  exists (Z.to_nat k), (new_thread t0). simpl.
  rewrite list_lookup_fmap, Ht0. by split.
Qed.

Lemma reachable_tracked (w : World) : reachable w -> workers_tracked w.
Proof.
  induction 1 as [ w Hc | w n w' Hc Hn Hmax Hs | w a w' _ IH Ha Hexec
                 | w a w' _ IH Hr Ha Hexec ].
  - destruct (configured_has_shape w Hc). split.
    + lia.
    + intros k t. rewrite cs_threads0, lookup_empty. discriminate.
    + intros k t. rewrite cs_threads0, lookup_empty. discriminate.
  - eapply start_tracked; eassumption.
  - eapply services_tracked; [|exact IH]. eapply exec_services; eassumption.
  - by rewrite (setter_running_noop a w w' Hr Ha Hexec).
Qed.

Lemma tracked_all_terminated (w : World) :
  live_covered w -> all_terminated w -> threads_ (pool w) = ∅.
Proof.
  intros Hcov Hall. apply map_empty. intros k.
  destruct (threads_ (pool w) !! k) as [t|] eqn:Hk; [|reflexivity].
  destruct (Hcov _ _ Hk) as (j & th & Hj & _ & Ha).
  rewrite (terminated_cannot_move w j th Hall Hj) in Ha. discriminate.
Qed.

Lemma threads_weight_lastTime (v : Z) (i : nat) (l : list OsThread) :
  threads_weight (alter (with_lastTime v) i l) = threads_weight l.
Proof.
  revert i. induction l as [|x l IH]; intros [|i]; try reflexivity.
  rewrite alter_tail. cbn [threads_weight]. by rewrite IH.
Qed.

Lemma threads_weight_phase (ph : Phase) (i : nat) (l : list OsThread)
    (x : OsThread) :
  l !! i = Some x ->
  (threads_weight (alter (with_phase ph) i l) + phase_weight (th_phase x)
   = threads_weight l + phase_weight ph)%nat.
Proof.
  revert i. induction l as [|y l IH]; intros [|i] Hi; try discriminate;
    simpl in Hi.
  - inversion Hi; subst. rewrite alter_head. cbn [threads_weight].
    change (th_phase (with_phase ph x)) with ph. lia.
  - rewrite alter_tail. cbn [threads_weight].
    pose proof (IH i Hi). lia.
Qed.

Lemma executing_tasks_terminated (l : list OsThread) :
  Forall (fun th => th_phase th = Terminated) l -> executing_tasks l = [].
Proof.
  induction 1 as [|x l Hx _ IH]; [reflexivity|].
  rewrite executing_tasks_cons, IH. unfold task_of. by rewrite Hx.
Qed.

Lemma alive_or_terminated (l : list OsThread) :
  Forall (fun th => th_phase th = Terminated) l
  \/ exists i th, l !! i = Some th /\ is_alive (th_phase th) = true.
Proof.
  induction l as [|x l [IH|(i & th & Hi & Ha)]].
  - by left.
  - destruct (is_alive (th_phase x)) eqn:Hx.
    + right. by exists 0%nat, x.
    + left. constructor; [|exact IH]. by destruct (th_phase x).
  - right. by exists (S i), th.
Qed.

(** A step seen from the world before a diagnostic line was printed. *)
Lemma shutdown_step_after_print (pre : list Event) (w w' : World)
    (evs : list Event) :
  user_invoked pre = [] ->
  shutdown_step (with_events (fun l => l ++ pre) w) w' evs ->
  shutdown_step w w' (pre ++ evs).
Proof.
  intros Hpre [He Hr Hm Hq Ht]. split.
  - rewrite He. simpl. by rewrite app_assoc.
  - exact Hr.
  - exact Hm.
  - exact Hq.
  - rewrite user_invoked_app, Hpre. exact Ht.
Qed.

Lemma loop_head_shutdown (i : nat) (th : OsThread) (w : World) :
  os_threads w !! i = Some th -> at_head (th_phase th) ->
  isPoolRunning_ (pool w) = false ->
  exists w' evs,
    loop_head i (th_id th) w = Some (tt, w')
    /\ shutdown_step w w' evs
    /\ ((taskQue_ (pool w') = []
         /\ exists evs0, evs = evs0 ++ [Cout MsgExit; NotifyAll exitCond_])
        \/ exists th', os_threads w' !! i = Some th'
                       /\ is_alive (th_phase th') = true).
Proof.
  intros Hi Hph Hr. rewrite loop_head_eq.
  assert (Hw : phase_weight (th_phase th) = 1%nat).
  { by destruct Hph as [->|[->| ->]]. }
  pose proof (at_head_idle _ Hph) as Hidle.
  destruct (taskQue_ (pool w)) as [|t q] eqn:Hq.
  - rewrite Hr. eexists _, _. split; [reflexivity|].
    split; [|left; split; [exact Hq | by exists []]].
    split.
    + reflexivity.
    + exact Hr.
    + unfold shutdown_measure. simpl. rewrite Hq. simpl.
      pose proof (threads_weight_phase Terminated i _ th Hi) as H.
      simpl in H. change (list_alter ?f ?i ?l) with (alter f i l) in *. lia.
    + simpl. by rewrite Hq.
    + simpl. rewrite Hq.
      by rewrite (executing_tasks_idle Terminated i _ th Hi Hidle).
  - eexists _, _. split; [reflexivity|]. split.
    + split.
      * reflexivity.
      * exact Hr.
      * unfold shutdown_measure. simpl. rewrite Hq. simpl.
        pose proof (threads_weight_phase (Executing t) i _ th Hi) as H.
        simpl in H. change (list_alter ?f ?i ?l) with (alter f i l) in *.
        rewrite drop_0. lia.
      * simpl. rewrite Hq. simpl. rewrite drop_0. lia.
      * assert (Hu : user_invoked
                       ([Cout MsgGotTask; Dequeue t]
                        ++ (if (0 <? length q)%nat
                            then [NotifyAll notEmpty_] else [])
                        ++ [NotifyAll notFull_]) = []).
        { by destruct (0 <? length q)%nat. }
        rewrite Hu. simpl. rewrite Hq. simpl. rewrite drop_0.
        change (list_alter ?f ?i ?l) with (alter f i l).
        rewrite (executing_tasks_enter t i _ th Hi Hidle).
        simpl. apply Permutation_middle.
    + right. exists (with_phase (Executing t) th). simpl.
      change (list_alter ?f ?i ?l) with (alter f i l).
      rewrite list_lookup_alter_eq, Hi. by split.
Qed.

Lemma after_wait_for_shutdown (i : nat) (st : cv_status) (th : OsThread)
    (w : World) :
  os_threads w !! i = Some th -> th_phase th = WaitingTimed ->
  isPoolRunning_ (pool w) = false ->
  exists w' evs,
    after_wait_for i th st w = Some (tt, w')
    /\ shutdown_step w w' evs
    /\ (st = no_timeout ->
        (taskQue_ (pool w') = []
         /\ exists evs0, evs = evs0 ++ [Cout MsgExit; NotifyAll exitCond_])
        \/ exists th', os_threads w' !! i = Some th'
                       /\ is_alive (th_phase th') = true).
Proof.
  intros Hi Hph Hr.
  rewrite (after_wait_for_eq i th st w).
  assert (Hhead : exists w' evs,
             loop_head i (th_id th) w = Some (tt, w')
             /\ shutdown_step w w' evs
             /\ (st = no_timeout ->
                 (taskQue_ (pool w') = []
                  /\ exists evs0,
                       evs = evs0 ++ [Cout MsgExit; NotifyAll exitCond_])
                 \/ exists th', os_threads w' !! i = Some th'
                                /\ is_alive (th_phase th') = true)).
  { destruct (loop_head_shutdown i th w)
      as (w' & evs & Hs & Hstep & Hq);
      [exact Hi | right; left; exact Hph | exact Hr |].
    exists w', evs. split; [exact Hs|]. split; [exact Hstep|].
    intros _; exact Hq. }
  destruct st; [exact Hhead|].
  destruct (should_reclaim _ _ _); [|exact Hhead].
  eexists _, _. split; [reflexivity|]. split; [|discriminate].
  split.
  - reflexivity.
  - exact Hr.
  - unfold shutdown_measure. simpl.
    pose proof (threads_weight_phase Terminated i _ th Hi) as H.
    rewrite Hph in H. simpl in H.
    change (list_alter ?f ?i ?l) with (alter f i l) in *. lia.
  - simpl. lia.
  - simpl.
    rewrite (executing_tasks_idle Terminated i _ th Hi); [reflexivity| |reflexivity].
    by rewrite Hph.
Qed.

(** Once the running flag is cleared, every step of a thread that has not
    returned is enabled and brings the shutdown closer. *)
Lemma worker_step_shutdown (i : nat) (st : cv_status) (th : OsThread)
    (w : World) :
  os_threads w !! i = Some th -> is_alive (th_phase th) = true ->
  isPoolRunning_ (pool w) = false ->
  exists w' evs,
    threadFunc_step i st w = Some (tt, w')
    /\ shutdown_step w w' evs
    /\ (st = no_timeout ->
        (taskQue_ (pool w') = []
         /\ exists evs0, evs = evs0 ++ [Cout MsgExit; NotifyAll exitCond_])
        \/ exists th', os_threads w' !! i = Some th'
                       /\ is_alive (th_phase th') = true).
Proof.
  intros Hi Ha Hr. rewrite threadFunc_step_eq, Hi.
  destruct (th_phase th) as [| | | |t|] eqn:Hph; try discriminate.
  - eexists _, []. split; [reflexivity|]. split.
    + split.
      * simpl. by rewrite app_nil_r.
      * exact Hr.
      * unfold shutdown_measure. simpl.
        change (list_alter ?f ?i ?l) with (alter f i l).
        pose proof (threads_weight_phase AtLock i
                      (alter (with_lastTime (clock w)) i (os_threads w))
                      (with_lastTime (clock w) th)) as H.
        rewrite list_lookup_alter_eq, Hi in H. specialize (H eq_refl).
        rewrite threads_weight_lastTime in H. simpl in H.
        rewrite Hph in H. simpl in H.
        change (list_alter ?f ?i ?l) with (alter f i l) in *. lia.
      * simpl. lia.
      * simpl.
        rewrite (executing_tasks_idle AtLock i _ (with_lastTime (clock w) th)).
        -- by rewrite executing_tasks_lastTime.
        -- by rewrite list_lookup_alter_eq, Hi.
        -- simpl. by rewrite Hph.
        -- reflexivity.
    + intros _. right. exists (with_phase AtLock (with_lastTime (clock w) th)).
      simpl. change (list_alter ?f ?i ?l) with (alter f i l).
      rewrite !list_lookup_alter_eq, Hi. by split.
  - destruct (loop_head_shutdown i th
                (with_events (fun l => l ++ [Cout MsgTryTask]) w))
      as (w' & evs & Hs & Hstep & Hq);
      [exact Hi | left; exact Hph | exact Hr |].
    exists w', ([Cout MsgTryTask] ++ evs). split; [exact Hs|].
    split; [by apply shutdown_step_after_print|].
    intros _. destruct Hq as [[Hq (evs0 & ->)]|Hq]; [left|right; exact Hq].
    split; [exact Hq|]. exists ([Cout MsgTryTask] ++ evs0).
    by rewrite <- app_assoc.
  - exact (after_wait_for_shutdown i st th w Hi Hph Hr).
  - destruct (loop_head_shutdown i th w)
      as (w' & evs & Hs & Hstep & Hq);
      [exact Hi | right; right; exact Hph | exact Hr |].
    exists w', evs. split; [exact Hs|]. split; [exact Hstep|].
    intros _; exact Hq.
  - eexists _, _. split; [reflexivity|]. split.
    + split.
      * reflexivity.
      * exact Hr.
      * unfold shutdown_measure. simpl.
        change (list_alter ?f ?i ?l) with (alter f i l).
        pose proof (threads_weight_phase AtLock i
                      (alter (with_lastTime (clock w)) i (os_threads w))
                      (with_lastTime (clock w) th)) as H.
        rewrite list_lookup_alter_eq, Hi in H. specialize (H eq_refl).
        rewrite threads_weight_lastTime in H. simpl in H.
        rewrite Hph in H. simpl in H.
        change (list_alter ?f ?i ?l) with (alter f i l) in *. lia.
      * simpl. lia.
      * pose proof (executing_tasks_leave t AtLock i
                      (alter (with_lastTime (clock w)) i (os_threads w))
                      (with_lastTime (clock w) th)) as H.
        rewrite list_lookup_alter_eq, Hi, executing_tasks_lastTime in H.
        specialize (H eq_refl Hph eq_refl).
        simpl. change (list_alter ?f ?i ?l) with (alter f i l).
        by rewrite <- H.
    + intros _. right. exists (with_phase AtLock (with_lastTime (clock w) th)).
      simpl. change (list_alter ?f ?i ?l) with (alter f i l).
      rewrite !list_lookup_alter_eq, Hi. by split.
Qed.

Lemma run_shutdown (acts : list Action) (w w' : World) :
  isPoolRunning_ (pool w) = false ->
  forallb is_worker_step acts = true ->
  after acts w = Some w' ->
  exists evs,
    events w' = events w ++ evs
    /\ isPoolRunning_ (pool w') = false
    /\ (length acts + shutdown_measure w' <= shutdown_measure w)%nat
    /\ (length (taskQue_ (pool w')) <= length (taskQue_ (pool w)))%nat
    /\ user_invoked evs ++ executing_tasks (os_threads w')
         ++ taskQue_ (pool w')
       ≡ₚ executing_tasks (os_threads w) ++ taskQue_ (pool w).
Proof.
  revert w. induction acts as [|a rest IH]; intros w Hr Hall Hrun.
  - rewrite after_nil in Hrun. inversion Hrun; subst.
    exists []. simpl. rewrite app_nil_r.
    split; [reflexivity|]. split; [exact Hr|]. split; [lia|].
    split; [lia | reflexivity].
  - simpl in Hall. apply andb_true_iff in Hall as [Ha Hall].
    apply after_cons_inv in Hrun as (w1 & Hexec & Hrest).
    destruct a as [| | | | | | |i st]; try discriminate. simpl in Hexec.
    assert (Halive : exists th, os_threads w !! i = Some th
                                /\ is_alive (th_phase th) = true).
    { unfold threadFunc_step in Hexec.
      destruct (os_threads w !! i) as [th|]; [|discriminate].
      exists th. split; [reflexivity|].
      by destruct (th_phase th). }
    destruct Halive as (th & Hi & Hal).
    destruct (worker_step_shutdown i st th w Hi Hal Hr)
      as (w1' & e1 & Hs & [He1 Hr1 Hm1 Hq1 Ht1] & _).
    rewrite Hexec in Hs. inversion Hs; subst w1'.
    destruct (IH w1 Hr1 Hall Hrest) as (e2 & He2 & Hr2 & Hm2 & Hq2 & Ht2).
    exists (e1 ++ e2). split; [by rewrite He2, He1, app_assoc|].
    split; [exact Hr2|]. split; [simpl; lia|]. split; [lia|].
    rewrite user_invoked_app, <- app_assoc, Ht2. exact Ht1.
Qed.

(** Once the running flag is cleared, the workers on their own take at
    most [3 * queue length + (2 per thread entering or executing, 1 per
    thread at the loop head)] steps, whatever the schedule and whether
    their waits time out or not; they never add to the queue, and every
    task that was queued or being executed is afterwards still queued,
    still being executed, or has been invoked, exactly once. *)
Theorem shutdown_run_is_bounded (acts : list Action) (w w' : World) :
  isPoolRunning_ (pool w) = false ->
  forallb is_worker_step acts = true ->
  after acts w = Some w' ->
  (length acts + shutdown_measure w' <= shutdown_measure w)%nat
  /\ isPoolRunning_ (pool w') = false
  /\ (length (taskQue_ (pool w')) <= length (taskQue_ (pool w)))%nat
  /\ user_invoked (events_since w w') ++ executing_tasks (os_threads w')
       ++ taskQue_ (pool w')
     ≡ₚ executing_tasks (os_threads w) ++ taskQue_ (pool w).
Proof.
  intros Hr Hall Hrun.
  destruct (run_shutdown acts w w' Hr Hall Hrun)
    as (evs & He & Hr' & Hm & Hq & Ht).
  rewrite (events_since_app _ _ _ He). by repeat split.
Qed.

Lemma shutdown_run_is_bounded_witness :
  exists w',
    after [WorkerStep 0 no_timeout; WorkerStep 0 no_timeout]
      shutting_down_world = Some w'
    /\ (2 + shutdown_measure w' <= shutdown_measure shutting_down_world)%nat
    /\ user_invoked (events_since shutting_down_world w') = [7%nat].
Proof.
  eexists. split; [vm_compute; reflexivity|].
  match goal with |- (2 + shutdown_measure ?x <= _)%nat /\ _ =>
    set (w' := x) end.
  destruct (shutdown_run_is_bounded
              [WorkerStep 0 no_timeout; WorkerStep 0 no_timeout]
              shutting_down_world w') as (Hm & _);
    [vm_compute; reflexivity | reflexivity | vm_compute; reflexivity |].
  split; [exact Hm | vm_compute; reflexivity].
Defined.

Lemma shutdown_schedule (n : nat) (w : World) :
  (shutdown_measure w <= n)%nat ->
  isPoolRunning_ (pool w) = false ->
  exists acts w' evs,
    forallb is_worker_step acts = true
    /\ after acts w = Some w'
    /\ events w' = events w ++ evs
    /\ all_terminated w'
    /\ (length (taskQue_ (pool w')) <= length (taskQue_ (pool w)))%nat
    /\ user_invoked evs ++ taskQue_ (pool w')
       ≡ₚ executing_tasks (os_threads w) ++ taskQue_ (pool w)
    /\ (all_terminated w -> evs = [])
    /\ (~ all_terminated w ->
        taskQue_ (pool w') = []
        /\ exists evs0, evs = evs0 ++ [Cout MsgExit; NotifyAll exitCond_]).
Proof.
  revert w. induction n as [|n IH]; intros w Hn Hr;
    (destruct (alive_or_terminated (os_threads w))
       as [Hall|(i & th & Hi & Hal)];
     [ exists [], w, []; rewrite app_nil_r;
       split; [reflexivity|]; split; [reflexivity|];
       split; [reflexivity|]; split; [exact Hall|];
       split; [lia|]; split;
       [ by rewrite (executing_tasks_terminated _ Hall)
       | split; [reflexivity | intros Hno; by destruct Hno] ]
     | destruct (worker_step_shutdown i no_timeout th w Hi Hal Hr)
         as (w1 & e1 & Hs & [He1 Hr1 Hm1 Hq1 Ht1] & Hnext) ]).
  - lia.
  - destruct (IH w1 ltac:(lia) Hr1)
      as (acts & w' & e2 & Hact & Hrun & He2 & Hall' & Hq2 & Ht2
          & Hstay & Hdrain).
    exists (WorkerStep i no_timeout :: acts), w', (e1 ++ e2).
    split; [exact Hact|].
    split; [rewrite after_cons; simpl; by rewrite Hs|].
    split; [by rewrite He2, He1, app_assoc|].
    split; [exact Hall'|]. split; [lia|].
    split; [rewrite user_invoked_app, <- app_assoc, Ht2; exact Ht1|].
    split.
    { intros Hall. rewrite (terminated_cannot_move w i th Hall Hi) in Hal.
      discriminate. }
    intros _.
    destruct (alive_or_terminated (os_threads w1)) as [Hall1|Halive1].
    + rewrite (Hstay Hall1), app_nil_r.
      destruct (Hnext eq_refl) as [[Hq Hlast]|(th' & Hi' & Hal')].
      * split; [|exact Hlast].
        rewrite Hq in Hq2. simpl in Hq2.
        destruct (taskQue_ (pool w')); [reflexivity | simpl in Hq2; lia].
      * rewrite (terminated_cannot_move w1 i th' Hall1 Hi') in Hal'.
        discriminate.
    + destruct Hdrain as [Hq (evs0 & ->)].
      * intros Hall1. destruct Halive1 as (j & x & Hj & Hx).
        rewrite (terminated_cannot_move w1 j x Hall1 Hj) in Hx.
        discriminate.
      * split; [exact Hq|]. exists (e1 ++ evs0). by rewrite <- app_assoc.
Qed.

(** For a well-behaved client, once the running flag is cleared there is
    a schedule of worker steps after which every thread has returned and
    the live map is empty, with no task invoked twice.  If any thread
    was still there, the schedule ends with a worker's exit, which
    notifies [exitCond_] with the live map just emptied, so that a
    destructor blocked in its wait is woken with its predicate true; and
    every task that was queued or being executed has been invoked.  If
    none was left, the schedule is empty and nothing is notified. *)
Theorem shutdown_can_complete (w : World) :
  reachable w -> isPoolRunning_ (pool w) = false ->
  exists acts w',
    forallb is_worker_step acts = true
    /\ after acts w = Some w'
    /\ (length acts <= shutdown_measure w)%nat
    /\ all_terminated w'
    /\ threads_ (pool w') = ∅
    /\ user_invoked (events_since w w') ++ taskQue_ (pool w')
       ≡ₚ executing_tasks (os_threads w) ++ taskQue_ (pool w)
    /\ (all_terminated w -> acts = [] /\ w' = w)
    /\ (~ all_terminated w ->
        taskQue_ (pool w') = []
        /\ exists evs0,
             events_since w w'
             = evs0 ++ [Cout MsgExit; NotifyAll exitCond_]).
Proof.
  intros Hreach Hr.
  destruct (shutdown_schedule (shutdown_measure w) w (le_n _) Hr)
    as (acts & w' & evs & Hact & Hrun & He & Hall & _ & Ht & Hstay & Hdrain).
  exists acts, w'.
  assert (Hservice : forallb service_action acts = true).
  { clear -Hact. induction acts as [|a acts IH]; [reflexivity|].
    simpl in Hact. apply andb_true_iff in Hact as [Ha Hact].
    simpl. rewrite (IH Hact). by destruct a. }
  pose proof (reachable_tracked w' (reachable_run acts w w' Hreach Hservice Hrun))
    as [_ _ Hcov].
  pose proof (tracked_all_terminated w' Hcov Hall) as Hempty.
  destruct (run_shutdown acts w w' Hr Hact Hrun) as (_ & _ & _ & Hm & _).
  split; [exact Hact|]. split; [exact Hrun|]. split; [lia|].
  split; [exact Hall|]. split; [exact Hempty|].
  rewrite (events_since_app _ _ _ He).
  split; [exact Ht|]. split; [|exact Hdrain].
  intros Hall0.
  destruct acts as [|a acts]; [rewrite after_nil in Hrun; by inversion Hrun|].
  exfalso. simpl in Hact. apply andb_true_iff in Hact as [Ha _].
  apply after_cons_inv in Hrun as (w1 & Hexec & _).
  destruct a as [| | | | | | |i st]; try discriminate. simpl in Hexec.
  unfold threadFunc_step in Hexec.
  destruct (os_threads w !! i) as [th|] eqn:Hi; [|discriminate].
  rewrite (terminated_cannot_move w i th Hall0 Hi) in Hexec. discriminate.
Qed.

Lemma shutdown_can_complete_witness :
  (reachable shutting_down_world
   /\ isPoolRunning_ (pool shutting_down_world) = false)
  /\ exists acts w',
       after acts shutting_down_world = Some w'
       /\ all_terminated w'
       /\ threads_ (pool w') = ∅
       /\ taskQue_ (pool w') = []
       /\ last (events w') = Some (NotifyAll exitCond_).
Proof.
  assert (Hreach : reachable shutting_down_world).
  { apply (reachable_run
             [CallSubmitTask 7%nat; CallDestructor; WorkerStep 0 no_timeout]
             (world_after [CallStart 1])).
    - apply (reachable_start fresh_world 1).
      + exact configured_fresh.
      + unfold Int.int_max. lia.
      + vm_compute. discriminate.
      + vm_compute. reflexivity.
    - reflexivity.
    - vm_compute. reflexivity. }
  assert (Hr : isPoolRunning_ (pool shutting_down_world) = false).
  { vm_compute. reflexivity. }
  split; [split; [exact Hreach | exact Hr]|].
  destruct (shutdown_can_complete shutting_down_world Hreach Hr)
    as (acts & w' & _ & Hrun & _ & Hall & Hempty & _ & _ & Hdrain).
  exists acts, w'. split; [exact Hrun|]. split; [exact Hall|].
  split; [exact Hempty|].
  destruct Hdrain as [Hq (evs0 & He)].
  { intros Hall0. apply Forall_inv in Hall0. discriminate. }
  split; [exact Hq|].
  unfold events_since in He.
  rewrite <- (take_drop (length (events shutting_down_world)) (events w')).
  rewrite He.
  change [Cout MsgExit; NotifyAll exitCond_]
    with ([Cout MsgExit] ++ [NotifyAll exitCond_]).
  rewrite !app_assoc. apply last_snoc.
Defined.

(** ** The live map and the threads that have not returned *)

Lemma map_th_id_alter (f : OsThread -> OsThread) (i : nat)
    (l : list OsThread) :
  (forall x, th_id (f x) = th_id x) ->
  map th_id (alter f i l) = map th_id l.
Proof.
  intros Hid. revert i. induction l as [|x l IH]; intros [|i]; try reflexivity.
  - rewrite alter_head. simpl. by rewrite Hid.
  - rewrite alter_tail. simpl. by rewrite IH.
Qed.

Lemma indexed_id (w : World) (j : nat) (x : OsThread) :
  workers_indexed w -> os_threads w !! j = Some x -> th_id x = Z.of_nat j.
Proof.
  intros [Hidx _] Hj.
  assert (H : map th_id (os_threads w) !! j = Some (th_id x)).
  { by rewrite list_lookup_fmap, Hj. }
  rewrite Hidx in H. apply lookup_seqZ in H as [H _]. lia.
Qed.

Lemma indexed_alter (f : OsThread -> OsThread) (i : nat) (th : OsThread)
    (w w' : World) :
  os_threads w !! i = Some th -> is_alive (th_phase th) = true ->
  (forall x, th_id (f x) = th_id x) ->
  os_threads w' = alter f i (os_threads w) ->
  threads_ (pool w') = threads_ (pool w) ->
  generateId_ w' = generateId_ w ->
  workers_indexed w -> workers_indexed w'.
Proof.
  intros Hi Hal Hid Hos Hth Hg [Hidx Halive]. split.
  - by rewrite Hos, Hg, map_th_id_alter.
  - intros j x. rewrite Hos, Hth. intros Hj Ha.
    destruct (decide (j = i)) as [->|Hne].
    + rewrite list_lookup_alter_eq, Hi in Hj. inversion Hj; subst x.
      rewrite Hid. by apply (Halive i).
    + rewrite list_lookup_alter_ne in Hj by congruence.
      by apply (Halive j).
Qed.

Lemma indexed_leave (i : nat) (th : OsThread) (w w' : World) :
  os_threads w !! i = Some th ->
  os_threads w' = alter (with_phase Terminated) i (os_threads w) ->
  threads_ (pool w') = delete (th_id th) (threads_ (pool w)) ->
  generateId_ w' = generateId_ w ->
  workers_indexed w -> workers_indexed w'.
Proof.
  intros Hi Hos Hth Hg Hwi. pose proof Hwi as [Hidx Halive]. split.
  - by rewrite Hos, Hg, map_th_id_alter.
  - intros j x. rewrite Hos, Hth. intros Hj Ha.
    destruct (decide (j = i)) as [->|Hne].
    + rewrite list_lookup_alter_eq, Hi in Hj. inversion Hj; subst x.
      discriminate.
    + rewrite list_lookup_alter_ne in Hj by congruence.
      rewrite lookup_delete_ne; [by apply (Halive j)|].
      rewrite (indexed_id w i th Hwi Hi), (indexed_id w j x Hwi Hj). lia.
Qed.

Lemma at_head_alive (ph : Phase) : at_head ph -> is_alive ph = true.
Proof. intros [->|[->| ->]]; reflexivity. Qed.

Lemma services_indexed (w w' : World) :
  services w w' -> ids_below_counter w -> 0 <= generateId_ w ->
  workers_indexed w -> workers_indexed w'.
Proof.
  intros Hs Hwf Hg Hwi.
  destruct Hs as [ Hnf | c Hnf Hsp | c Hnf Hsp | | d | i th Hi Hph
                 | i th t Hi Hph | i th w1 w' Hi Hph Hw1 Hho
                 | i th Hi Hph Hrc ];
    try (destruct Hwi as [Hidx Halive]; split; [exact Hidx | exact Halive]).
  - destruct Hwi as [Hidx Halive].
    assert (Hfresh : threads_ (pool w) !! generateId_ w = None).
    { destruct (threads_ (pool w) !! generateId_ w) eqn:E; [|reflexivity].
      apply Hwf in E as [_ E]. lia. }
    rewrite Hfresh. unfold spawned_world, map_emplace.
    split;
      cbn [pool os_threads generateId_ with_idleThreadSize
           with_curThreadSize with_threads threads_ default];
      change (threads_ (pool (enqueued_world c w))) with (threads_ (pool w));
      change (generateId_ (enqueued_world c w)) with (generateId_ w);
      change (os_threads (enqueued_world c w)) with (os_threads w).
    + rewrite map_app, Hidx. simpl.
      rewrite (seqZ_app 0 (generateId_ w) 1) by lia. reflexivity.
    + rewrite Hfresh. intros j x Hj Ha.
      apply lookup_app_Some in Hj as [Hj|[_ Hj]].
      * destruct (Halive j x Hj Ha) as [t Ht].
        destruct (decide (generateId_ w = th_id x)) as [He|Hne].
        -- rewrite He in Hfresh. congruence.
        -- rewrite lookup_insert_ne by exact Hne. eauto.
      * apply list_lookup_singleton_Some in Hj as [_ <-]. simpl.
        rewrite lookup_insert_eq. eauto.
  - refine (indexed_alter
              (with_phase AtLock ∘ with_lastTime (clock w)) i th w _
              Hi _ _ _ _ _ Hwi); try reflexivity.
    + by rewrite Hph.
    + simpl. by rewrite list_alter_alter_eq.
  - refine (indexed_alter
              (with_phase AtLock ∘ with_lastTime (clock w)) i th w _
              Hi _ _ _ _ _ Hwi); try reflexivity.
    + by rewrite Hph.
    + simpl. by rewrite list_alter_alter_eq.
  - pose proof (at_head_alive _ Hph) as Hal.
    destruct Hho as [ph Hq Hr Hw | Hq Hr | t q Hq].
    + refine (indexed_alter (with_phase ph) i th w _ Hi Hal _ _ _ _ Hwi);
        try reflexivity; by destruct Hw1 as [->| ->].
    + refine (indexed_leave i th w _ Hi _ _ _ Hwi);
        by destruct Hw1 as [->| ->].
    + refine (indexed_alter (with_phase (Executing t)) i th w _ Hi Hal
                _ _ _ _ Hwi);
        try reflexivity; by destruct Hw1 as [->| ->].
  - refine (indexed_leave i th w _ Hi _ _ _ Hwi); reflexivity.
Qed.

Lemma start_indexed (n : Z) (w w' : World) :
  configured w -> start n w = Some (tt, w') -> workers_indexed w'.
Proof.
  intros Hc. destruct (configured_has_shape w Hc).
  rewrite start_eq.
  destruct (deref_seq _ _ _) as [ths|] eqn:E; [|discriminate].
  intros [= <-].
  assert (Hkey : forall j t,
             emplace_seq (Z.to_nat n) (generateId_ w) (threads_ (pool w)) !! j
             = Some t -> threadId_ t = j).
  { intros j t'. rewrite lookup_emplace_seq, cs_threads0, lookup_empty.
    destruct (decide _); [|discriminate]. by intros [= <-]. }
  pose proof (deref_seq_ids _ _ _ _ Hkey E) as Hids.
  split.
  - cbn [os_threads generateId_]. rewrite cs_os0, cs_counter0. simpl.
    rewrite map_map. exact Hids.
  - intros j x. cbn [os_threads pool]. rewrite cs_os0. simpl.
    rewrite list_lookup_fmap.
    destruct (ths !! j) as [t|] eqn:Hj; [|discriminate].
    intros [= <-] _. simpl.
    assert (Ht : map threadId_ ths !! j = Some (threadId_ t)).
    { by rewrite list_lookup_fmap, Hj. }
    rewrite Hids in Ht. apply lookup_seqZ in Ht as [Ht Hlt].
    unfold started_pool. cbn [with_threads threads_].
    rewrite lookup_emplace_seq.
    change (threads_ (with_idleThreadSize _ _)) with (threads_ (pool w)).
    rewrite cs_threads0, lookup_empty, cs_counter0.
    destruct (decide _) as [_|Hout]; [eauto|lia].
Qed.

Lemma reachable_indexed (w : World) : reachable w -> workers_indexed w.
Proof.
  induction 1 as [ w Hc | w n w' Hc Hn Hmax Hs | w a w' Hreach IH Ha Hexec
                 | w a w' _ IH Hr Ha Hexec ].
  - destruct (configured_has_shape w Hc). split.
    + by rewrite cs_os0, cs_counter0.
    + intros i th. rewrite cs_os0. discriminate.
  - eapply start_indexed; eassumption.
  - destruct (reachable_tracked w Hreach) as [Hg Hwf _].
    eapply services_indexed; try eassumption.
    eapply exec_services; eassumption.
  - by rewrite (setter_running_noop a w w' Hr Ha Hexec).
Qed.

(** For a well-behaved client, the threads of the process carry the ids
    0, 1, 2, ... in the order of their launch, the live map holds exactly
    the ids of those that have not returned, and so the predicate of the
    destructor's wait, [threads_.size() == 0], holds exactly when every
    worker thread has returned. *)
Theorem live_map_is_the_running_workers (w : World) :
  reachable w ->
  map th_id (os_threads w) = seqZ 0 (generateId_ w)
  /\ (forall k, is_Some (threads_ (pool w) !! k)
                <-> 0 <= k
                    /\ exists th, os_threads w !! Z.to_nat k = Some th
                                  /\ is_alive (th_phase th) = true)
  /\ (exitCond_pred (pool w) = true <-> all_terminated w).
Proof.
  intros Hreach.
  pose proof (reachable_tracked w Hreach) as [Hg Hwf Hcov].
  pose proof (reachable_indexed w Hreach) as Hwi.
  pose proof Hwi as [Hidx Halive].
  split; [exact Hidx|]. split.
  - intros k. split.
    + intros [t Hk]. destruct (Hwf _ _ Hk) as [_ Hrange].
      split; [lia|].
      destruct (Hcov _ _ Hk) as (j & th & Hj & Hid & Ha).
      exists th. split; [|exact Ha].
      rewrite (indexed_id w j th Hwi Hj) in Hid. subst k.
      by rewrite Nat2Z.id.
    + intros (Hk & th & Hj & Ha).
      pose proof (Halive _ _ Hj Ha) as Hin.
      rewrite (indexed_id w _ th Hwi Hj) in Hin.
      by rewrite Z2Nat.id in Hin.
  - unfold exitCond_pred. rewrite bool_decide_eq_true.
    rewrite map_size_empty_iff. split.
    + intros Hempty. apply Forall_lookup. intros j th Hj.
      destruct (is_alive (th_phase th)) eqn:Ha.
      * destruct (Halive _ _ Hj Ha) as [t Ht].
        rewrite Hempty, lookup_empty in Ht. discriminate.
      * by destruct (th_phase th).
    + by apply tracked_all_terminated.
Qed.

Lemma live_map_is_the_running_workers_witness :
  reachable shutting_down_world
  /\ map th_id (os_threads shutting_down_world) = [0]
  /\ (exitCond_pred (pool shutting_down_world) = true
      <-> all_terminated shutting_down_world).
Proof.
  assert (Hreach : reachable shutting_down_world).
  { apply (reachable_run
             [CallSubmitTask 7%nat; CallDestructor; WorkerStep 0 no_timeout]
             (world_after [CallStart 1])).
    - apply (reachable_start fresh_world 1).
      + exact configured_fresh.
      + unfold Int.int_max. lia.
      + vm_compute. discriminate.
      + vm_compute. reflexivity.
    - reflexivity.
    - vm_compute. reflexivity. }
  split; [exact Hreach|].
  destruct (live_map_is_the_running_workers shutting_down_world Hreach)
    as (Hidx & _ & Hret).
  split; [|exact Hret].
  rewrite Hidx. vm_compute. reflexivity.
Defined.

(** ** One worker serves the queue in order *)

(** A worker thread that has not returned, scheduled on its own, empties
    the queue: it first finishes the task it holds, if any, then claims
    and invokes the queued tasks one by one in queue order, two steps
    per task, whether or not the pool is still running. *)
Theorem single_worker_serves_queue_in_order
    (i : nat) (th : OsThread) (w : World) :
  os_threads w !! i = Some th -> is_alive (th_phase th) = true ->
  exists n w',
    after (replicate n (WorkerStep i no_timeout)) w = Some w'
    /\ (n <= 1 + 2 * length (taskQue_ (pool w)))%nat
    /\ taskQue_ (pool w') = []
    /\ dequeued (events_since w w') = taskQue_ (pool w)
    /\ user_invoked (events_since w w') = task_of th ++ taskQue_ (pool w).
Proof.
  intros Hi Ha.
  destruct (th_phase th) as [| | | |t|] eqn:Hph; try discriminate.
  - assert (Hs : threadFunc_step i no_timeout w = Some (tt, entered_world i w)).
    { by rewrite threadFunc_step_eq, Hi, Hph. }
    destruct (head_drains (taskQue_ (pool w)) i
                (with_phase AtLock (with_lastTime (clock w) th))
                (entered_world i w))
      as (w' & evs & Hrun & He & Hq' & Hd & Hu).
    + simpl. change (list_alter ?f ?i ?l) with (alter f i l).
      by rewrite !list_lookup_alter_eq, Hi.
    + by left.
    + reflexivity.
    + exists (S (2 * length (taskQue_ (pool w)))), w'.
      split; [cbn [replicate]; rewrite after_cons; simpl; by rewrite Hs|].
      split; [lia|]. split; [exact Hq'|].
      rewrite (events_since_app w w' evs He).
      unfold task_of. rewrite Hph. by split.
  - destruct (head_drains (taskQue_ (pool w)) i th w Hi)
      as (w' & evs & Hrun & He & Hq' & Hd & Hu);
      [left; exact Hph | reflexivity |].
    exists (2 * length (taskQue_ (pool w)))%nat, w'.
    split; [exact Hrun|]. split; [lia|]. split; [exact Hq'|].
    rewrite (events_since_app w w' evs He).
    unfold task_of. rewrite Hph. by split.
  - destruct (head_drains (taskQue_ (pool w)) i th w Hi)
      as (w' & evs & Hrun & He & Hq' & Hd & Hu);
      [right; left; exact Hph | reflexivity |].
    exists (2 * length (taskQue_ (pool w)))%nat, w'.
    split; [exact Hrun|]. split; [lia|]. split; [exact Hq'|].
    rewrite (events_since_app w w' evs He).
    unfold task_of. rewrite Hph. by split.
  - destruct (head_drains (taskQue_ (pool w)) i th w Hi)
      as (w' & evs & Hrun & He & Hq' & Hd & Hu);
      [right; right; exact Hph | reflexivity |].
    exists (2 * length (taskQue_ (pool w)))%nat, w'.
    split; [exact Hrun|]. split; [lia|]. split; [exact Hq'|].
    rewrite (events_since_app w w' evs He).
    unfold task_of. rewrite Hph. by split.
  - assert (Hs : threadFunc_step i no_timeout w
                 = Some (tt, finished_world i t w)).
    { by rewrite threadFunc_step_eq, Hi, Hph. }
    destruct (head_drains (taskQue_ (pool w)) i
                (with_phase AtLock (with_lastTime (clock w) th))
                (finished_world i t w))
      as (w' & evs & Hrun & He & Hq' & Hd & Hu).
    + simpl. change (list_alter ?f ?i ?l) with (alter f i l).
      by rewrite !list_lookup_alter_eq, Hi.
    + by left.
    + reflexivity.
    + exists (S (2 * length (taskQue_ (pool w)))), w'.
      split; [cbn [replicate]; rewrite after_cons; simpl; by rewrite Hs|].
      split; [lia|]. split; [exact Hq'|].
      assert (He' : events w' = events w ++ [Invoke (UserBody t)] ++ evs).
      { rewrite He. simpl. by rewrite <- app_assoc. }
      rewrite (events_since_app w w' _ He').
      rewrite dequeued_app, user_invoked_app, Hd, Hu.
      unfold task_of. rewrite Hph. by split.
Qed.

Lemma single_worker_serves_queue_in_order_witness :
  (os_threads full_queue_world !! 0%nat
   = Some {| th_id := 0; th_phase := AtEntry; th_lastTime := 0 |}
   /\ is_alive AtEntry = true)
  /\ exists n w',
       after (replicate n (WorkerStep 0 no_timeout)) full_queue_world
       = Some w'
       /\ taskQue_ (pool w') = []
       /\ user_invoked (events_since full_queue_world w') = [1%nat].
Proof.
  split; [split; [vm_compute; reflexivity | reflexivity]|].
  destruct (single_worker_serves_queue_in_order 0
              {| th_id := 0; th_phase := AtEntry; th_lastTime := 0 |}
              full_queue_world)
    as (n & w' & Hrun & _ & Hq & _ & Hu);
    [vm_compute; reflexivity | reflexivity |].
  exists n, w'. split; [exact Hrun|]. split; [exact Hq | exact Hu].
Defined.

(** ** A fixed pool started without workers *)

(** [start] with an initial size of 0 or less builds no worker.  In
    fixed mode, with no thread left from before, nothing is then ever
    taken from the queue and no callable is ever invoked, however many
    submissions are accepted, until [start] is called again or the pool
    is destroyed: the queue only grows. *)
Theorem fixed_pool_started_empty_runs_nothing
    (n : Z) (acts : list Action) (w w1 w' : World) :
  n <= 0 ->
  poolMode_ (pool w) = MODE_FIXED ->
  all_terminated w ->
  start n w = Some (tt, w1) ->
  forallb (fun a => negb (is_destructor a) && negb (is_start a)) acts = true ->
  after acts w1 = Some w' ->
  launches (events_since w w1) = []
  /\ dequeued (events_since w1 w') = []
  /\ user_invoked (events_since w1 w') = []
  /\ taskQue_ (pool w') = taskQue_ (pool w) ++ enqueued (events_since w1 w').
Proof.
  intros Hn Hm Hall Hs Hacts Hrun.
  revert Hs. rewrite start_eq.
  replace (Z.to_nat n) with 0%nat by lia. simpl. intros [= <-].
  match type of Hrun with after _ ?x = _ => set (w1 := x) in * end.
  assert (Hall1 : all_terminated w1).
  { unfold all_terminated, w1. simpl. by rewrite app_nil_r. }
  assert (Hno1 : no_timed_wait w1).
  { eapply Forall_impl; [exact Hall1|]. simpl. intros th ->. discriminate. }
  destruct (run_fixed_pool acts w1 w' Hm eq_refl Hno1 Hacts Hrun)
    as (_ & [_ _ _ _ (evs0 & He0 & Hl0)]).
  assert (Hl : launches (events_since w1 w') = []).
  { by rewrite (events_since_app _ _ _ He0). }
  pose proof (run_without_workers acts w1 w' Hrun Hall1 Hl) as Hd.
  destruct (run_tasks acts w1 w' Hrun) as [evs [He Ht]].
  destruct (run_fifo acts w1 w' Hrun) as [evs' [He' Hq]].
  assert (evs' = evs) as ->.
  { rewrite He in He'. by apply app_inv_head in He'. }
  rewrite (events_since_app _ _ _ He) in *.
  split; [unfold events_since; simpl; by rewrite drop_app_length|].
  split; [exact Hd|].
  rewrite Hd in Ht, Hq. rewrite (executing_tasks_terminated _ Hall1) in Ht.
  simpl in Ht, Hq. split; [|exact Hq].
  apply Permutation_nil. symmetry.
  transitivity (user_invoked evs ++ executing_tasks (os_threads w'));
    [|exact Ht].
  apply Permutation_nil_r in Ht. apply app_eq_nil in Ht as [-> ->].
  reflexivity.
Qed.

Lemma fixed_pool_started_empty_runs_nothing_witness :
  exists w1 w',
    start 0 fresh_world = Some (tt, w1)
    /\ after [CallSubmitTask 1%nat; CallSubmitTask 2%nat] w1 = Some w'
    /\ user_invoked (events_since w1 w') = []
    /\ taskQue_ (pool w') = [1; 2]%nat.
Proof.
  eexists _, _. split; [vm_compute; reflexivity|].
  split; [vm_compute; reflexivity|].
  match goal with |- user_invoked (events_since ?x ?y) = _ /\ _ =>
    set (w1 := x); set (w' := y) end.
  destruct (fixed_pool_started_empty_runs_nothing 0
              [CallSubmitTask 1%nat; CallSubmitTask 2%nat]
              fresh_world w1 w') as (_ & _ & Hu & _).
  - lia.
  - reflexivity.
  - constructor.
  - vm_compute. reflexivity.
  - reflexivity.
  - vm_compute. reflexivity.
  - split; [exact Hu | vm_compute; reflexivity].
Defined.

(** ** The tasks of main.cpp *)

Lemma fits_int_in_range (z : Z) : fits_int z = true <-> Int.in_range z.
Proof.
  unfold fits_int, Int.in_range.
  rewrite andb_true_iff, !Z.leb_le. reflexivity.
Qed.

Lemma range_total_step (b k s : Z) :
  2 * s = (b + k - 1) * (k - b) -> s + k = range_total b k.
Proof.
  intros H. unfold range_total.
  apply Z.div_unique_exact; [lia|]. nia.
Qed.

Lemma range_sum_loop_total (b e : Z) (fuel : nat) (i sum : Z) :
  e < Int.int_max ->
  (forall k, b <= k <= e -> Int.in_range (range_total b k)) ->
  b <= i <= e + 1 ->
  2 * sum = (b + i - 1) * (i - b) ->
  e - i + 2 <= Z.of_nat fuel ->
  range_sum_loop fuel i e sum = Returned (if i <=? e then range_total b e else sum).
Proof.
  intros He Hpart. revert i sum.
  induction fuel as [|fuel IH]; intros i sum Hi Hsum Hfuel; [lia|].
  cbn [range_sum_loop].
  destruct (i <=? e) eqn:Hle; [|reflexivity].
  apply Z.leb_le in Hle.
  pose proof (range_total_step b i sum Hsum) as Hnext.
  assert (H1 : fits_int (sum + i) = true).
  { apply fits_int_in_range. rewrite Hnext. apply Hpart. lia. }
  assert (H2 : fits_int (i + 1) = true).
  { apply fits_int_in_range.
    pose proof (Hpart b) as Hb. unfold Int.in_range, Int.int_min in *.
    assert (Hbb : range_total b b = b).
    { unfold range_total. replace ((b + b) * (b - b + 1)) with (b * 2) by lia.
      apply Z.div_mul. lia. }
    rewrite Hbb in Hb. lia. }
  rewrite H1, H2.
  rewrite (IH (i + 1) (sum + i)); [| lia | | lia].
  - destruct (i + 1 <=? e) eqn:Hle'; [reflexivity|].
    apply Z.leb_gt in Hle'. assert (i = e) as -> by lia.
    by rewrite Hnext.
  - replace (b + (i + 1) - 1) with (b + i) by lia.
    replace (i + 1 - b) with (i - b + 1) by lia. nia.
Qed.

(** The lambda of main.cpp returns 0 on an empty range and otherwise the
    sum of the integers from [b] to [e], provided [e] is below [INT_MAX]
    and no partial sum leaves the range of [int]. *)
Theorem range_sum_closed_form (b e : Z) :
  Int.in_range b -> Int.in_range e ->
  e < Int.int_max ->
  (forall k, b <= k <= e -> Int.in_range (range_total b k)) ->
  range_sum b e = Returned (if b <=? e then range_total b e else 0).
Proof.
  intros Hb He Hlt Hpart. unfold range_sum.
  destruct (b <=? e) eqn:Hle.
  - apply Z.leb_le in Hle.
    rewrite (range_sum_loop_total b e _ b 0 Hlt Hpart); try lia.
    by apply Z.leb_le in Hle as ->.
  - cbn [range_sum_loop]. by rewrite Hle.
Qed.

Lemma range_sum_closed_form_witness :
  range_sum 1 100 = Returned 5050.
Proof.
  rewrite (range_sum_closed_form 1 100).
  - reflexivity.
  - unfold Int.in_range, Int.int_min, Int.int_max. lia.
  - unfold Int.in_range, Int.int_min, Int.int_max. lia.
  - unfold Int.int_max. lia.
  - intros k Hk. unfold range_total, Int.in_range, Int.int_min, Int.int_max.
    split.
    + transitivity 0; [lia|]. apply Z.div_pos; nia.
    + apply Z.div_le_upper_bound; nia.
Defined.

Lemma range_sum_loop_overflow (b e : Z) (fuel : nat) (i sum : Z) :
  b <= i ->
  2 * sum = (b + i - 1) * (i - b) ->
  e - i + 2 <= Z.of_nat fuel ->
  (e = Int.int_max /\ i <= e)
  \/ (exists k, i <= k <= e /\ ~ Int.in_range (range_total b k)) ->
  range_sum_loop fuel i e sum = SignedOverflow.
Proof.
  revert i sum. induction fuel as [|fuel IH]; intros i sum Hi Hsum Hfuel Hbad.
  - destruct Hbad as [[_ H]|(k & H & _)]; lia.
  - cbn [range_sum_loop].
    assert (Hle : i <= e) by (destruct Hbad as [[_ H]|(k & H & _)]; lia).
    apply Z.leb_le in Hle as Hle'. rewrite Hle'.
    destruct (fits_int (sum + i)) eqn:H1; [|reflexivity].
    destruct (fits_int (i + 1)) eqn:H2; [|reflexivity].
    apply fits_int_in_range in H1, H2.
    apply IH; [lia | | lia |].
    + replace (b + (i + 1) - 1) with (b + i) by lia.
      replace (i + 1 - b) with (i - b + 1) by lia. nia.
    + destruct Hbad as [[He _]|(k & Hk & Hout)].
      * left. split; [exact He|]. destruct H2 as [_ H2]. lia.
      * right. exists k. split; [|exact Hout].
        destruct (decide (k = i)) as [->|Hne]; [|lia].
        rewrite <- (range_total_step b i sum Hsum) in Hout. by destruct Hout.
Qed.

(** On a range that is not empty, the lambda of main.cpp runs into
    signed overflow, which the source leaves undefined, whenever [e] is
    [INT_MAX] (the increment after the last turn overflows) or some
    partial sum does not fit an [int]. *)
Theorem range_sum_overflow (b e : Z) :
  b <= e ->
  e = Int.int_max
  \/ (exists k, b <= k <= e /\ ~ Int.in_range (range_total b k)) ->
  range_sum b e = SignedOverflow.
Proof.
  intros Hle Hbad. unfold range_sum.
  apply (range_sum_loop_overflow b); try lia.
  destruct Hbad as [He|Hk]; [left; by split | right; exact Hk].
Qed.

Lemma range_sum_overflow_witness :
  range_sum 1 100000 = SignedOverflow.
Proof.
  apply range_sum_overflow; [lia|].
  right. exists 65536. split; [lia|].
  unfold Int.in_range. intros [_ H]. vm_compute in H. by apply H.
Defined.

(** ** What the counters count *)

Lemma executing_tasks_count (l : list OsThread) :
  length (executing_tasks l) = count_phase is_executing l.
Proof.
  induction l as [|x l IH]; [reflexivity|].
  rewrite executing_tasks_cons, length_app, IH. unfold task_of. simpl.
  by destruct (th_phase x).
Qed.

(** For a well-behaved client, [curThreadSize_ - idleThreadSize_] is at
    every moment the number of threads holding a claimed task, and the
    threads that have not returned are never more than
    [curThreadSize_]. *)
Theorem counters_track_busy_workers (w : World) :
  reachable w ->
  Z.of_nat (length (executing_tasks (os_threads w)))
  = curThreadSize_ (pool w) - idleThreadSize_ (pool w)
  /\ Z.of_nat (count_phase is_alive (os_threads w)) <= curThreadSize_ (pool w).
Proof.
  intros Hreach. destruct (reachable_inv w Hreach).
  rewrite executing_tasks_count. by split.
Qed.

Lemma counters_track_busy_workers_witness :
  reachable serving_world
  /\ executing_tasks (os_threads serving_world) = [1%nat]
  /\ curThreadSize_ (pool serving_world)
     - idleThreadSize_ (pool serving_world) = 1.
Proof.
  assert (Hreach : reachable serving_world).
  { apply (reachable_run
             [CallSubmitTask 1%nat; WorkerStep 0 no_timeout;
              WorkerStep 0 no_timeout]
             (world_after [CallStart 2])).
    - apply (reachable_start fresh_world 2).
      + exact configured_fresh.
      + unfold Int.int_max. lia.
      + vm_compute. discriminate.
      + vm_compute. reflexivity.
    - reflexivity.
    - vm_compute. reflexivity. }
  split; [exact Hreach|]. split; [vm_compute; reflexivity|].
  destruct (counters_track_busy_workers serving_world Hreach)
    as (Hex & _).
  rewrite <- Hex. vm_compute. reflexivity.
Defined.
